(** * gtpm: a text pattern matcher (shallow embedding of gtpm.go)

    The Go package compiles a comma separated pattern into a slice of
    instructions (closures over a position, byte strings and [* int]
    cells) and runs them in order against an [io.Reader].

    Modelling choices, all following the source:
    - Go [string] values (the pattern, its fields, variable names) are
      [string]; [[]byte] values are [list ascii];
    - Go [int] is the 64 bit signed integer of the usual targets, carried
      as [Z]; the one multiplication that can leave the range
      ([bs *= 2]) has its wrap-around written out;
    - [[]int] is a slice header over a backing array living in a heap of
      arrays, and [* int] is an (array, index) pair, because [Compile]
      keeps pointers into [matcher.intBinds] while it goes on appending;
    - an instruction is the record of what its closure captured, and each
      [genInst...] function below is the body of that closure;
    - a run-time panic (index or slice out of range, [make] with a length
      that is negative or beyond what the runtime takes) is an outcome of
      its own. *)

From Stdlib Require Import ZArith Lia Ascii String.
From stdpp Require Import base option list sorting strings gmap.

Local Open Scope string_scope.
Local Open Scope list_scope.
Local Open Scope nat_scope.

(** ** Bytes and strings *)

(** [[]byte(s)] and [string(b)]. *)
Definition bytesOf (s : string) : list ascii := list_ascii_of_string s.
Definition stringOf (b : list ascii) : string := string_of_list_ascii b.

Definition comma : ascii := ","%char.
Definition CR : ascii := "013"%char.
Definition LF : ascii := "010"%char.
Definition TAB : ascii := "009"%char.
Definition CRLF : string := String CR (String LF EmptyString).

(** [len(s)] *)
Definition len (s : string) : nat := String.length s.

(** [bytes.Equal]: a nil and an empty slice are equal. *)
Definition bytesEqual (a b : list ascii) : bool := bool_decide (a = b).

(** [strings.Contains(s, sep)] for the one byte separators of the source. *)
Fixpoint Contains (s : string) (sep : ascii) : bool :=
  match s with
  | EmptyString => false
  | String c s' => if Ascii.eqb c sep then true else Contains s' sep
  end.

(** [strings.Split(s, sep)] for a one byte separator: the substrings
    between the separators, one more than there are separators. *)
Fixpoint Split (s : string) (sep : ascii) : list string :=
  match s with
  | EmptyString => [EmptyString]
  | String c s' =>
      if Ascii.eqb c sep then EmptyString :: Split s' sep
      else match Split s' sep with
           | t :: ts => String c t :: ts
           | [] => [String c EmptyString]
           end
  end.

(** [ReadString(delim)] of a [bytes.Buffer]: the text up to and including the
    first delimiter, or everything that is left together with [io.EOF]
    (the flag) when there is no delimiter. The third component is what
    stays in the buffer. *)
Fixpoint ReadString (buf : string) (delim : ascii) : string * bool * string :=
  match buf with
  | EmptyString => (EmptyString, true, EmptyString)
  | String c rest =>
      if Ascii.eqb c delim then (String c EmptyString, false, rest)
      else let '(l, eof, rest') := ReadString rest delim in
           (String c l, eof, rest')
  end.

(** All the results of the successive [ReadString] calls of the compile
    loop: the lines returned with a nil error, and the last one, returned
    with [io.EOF]. *)
Fixpoint splitRaw (buf : string) : list string * string :=
  match buf with
  | EmptyString => ([], EmptyString)
  | String c rest =>
      let '(ls, final) := splitRaw rest in
      if Ascii.eqb c comma then (String c EmptyString :: ls, final)
      else match ls with
           | [] => ([], String c final)
           | l :: ls' => (String c l :: ls', final)
           end
  end.

(** ** strconv.ParseInt(s, 10, 64) *)

Inductive NumErr := ErrSyntax | ErrRange.

Definition digitOf (c : ascii) : option Z :=
  let n := Z.of_nat (nat_of_ascii c) in
  if bool_decide (48 ≤ n ≤ 57)%Z then Some (n - 48)%Z else None.

Definition maxUint64 : Z := (2 ^ 64 - 1)%Z.

(** The digit loop of [ParseUint]: a byte that is no digit is a syntax
    error, leaving the 64 bit range is a range error, whichever comes
    first. *)
Fixpoint parseUintLoop (n : Z) (s : string) : Z + NumErr :=
  match s with
  | EmptyString => inl n
  | String c s' =>
      match digitOf c with
      | None => inr ErrSyntax
      | Some d =>
          if bool_decide (maxUint64 `div` 10 + 1 ≤ n)%Z then inr ErrRange
          else let n1 := (n * 10 + d)%Z in
               if bool_decide (maxUint64 < n1)%Z then inr ErrRange
               else parseUintLoop n1 s'
      end
  end.

Definition ParseUint (s : string) : Z + NumErr :=
  match s with
  | EmptyString => inr ErrSyntax
  | _ => parseUintLoop 0 s
  end.

Definition ParseInt (s : string) : Z + NumErr :=
  match s with
  | EmptyString => inr ErrSyntax
  | String c s' =>
      let '(neg, body) :=
        if Ascii.eqb c "+"%char then (false, s')
        else if Ascii.eqb c "-"%char then (true, s')
        else (false, s) in
      match ParseUint body with
      | inr e => inr e
      | inl un =>
          if negb neg && bool_decide (2 ^ 63 ≤ un)%Z then inr ErrRange
          else if neg && bool_decide (2 ^ 63 < un)%Z then inr ErrRange
          else inl (if neg then (- un)%Z else un)
      end
  end.

(** ** Errors *)

(** [ErrorCode] is a string in the source; the two codes built with
    [fmt.Sprintf] carry their argument. *)
Inductive ErrorCode :=
| ErrConstNotMuch
| ErrVarNotMuch
| ErrVarExceedMaxSize (max : Z)
| ErrIntVarNotMuch
| ErrParseColonExpected
| ErrParseVariableNotDefined (name : string)
| ErrParseSuffixExpected
| ErrParseInvalidSlash
| ErrParseInvalidType.

(** The errors that end up in [Error.Cause]: what the reader returned, or
    the [strconv.NumError] of [ParseInt]. *)
Inductive cause :=
| EOF
| NumError (num : string) (e : NumErr).

Record Error := mkError { Code : ErrorCode; Pos : Z; Cause : option cause }.

#[global] Instance NumErr_eq_dec : EqDecision NumErr.
Proof. solve_decision. Defined.
#[global] Instance ErrorCode_eq_dec : EqDecision ErrorCode.
Proof. solve_decision. Defined.
#[global] Instance cause_eq_dec : EqDecision cause.
Proof. solve_decision. Defined.
#[global] Instance Error_eq_dec : EqDecision Error.
Proof. solve_decision. Defined.

(** ** The byte source

    An [io.Reader] over a finite input that hands its bytes out in chunks:
    a [Read] returns at most the head chunk, cut to the length of the
    buffer it is given, and never more; once every chunk is used up it
    returns [io.EOF]. An empty chunk is a read of zero bytes with a nil
    error. [calls] counts the [Read] calls made so far. *)
Record Reader := mkReader { chunks : list (list ascii); calls : nat }.

(** [r.Read(p)] with [len(p) = k]: the bytes delivered, the error, and
    the reader afterwards. *)
Definition Read (r : Reader) (k : nat) : list ascii * option cause * Reader :=
  match chunks r with
  | [] => ([], Some EOF, mkReader [] (S (calls r)))
  | c :: rest =>
      if bool_decide (length c ≤ k)
      then (c, None, mkReader rest (S (calls r)))
      else (take k c, None, mkReader (drop k c :: rest) (S (calls r)))
  end.

(** [bytes.NewReader(b)], the reader of the tests. *)
Definition NewReader (b : list ascii) : Reader :=
  mkReader (match b with [] => [] | _ => [b] end) 0.

(** The input a reader has not delivered yet. *)
Definition remaining (r : Reader) : list ascii := concat (chunks r).

(** Every loop of the engine calls [Read] once per turn, and a [Read]
    either fails or uses up a byte or a chunk: this many turns are never
    all taken. *)
Definition budget (r : Reader) : nat :=
  S (length (remaining r) + length (chunks r)).

(** ** Integer cells: [[]int] and [* int] *)

(** A heap of backing arrays, addressed by allocation number. *)
Record ptr := mkPtr { parr : nat; pidx : nat }.
Record slice := mkSlice { sarr : nat; slen : nat; scap : nat }.

#[global] Instance ptr_eq_dec : EqDecision ptr.
Proof. solve_decision. Defined.

(** [*p] and [*p = v]. *)
Definition load (h : list (list Z)) (p : ptr) : Z :=
  default 0%Z (h !! parr p ≫= λ a : list Z, a !! pidx p).

Definition store (h : list (list Z)) (p : ptr) (v : Z) : list (list Z) :=
  alter (λ a : list Z, <[pidx p := v]> a) (parr p) h.

(** The nil slice [matcher.intBinds] starts as. *)
Definition nilSlice : slice := mkSlice 0 0 0.

(** [&s[i]]: a pointer into the array the slice has at this moment; the
    index is checked against the length. *)
Definition addr (s : slice) (i : nat) : option ptr :=
  if bool_decide (i < slen s) then Some (mkPtr (sarr s) i) else None.

(** The sizes in bytes the allocator has for small objects
    ([class_to_size] of the runtime), and the size it gives an object of
    [size] bytes: the next class, or the next multiple of the 8192 byte
    page above the last class. *)
Definition sizeClasses : list Z :=
  [8; 16; 24; 32; 48; 64; 80; 96; 112; 128; 144; 160; 176; 192; 208; 224; 240;
   256; 288; 320; 352; 384; 416; 448; 480; 512; 576; 640; 704; 768; 896; 1024;
   1152; 1280; 1408; 1536; 1792; 2048; 2304; 2688; 3072; 3200; 3456; 4096;
   4864; 5120; 5376; 6144; 6528; 6784; 6912; 8192; 9472; 9728; 10240; 10880;
   12288; 13568; 14336; 16384; 18432; 19072; 20480; 21760; 24576; 27264;
   28672; 32768]%Z.

Definition roundupsize (size : Z) : Z :=
  match filter (λ c, size ≤ c)%Z sizeClasses with
  | c :: _ => c
  | [] => ((size + 8191) / 8192 * 8192)%Z
  end.

(** [for { newcap += (newcap + 3*256) >> 2; if newcap >= needed { break } }] *)
Fixpoint growLoop (fuel : nat) (newcap needed : Z) : Z :=
  match fuel with
  | 0 => newcap
  | S fuel' =>
      let newcap' := (newcap + (newcap + 768) / 4)%Z in
      if bool_decide (needed ≤ newcap')%Z then newcap'
      else growLoop fuel' newcap' needed
  end.

(** The capacity the Go runtime ([growslice], Go 1.20 and later, 64 bit)
    gives a slice of 8 byte elements of capacity [oldcap] that has to
    hold [needed] elements: [needed] when that is more than twice the old
    capacity, twice the old capacity below 256 elements, the old capacity
    grown by a quarter and 192 elements until it is enough above that; all
    rounded up to what the allocator hands out. *)
Definition growslice (oldcap needed : nat) : nat :=
  let old := Z.of_nat oldcap in
  let want := Z.of_nat needed in
  let newcap :=
    if bool_decide (2 * old < want)%Z then want
    else if bool_decide (old < 256)%Z then (2 * old)%Z
    else growLoop needed old want in
  Z.to_nat (roundupsize (8 * newcap) / 8).

Section Cells.

(** How much room [append] makes when the array is full is the runtime's
    business, not the program's: it is a parameter here, and [growslice]
    is the instance used to run the examples. *)
Variable growcap : nat → nat → nat.

(** [append(s, v)]: in place while there is room, else into a new array
    that receives a copy of the elements. The old array stays where it
    is, and stays what every pointer taken before still refers to. *)
Definition appendInt (h : list (list Z)) (s : slice) (v : Z) : list (list Z) * slice :=
  if bool_decide (slen s < scap s)
  then (store h (mkPtr (sarr s) (slen s)) v, mkSlice (sarr s) (S (slen s)) (scap s))
  else
    let newcap := S (slen s) `max` growcap (scap s) (S (slen s)) in
    let old := take (slen s) (default [] (h !! sarr s)) in
    (h ++ [take newcap (old ++ v :: replicate newcap 0%Z)],
     mkSlice (length h) (S (slen s)) newcap).

End Cells.

(** ** Instructions *)

(** What each closure returned by a [genInst...] function has captured. *)
Inductive instruction :=
| InstConst (pos : Z) (mtch : list ascii)
| InstVarWithSize (pos : Z) (size : ptr) (capture : bool)
| InstVarWithoutSize (pos : Z) (suffix : list ascii) (capture : bool) (max : Z)
| InstIntWithSize (pos : Z) (size outSize : ptr)
| InstIntWithoutSize (pos : Z) (suffix : list ascii) (outSize : ptr) (max : Z).

#[global] Instance instruction_eq_dec : EqDecision instruction.
Proof. solve_decision. Defined.

(** What a call of an instruction comes to: [(buf, nil)] with [buf]
    possibly nil, [(nil, err)], or a panic. The cells and the reader are
    left as the call leaves them. [Spin] stands for a loop that has used up
    its [budget]; [call_returns] shows that none does. *)
Inductive Outcome :=
| Ret (buf : option (list ascii)) (h : list (list Z)) (r : Reader)
| Raise (e : Error) (h : list (list Z)) (r : Reader)
| Panic
| Spin.

Definition zero : ascii := Ascii.zero.

(** [copy(buf[i:], data)], what a [Read(buf[i:])] does to [buf]. *)
Definition writeAt (buf : list ascii) (i : nat) (data : list ascii) : list ascii :=
  take i buf ++ data ++ drop (i + length data) buf.

(** The loop the three sized instructions share,

      for i := 0; i < l; { n, err := r.Read(buf[i:]); if err != nil {...}; i += n }

    returning the filled buffer or the error of the reader. *)
Fixpoint fill (fuel l : nat) (buf : list ascii) (i : nat) (r : Reader)
  : option ((list ascii + cause) * Reader) :=
  match fuel with
  | 0 => None
  | S fuel' =>
      if bool_decide (i < l) then
        let '(data, err, r') := Read r (l - i) in
        match err with
        | Some e => Some (inr e, r')
        | None => fill fuel' l (writeAt buf i data) (i + length data) r'
        end
      else Some (inl buf, r)
  end.

Definition genInstConst (pos : Z) (mtch : list ascii)
    (h : list (list Z)) (r : Reader) : Outcome :=
  let l := length mtch in
  match fill (budget r) l (replicate l zero) 0 r with
  | None => Spin
  | Some (inr e, r') => Raise (mkError ErrConstNotMuch pos (Some e)) h r'
  | Some (inl buf, r') =>
      if bytesEqual mtch buf then Ret None h r'
      else Raise (mkError ErrConstNotMuch pos None) h r'
  end.

(** The longest slice of bytes the runtime makes: [maxAlloc], 2^48 bytes
    on the 64 bit targets with 48 bit heap addresses (linux/amd64 among
    them) that the [int] of this embedding belongs to. *)
Definition maxAlloc : Z := (2 ^ 48)%Z.

(** [make([]byte, *size)] panics, with "makeslice: len out of range", on a
    negative length and on a length beyond [maxAlloc]. A buffer within
    that limit is taken to be there: running out of memory is no part of
    the embedding. *)
Definition genInstVarWithSize (pos : Z) (size : ptr) (capture : bool)
    (h : list (list Z)) (r : Reader) : Outcome :=
  let n := load h size in
  if bool_decide (n < 0 ∨ maxAlloc < n)%Z then Panic
  else
    let l := Z.to_nat n in
    match fill (budget r) l (replicate l zero) 0 r with
    | None => Spin
    | Some (inr e, r') => Raise (mkError ErrVarNotMuch pos (Some e)) h r'
    | Some (inl buf, r') => Ret (if capture then Some buf else None) h r'
    end.

Definition genInstIntWithSize (pos : Z) (size outSize : ptr)
    (h : list (list Z)) (r : Reader) : Outcome :=
  let n := load h size in
  if bool_decide (n < 0 ∨ maxAlloc < n)%Z then Panic
  else
    let l := Z.to_nat n in
    match fill (budget r) l (replicate l zero) 0 r with
    | None => Spin
    | Some (inr e, r') => Raise (mkError ErrIntVarNotMuch pos (Some e)) h r'
    | Some (inl buf, r') =>
        match ParseInt (stringOf buf) with
        | inr e =>
            Raise (mkError ErrIntVarNotMuch pos (Some (NumError (stringOf buf) e))) h r'
        | inl v => Ret (Some buf) (store h outSize v) r'
        end
    end.

(** *** Scanning for a suffix *)

(** The variables of the scanning loop. *)
Record scanState := mkScan { idx : nat; midx : nat; bs : Z; buf : list ascii }.

(** One turn of the loop either goes on, has the suffix in its window,
    returns an error, or panics on a slice out of range. *)
Inductive scanResult :=
| Next (st : scanState) (r : Reader)
| Found (st : scanState) (r : Reader)
| Failed (e : Error) (r : Reader)
| Crashed.

(** A 64 bit product, wrapped. *)
Definition wrapInt (z : Z) : Z := ((z + 2 ^ 63) `mod` 2 ^ 64 - 2 ^ 63)%Z.

(** The end of a turn: [if idx == bs { bs *= 2; if bs > max {...}; new :=
    make([]byte, bs); copy(new, buf); buf = new }]. This [make] panics on
    the negative length of a doubling that has wrapped. It is given a
    length beyond [maxAlloc] only once a buffer of [maxAlloc] bytes has
    been made and read full, more memory than a process has: as with the
    memory itself, that case is no part of the embedding. *)
Definition scanGrow (pos max : Z) (st : scanState) (r : Reader) : scanResult :=
  if bool_decide (Z.of_nat (idx st) = bs st) then
    let bs' := wrapInt (bs st * 2) in
    if bool_decide (max < bs')%Z
    then Failed (mkError (ErrVarExceedMaxSize max) pos None) r
    else if bool_decide (bs' < 0)%Z then Crashed
    else
      let n := Z.to_nat bs' in
      Next (mkScan (idx st) (midx st) bs' (take n (buf st ++ replicate n zero))) r
  else Next st r.

(** One turn. The [Read] is given the one byte window [buf[idx:idx+1]] and
    its count is dropped: after a read of zero bytes the byte at [idx]
    stays the zero it was made with, and [idx] moves on all the same.
    [code] is the code of the error raised when the reader fails, the only
    thing in which the two scanning instructions differ before the suffix
    is found. *)
Definition scanStep (code : ErrorCode) (pos : Z) (suffix : list ascii) (max : Z)
    (st : scanState) (r : Reader) : scanResult :=
  if bool_decide (S (idx st) ≤ length (buf st)) then
    let '(data, err, r') := Read r 1 in
    match err with
    | Some e => Failed (mkError code pos (Some e)) r'
    | None =>
        let buf1 := writeAt (buf st) (idx st) data in
        let idx1 := S (idx st) in
        if bool_decide (length suffix ≤ idx1) then
          if bool_decide (midx st + length suffix ≤ length buf1) then
            if bytesEqual suffix (take (length suffix) (drop (midx st) buf1))
            then Found (mkScan idx1 (midx st) (bs st) buf1) r'
            else scanGrow pos max (mkScan idx1 (S (midx st)) (bs st) buf1) r'
          else Crashed
        else scanGrow pos max (mkScan idx1 (midx st) (bs st) buf1) r'
    end
  else Crashed.

(** [bs := 16; buf := make([]byte, bs)], [idx] and [midx] zero. *)
Definition scanInit : scanState := mkScan 0 0 16 (replicate 16 zero).

(** [for { ... }] *)
Fixpoint scanLoop (fuel : nat) (code : ErrorCode) (pos : Z) (suffix : list ascii)
    (max : Z) (st : scanState) (r : Reader) : option scanResult :=
  match fuel with
  | 0 => None
  | S fuel' =>
      match scanStep code pos suffix max st r with
      | Next st' r' => scanLoop fuel' code pos suffix max st' r'
      | res => Some res
      end
  end.

Definition genInstVarWithoutSize (pos : Z) (suffix : list ascii) (capture : bool)
    (max : Z) (h : list (list Z)) (r : Reader) : Outcome :=
  match scanLoop (budget r) ErrVarNotMuch pos suffix max scanInit r with
  | Some (Found st r') =>
      Ret (if capture then Some (take (midx st) (buf st)) else None) h r'
  | Some (Failed e r') => Raise e h r'
  | Some Crashed => Panic
  | Some (Next _ _) | None => Spin
  end.

Definition genInstIntWithoutSize (pos : Z) (suffix : list ascii) (outSize : ptr)
    (max : Z) (h : list (list Z)) (r : Reader) : Outcome :=
  match scanLoop (budget r) ErrIntVarNotMuch pos suffix max scanInit r with
  | Some (Found st r') =>
      let digits := take (midx st) (buf st) in
      match ParseInt (stringOf digits) with
      | inr e =>
          Raise (mkError ErrIntVarNotMuch pos (Some (NumError (stringOf digits) e))) h r'
      | inl v => Ret (Some digits) (store h outSize v) r'
      end
  | Some (Failed e r') => Raise e h r'
  | Some Crashed => Panic
  | Some (Next _ _) | None => Spin
  end.

(** Calling an instruction: the closure body applied to what it captured. *)
Definition call (inst : instruction) : list (list Z) → Reader → Outcome :=
  match inst with
  | InstConst pos mtch => genInstConst pos mtch
  | InstVarWithSize pos size capture => genInstVarWithSize pos size capture
  | InstVarWithoutSize pos suffix capture max => genInstVarWithoutSize pos suffix capture max
  | InstIntWithSize pos size outSize => genInstIntWithSize pos size outSize
  | InstIntWithoutSize pos suffix outSize max => genInstIntWithoutSize pos suffix outSize max
  end.

(** ** The matcher *)

Record TextPatternMatcher := mkMatcher {
  instSlice : list instruction;
  intBinds : slice;
  maxVarSize : Z
}.

Inductive MatchResult :=
| Matched (binds : list (list ascii)) (h : list (list Z)) (r : Reader)
| MatchError (e : Error) (h : list (list Z)) (r : Reader)
| MatchPanic
| MatchSpin.

(** The loop of [MatchReader]: a buffer that is not nil is appended to
    [binds], the first error ends the match. *)
Fixpoint matchLoop (insts : list instruction) (binds : list (list ascii))
    (h : list (list Z)) (r : Reader) : MatchResult :=
  match insts with
  | [] => Matched binds h r
  | inst :: rest =>
      match call inst h r with
      | Ret b h' r' =>
          matchLoop rest (match b with Some b => binds ++ [b] | None => binds end) h' r'
      | Raise e h' r' => MatchError e h' r'
      | Panic => MatchPanic
      | Spin => MatchSpin
      end
  end.

Definition MatchReader (tpm : TextPatternMatcher) (h : list (list Z)) (r : Reader)
  : MatchResult :=
  matchLoop (instSlice tpm) [] h r.

(** ** The compiler *)

Inductive parseState := nonParseState | blindParseState | binParseState | intParseState.

#[global] Instance parseState_eq_dec : EqDecision parseState.
Proof. solve_decision. Defined.

Inductive Option := WithMaxVariableSize (max : Z).

Definition applyOption (tpm : TextPatternMatcher) (opt : Option) : TextPatternMatcher :=
  match opt with
  | WithMaxVariableSize max => mkMatcher (instSlice tpm) (intBinds tpm) max
  end.

Definition defaultMaxVarSize : Z := 4096.

(** What the loop of [Compile] carries from one field to the next: the
    matcher under construction with the arrays its cells live in, and the
    locals [intBindsMap], [state] and [name]. *)
Record cstate := mkC {
  matcher : TextPatternMatcher;
  heap : list (list Z);
  intBindsMap : gmap string nat;
  state : parseState;
  name : string
}.

Inductive StepResult :=
| StepOk (st : cstate)
| StepErr (e : Error)
| StepPanic.

Inductive CompileResult :=
| Compiled (tpm : TextPatternMatcher) (h : list (list Z))
| CompileError (e : Error)
| CompilePanic.

(** [state = s] *)
Definition setState (s : parseState) (st : cstate) : cstate :=
  mkC (matcher st) (heap st) (intBindsMap st) s (name st).

(** [name = n] *)
Definition setName (n : string) (st : cstate) : cstate :=
  mkC (matcher st) (heap st) (intBindsMap st) (state st) n.

(** [matcher.instSlice = append(matcher.instSlice, inst)] *)
Definition emit (inst : instruction) (st : cstate) : cstate :=
  mkC (mkMatcher (instSlice (matcher st) ++ [inst]) (intBinds (matcher st))
         (maxVarSize (matcher st)))
      (heap st) (intBindsMap st) (state st) (name st).

(** [intBindsMap[n] = len(matcher.intBinds) - 1] *)
Definition bindLast (n : string) (st : cstate) : cstate :=
  mkC (matcher st) (heap st)
      (<[n := slen (intBinds (matcher st)) - 1]> (intBindsMap st))
      (state st) (name st).

(** The last byte of a string and the string without it. *)
Fixpoint lastByte (s : string) : option ascii :=
  match s with
  | EmptyString => None
  | String c EmptyString => Some c
  | String _ s' => lastByte s'
  end.

Fixpoint dropLast (s : string) : string :=
  match s with
  | EmptyString => EmptyString
  | String _ EmptyString => EmptyString
  | String c s' => String c (dropLast s')
  end.

(** [line] from [rawLine]; [rawLine[len(rawLine)-1]] is out of range, and
    panics, when [rawLine] is empty. *)
Definition trimLine (rawLine : string) : option string :=
  match lastByte rawLine with
  | None => None
  | Some c => Some (if Ascii.eqb c comma then dropLast rawLine else rawLine)
  end.

Section Compiler.

Variable growcap : nat → nat → nat.

(** [matcher.intBinds = append(matcher.intBinds, v)] *)
Definition pushCell (v : Z) (st : cstate) : cstate :=
  let '(h, s) := appendInt growcap (heap st) (intBinds (matcher st)) v in
  mkC (mkMatcher (instSlice (matcher st)) s (maxVarSize (matcher st)))
      h (intBindsMap st) (state st) (name st).

(** [&matcher.intBinds[i]], then the rest of the branch; an index out of
    range panics. *)
Definition withCell (st : cstate) (i : nat) (k : ptr → StepResult) : StepResult :=
  match addr (intBinds (matcher st)) i with
  | Some p => k p
  | None => StepPanic
  end.

(** [len(matcher.intBinds) - n] *)
Definition lastCell (n : nat) (st : cstate) : nat := slen (intBinds (matcher st)) - n.

(** The fields ["_:12"] and ["_:Number"] (capture false), ["var/bin:12"]
    and ["var/bin:Number"] (capture true): the token after the colon is
    a number when [ParseInt] takes it, a variable otherwise. *)
Definition compileSized (pos : Z) (tok : string) (capture : bool) (st : cstate)
  : StepResult :=
  match ParseInt tok with
  | inl n =>
      let st1 := pushCell n st in
      withCell st1 (lastCell 1 st1) (λ p,
        StepOk (emit (InstVarWithSize pos p capture) st1))
  | inr _ =>
      match intBindsMap st !! tok with
      | None => StepErr (mkError (ErrParseVariableNotDefined tok) pos None)
      | Some i =>
          withCell st i (λ p, StepOk (emit (InstVarWithSize pos p capture) st))
      end
  end.

(** The fields ["var/int:12"] and ["var/int:Number"]. *)
Definition compileSizedInt (pos : Z) (var tok : string) (st : cstate) : StepResult :=
  match ParseInt tok with
  | inl n =>
      let st1 := pushCell 0 (pushCell n st) in
      let st2 := bindLast var st1 in
      withCell st2 (lastCell 2 st2) (λ size,
        withCell st2 (lastCell 1 st2) (λ outSize,
          StepOk (emit (InstIntWithSize pos size outSize) st2)))
  | inr _ =>
      match intBindsMap st !! tok with
      | None => StepErr (mkError (ErrParseVariableNotDefined tok) pos None)
      | Some i =>
          let st1 := pushCell 0 st in
          let st2 := bindLast var st1 in
          withCell st2 i (λ size,
            withCell st2 (lastCell 1 st2) (λ outSize,
              StepOk (emit (InstIntWithSize pos size outSize) st2)))
      end
  end.

(** The body of the loop of [Compile] from [if line[0] == '_'] to the
    end of the [if] chain, for the field [line] at [pos]. *)
Definition compileLine (pos : Z) (line : string) (st : cstate) : StepResult :=
  match line with
  | EmptyString => StepPanic
  | String c0 _ =>
      if Ascii.eqb c0 "_"%char then
        if bool_decide (len line = 1) then StepOk (setState blindParseState st)
        else
          match Split line ":"%char with
          | [_; tok] => compileSized pos tok false st
          | _ => StepErr (mkError ErrParseColonExpected pos None)
          end
      else if Contains line "/"%char then
        match Split line "/"%char with
        | [var; ty] =>
            if bool_decide (len ty < 3)
            then StepErr (mkError ErrParseInvalidType pos None)
            else if String.eqb (substring 0 3 ty) "bin" then
              match Split ty ":"%char with
              | [] => StepPanic
              | sub0 :: subs =>
                  if negb (String.eqb sub0 "bin")
                  then StepErr (mkError ErrParseInvalidType pos None)
                  else match subs with
                       | [tok] => compileSized pos tok true st
                       | _ => StepOk (setState binParseState st)
                       end
              end
            else if String.eqb (substring 0 3 ty) "int" then
              match Split ty ":"%char with
              | [] => StepPanic
              | sub0 :: subs =>
                  if negb (String.eqb sub0 "int")
                  then StepErr (mkError ErrParseInvalidType pos None)
                  else match subs with
                       | [tok] => compileSizedInt pos var tok st
                       | _ => StepOk (setState intParseState (setName var st))
                       end
              end
            else StepErr (mkError ErrParseInvalidType pos None)
        | _ => StepErr (mkError ErrParseInvalidSlash pos None)
        end
      else
        match state st with
        | blindParseState =>
            StepOk (setState nonParseState
              (emit (InstVarWithoutSize pos (bytesOf line) false
                       (maxVarSize (matcher st))) st))
        | binParseState =>
            StepOk (setState nonParseState
              (emit (InstVarWithoutSize pos (bytesOf line) true
                       (maxVarSize (matcher st))) st))
        | intParseState =>
            let st1 := bindLast (name st) (pushCell 0 st) in
            withCell st1 (lastCell 1 st1) (λ outSize,
              StepOk (setState nonParseState
                (emit (InstIntWithoutSize pos (bytesOf line) outSize
                         (maxVarSize (matcher st))) st1)))
        | nonParseState => StepOk (emit (InstConst pos (bytesOf line)) st)
        end
  end.

(** One turn of the loop up to the test of [err == io.EOF]. *)
Definition compileRaw (pos : Z) (rawLine : string) (st : cstate) : StepResult :=
  match trimLine rawLine with
  | None => StepPanic
  | Some line => compileLine pos line st
  end.

(** The loop of [Compile] over the lines [ReadString] returns: [raws]
    came with a nil error, [final] with [io.EOF]. *)
Fixpoint compileLoop (raws : list string) (final : string) (st : cstate) (pos : Z)
  : CompileResult :=
  match raws with
  | rawLine :: rest =>
      match compileRaw pos rawLine st with
      | StepOk st' => compileLoop rest final st' (pos + Z.of_nat (len rawLine))
      | StepErr e => CompileError e
      | StepPanic => CompilePanic
      end
  | [] =>
      match compileRaw pos final st with
      | StepOk st' =>
          if bool_decide (state st' = nonParseState)
          then Compiled (matcher st') (heap st')
          else CompileError (mkError ErrParseSuffixExpected pos None)
      | StepErr e => CompileError e
      | StepPanic => CompilePanic
      end
  end.

(** The matcher the options leave, with the default limit filled in, and
    the state the loop starts in. *)
Definition newMatcher (opts : list Option) : TextPatternMatcher :=
  let tpm := foldl applyOption (mkMatcher [] nilSlice 0) opts in
  if bool_decide (maxVarSize tpm = 0%Z)
  then mkMatcher (instSlice tpm) (intBinds tpm) defaultMaxVarSize
  else tpm.

Definition startState (opts : list Option) : cstate :=
  mkC (newMatcher opts) [] ∅ nonParseState EmptyString.

Definition Compile (pattern : string) (opts : list Option) : CompileResult :=
  let '(raws, final) := splitRaw pattern in
  compileLoop raws final (startState opts) 1.

End Compiler.

(** [Compile] followed by [MatchReader] on a [bytes.NewReader], as in
    [TestCompileAndMatch]. *)
Definition compileAndMatch (pattern : string) (opts : list Option) (input : string)
  : CompileResult + MatchResult :=
  match Compile growslice pattern opts with
  | Compiled tpm h => inr (MatchReader tpm h (NewReader (bytesOf input)))
  | res => inl res
  end.

(** What a test looks at: the captures or the error. *)
Definition verdict (x : CompileResult + MatchResult) : list string + Error + bool :=
  match x with
  | inl (CompileError e) => inl (inr e)
  | inr (MatchError e _ _) => inl (inr e)
  | inr (Matched binds _ _) => inl (inl (stringOf <$> binds))
  | inl CompilePanic | inr MatchPanic => inr true
  | _ => inr false
  end.

(** The concatenation of the pieces of a text, for writing patterns and
    inputs with control characters in them. *)
Definition cat (parts : list string) : string :=
  foldr String.append EmptyString parts.

(** ** Vocabulary of the properties *)

(** What the loop comes to, as a function of the input that is left:
    the next [l - i] bytes land in the buffer, or the input ends first. *)
Definition filled (l : nat) (buf : list ascii) (i : nat) (input : list ascii)
  : list ascii + cause :=
  if bool_decide (l - i ≤ length input)
  then inl (writeAt buf i (take (l - i) input))
  else inr EOF.

(** What it leaves in the reader. *)
Definition unread (l i : nat) (input : list ascii) : list ascii :=
  if bool_decide (l - i ≤ length input) then drop (l - i) input else [].

(** What a [Read] that succeeds on a buffer that is not empty makes
    smaller. *)
Definition weight (r : Reader) : nat := length (remaining r) + length (chunks r).

(** The instructions that read a number of bytes known when they start:
    Const, VarSized and IntSized. *)
Definition fixedSize (inst : instruction) : bool :=
  match inst with
  | InstConst _ _ | InstVarWithSize _ _ _ | InstIntWithSize _ _ _ => true
  | InstVarWithoutSize _ _ _ _ | InstIntWithoutSize _ _ _ _ => false
  end.

(** Two calls come to the same: the same buffer or the same error (with
    its cause), the same cells, the same input left unread; or both
    panic. *)
Definition sameOutcome (o1 o2 : Outcome) : Prop :=
  match o1, o2 with
  | Ret b1 h1 r1, Ret b2 h2 r2 => b1 = b2 ∧ h1 = h2 ∧ remaining r1 = remaining r2
  | Raise e1 h1 r1, Raise e2 h2 r2 => e1 = e2 ∧ h1 = h2 ∧ remaining r1 = remaining r2
  | Panic, Panic => True
  | _, _ => False
  end.

(** The states the loop of a scanning instruction goes through, from
    [scanInit] on the reader [r0]. *)
Inductive scanReach (code : ErrorCode) (pos : Z) (sfx : list ascii) (max : Z)
    (r0 : Reader) : scanState → Reader → Prop :=
| reach_init : scanReach code pos sfx max r0 scanInit r0
| reach_next st r st' r' :
    scanReach code pos sfx max r0 st r →
    scanStep code pos sfx max st r = Next st' r' →
    scanReach code pos sfx max r0 st' r'.

(** At the head of the loop there is room for the next byte, the buffer
    is [bs] bytes and no more than the limit, and the window that starts
    at [midx] ends where the bytes read so far end. *)
Definition scanInv (sfx : list ascii) (max : Z) (st : scanState) : Prop :=
  (Z.of_nat (idx st) < bs st)%Z ∧ (bs st ≤ max)%Z
  ∧ Z.of_nat (length (buf st)) = bs st
  ∧ (midx st = 0 ∨ midx st + length sfx ≤ S (idx st)).

(** What one turn does from a state within the invariant. *)
Definition scanTurn (code : ErrorCode) (pos : Z) (sfx : list ascii) (max : Z)
    (st : scanState) (res : scanResult) : Prop :=
  match res with
  | Next st' _ => scanInv sfx max st'
  | Found st' _ =>
      (Z.of_nat (idx st') ≤ bs st' ≤ max)%Z ∧ Z.of_nat (length (buf st')) = bs st'
      ∧ midx st' ≤ idx st'
  | Failed e _ =>
      (∃ c, e = mkError code pos (Some c))
      ∨ (e = mkError (ErrVarExceedMaxSize max) pos None
         ∧ Z.of_nat (S (idx st)) = bs st ∧ (max < 2 * bs st)%Z)
  | Crashed => False
  end.

(** Any number of turns of the loop, for running it on an input. *)
Fixpoint scanIter (n : nat) (code : ErrorCode) (pos : Z) (sfx : list ascii) (max : Z)
    (st : scanState) (r : Reader) : option (scanState * Reader) :=
  match n with
  | 0 => Some (st, r)
  | S n' =>
      match scanStep code pos sfx max st r with
      | Next st' r' => scanIter n' code pos sfx max st' r'
      | _ => None
      end
  end.

(** The lines the loop of [Compile] reads, in order: the fields of the
    pattern, each with its comma but the last. *)
Definition rawFields (pattern : string) : list string :=
  let '(raws, final) := splitRaw pattern in raws ++ [final].

(** The bytes a run of raw lines takes up in the pattern. *)
Fixpoint totalLen (raws : list string) : Z :=
  match raws with
  | [] => 0
  | raw :: rest => Z.of_nat (len raw) + totalLen rest
  end.

Section Prefix.

Variable growcap : nat → nat → nat.

(** The loop of [Compile] run over some first lines of a pattern, when
    none of them stops it. *)
Fixpoint runFields (raws : list string) (st : cstate) (pos : Z) : option cstate :=
  match raws with
  | [] => Some st
  | rawLine :: rest =>
      match compileRaw growcap pos rawLine st with
      | StepOk st' => runFields rest st' (pos + Z.of_nat (len rawLine))
      | _ => None
      end
  end.

End Prefix.

(** Every variable bound so far names a cell of [matcher.intBinds]. *)
Definition cellsOk (st : cstate) : Prop :=
  map_Forall (λ _ i, i < slen (intBinds (matcher st))) (intBindsMap st).

(** The position an instruction reports. *)
Definition instPos (inst : instruction) : Z :=
  match inst with
  | InstConst pos _ | InstVarWithSize pos _ _ | InstVarWithoutSize pos _ _ _
  | InstIntWithSize pos _ _ | InstIntWithoutSize pos _ _ _ => pos
  end.

(** The instructions that return a buffer: the binary ones made with
    [capture] set, and the integer ones. *)
Definition capturing (inst : instruction) : bool :=
  match inst with
  | InstConst _ _ => false
  | InstVarWithSize _ _ capture | InstVarWithoutSize _ _ capture _ => capture
  | InstIntWithSize _ _ _ | InstIntWithoutSize _ _ _ _ => true
  end.

(** A run of instructions in which each returns without an error, with
    what each returned. *)
Inductive runs : list instruction → list (list Z) → Reader →
                 list (option (list ascii)) → list (list Z) → Reader → Prop :=
| runs_nil h r : runs [] h r [] h r
| runs_cons inst rest h r b h1 r1 outs h2 r2 :
    call inst h r = Ret b h1 r1 →
    runs rest h1 r1 outs h2 r2 →
    runs (inst :: rest) h r (b :: outs) h2 r2.

(** The shapes the loop of [Compile] tells fields apart by: a field that
    starts with an underscore is a blind directive, one with a slash a
    binding directive, any other a suffix or a constant. *)
Definition startsBlind (line : string) : bool :=
  match line with
  | EmptyString => false
  | String c _ => Ascii.eqb c "_"%char
  end.

Definition directiveShaped (line : string) : bool :=
  startsBlind line || Contains line "/"%char.

(** The instructions a field can give rise to: a field that is no
    directive gives a constant or the suffix instruction of the directive
    waiting for it, made of its bytes; a directive with a size gives a
    sized instruction, which captures unless the directive is blind. *)
Definition emittedBy (line : string) (inst : instruction) : Prop :=
  match inst with
  | InstConst _ b | InstVarWithoutSize _ b _ _ | InstIntWithoutSize _ b _ _ =>
      directiveShaped line = false ∧ b = bytesOf line
  | InstVarWithSize _ _ capture =>
      directiveShaped line = true ∧ capture = negb (startsBlind line)
  | InstIntWithSize _ _ _ =>
      directiveShaped line = true ∧ startsBlind line = false
  end.

(** Counting captures along the loop: the capturing instructions made so
    far, one more for a binding directive that waits for its suffix, and
    what a field of the shape of a binding directive adds. *)
Definition captureCount (insts : list instruction) : nat :=
  length (filter (λ inst, capturing inst = true) insts).

Definition pendingCapture (ps : parseState) : nat :=
  match ps with
  | binParseState | intParseState => 1
  | nonParseState | blindParseState => 0
  end.

Definition bindingShaped (line : string) : bool :=
  negb (startsBlind line) && Contains line "/"%char.

Definition bindingCount (line : string) : nat :=
  if bindingShaped line then 1 else 0.

(** What a turn of the loop of [Compile] that goes through leaves: the
    cells still cover the bindings, the limit is untouched, and at most one
    instruction was appended, carrying the position of the field and
    fitting its shape. Unless the field is a directive met while another
    one waits, the captures in sight grow by what the field adds. *)
Definition stepped (pos : Z) (line : string) (st st' : cstate) : Prop :=
  cellsOk st'
  ∧ maxVarSize (matcher st') = maxVarSize (matcher st)
  ∧ (instSlice (matcher st') = instSlice (matcher st)
     ∨ ∃ inst, instSlice (matcher st') = instSlice (matcher st) ++ [inst]
               ∧ instPos inst = pos ∧ emittedBy line inst)
  ∧ (state st = nonParseState ∨ directiveShaped line = false →
     captureCount (instSlice (matcher st')) + pendingCapture (state st')
     = captureCount (instSlice (matcher st)) + pendingCapture (state st)
       + bindingCount line).

Definition stepSafe (pos : Z) (line : string) (st : cstate) (res : StepResult) : Prop :=
  match res with
  | StepOk st' => stepped pos line st st'
  | StepErr e => Pos e = pos
  | StepPanic => False
  end.

(** The same for the two helpers, which append one sized instruction and
    leave the state alone. *)
Definition sizedSafe (pos : Z) (st : cstate) (ok : instruction → Prop)
    (res : StepResult) : Prop :=
  match res with
  | StepOk st' =>
      cellsOk st'
      ∧ maxVarSize (matcher st') = maxVarSize (matcher st)
      ∧ state st' = state st
      ∧ ∃ inst, instSlice (matcher st') = instSlice (matcher st) ++ [inst] ∧ ok inst
  | StepErr e => Pos e = pos
  | StepPanic => False
  end.

(** An instruction of the matcher sits at a field of the pattern: it
    reports the position of that field, 1 plus the lengths of the raw lines
    before it, and is one the field can give rise to. *)
Definition placed (fields : list string) (inst : instruction) : Prop :=
  ∃ pre raw post line,
    fields = pre ++ raw :: post
    ∧ trimLine raw = Some line
    ∧ instPos inst = (1 + totalLen pre)%Z
    ∧ emittedBy line inst.

(** The instructions run from left to right report growing positions. *)
Definition inFieldOrder (insts : list instruction) : Prop :=
  StronglySorted (λ a b, (instPos a < instPos b)%Z) insts.

(** The positions so far are in order and all before [pos]. *)
Definition sortedBelow (pos : Z) (insts : list instruction) : Prop :=
  inFieldOrder insts ∧ Forall (λ inst, (instPos inst < pos)%Z) insts.

(** The suffix instruction the directive waiting in state [ps] gets from
    the field [line]. *)
Definition suffixInst (ps : parseState) (pos : Z) (line : string) (max : Z)
    (inst : instruction) : Prop :=
  match ps with
  | blindParseState => inst = InstVarWithoutSize pos (bytesOf line) false max
  | binParseState => inst = InstVarWithoutSize pos (bytesOf line) true max
  | intParseState => ∃ outSize, inst = InstIntWithoutSize pos (bytesOf line) outSize max
  | nonParseState => False
  end.

(** The fields of a pattern that have the shape of a binding directive,
    [name/bin...] or [name/int...]. *)
Definition bindingFields (pattern : string) : list string :=
  filter (λ line, bindingShaped line = true) (omap trimLine (rawFields pattern)).

(** Every directive without a size is followed by its suffix: the loop
    never gets to a field of the shape of a directive while one waits. *)
Definition suffixesFollow (growcap : nat → nat → nat) (fields : list string)
    (st : cstate) (pos : Z) : Prop :=
  ∀ pre raw post st1 line,
    fields = pre ++ raw :: post →
    runFields growcap pre st pos = Some st1 →
    trimLine raw = Some line →
    state st1 ≠ nonParseState →
    directiveShaped line = false.

(** The same, as a test that runs the loop. *)
Fixpoint suffixesFollowB (growcap : nat → nat → nat) (fields : list string)
    (st : cstate) (pos : Z) : bool :=
  match fields with
  | [] => true
  | raw :: rest =>
      match trimLine raw with
      | Some line =>
          bool_decide (state st = nonParseState) || negb (directiveShaped line)
      | None => true
      end
      && match compileRaw growcap pos raw st with
         | StepOk st' => suffixesFollowB growcap rest st' (pos + Z.of_nat (len raw))
         | _ => true
         end
  end.

(** What a test of an instruction looks at: the buffer or the error. *)
Definition returned (o : Outcome) : option (option string + Error) :=
  match o with
  | Ret b _ _ => Some (inl (stringOf <$> b))
  | Raise e _ _ => Some (inr e)
  | Panic | Spin => None
  end.

(** The cells an instruction reads its size from and writes its number
    to, and the limit of a scanning instruction. *)
Definition sizePtr (inst : instruction) : option ptr :=
  match inst with
  | InstVarWithSize _ size _ | InstIntWithSize _ size _ => Some size
  | InstConst _ _ | InstVarWithoutSize _ _ _ _ | InstIntWithoutSize _ _ _ _ => None
  end.

Definition outPtr (inst : instruction) : option ptr :=
  match inst with
  | InstIntWithSize _ _ outSize | InstIntWithoutSize _ _ outSize _ => Some outSize
  | InstConst _ _ | InstVarWithSize _ _ _ | InstVarWithoutSize _ _ _ _ => None
  end.

Definition limitOf (inst : instruction) : option Z :=
  match inst with
  | InstVarWithoutSize _ _ _ max | InstIntWithoutSize _ _ _ max => Some max
  | InstConst _ _ | InstVarWithSize _ _ _ | InstIntWithSize _ _ _ => None
  end.

(** The errors an instruction can return: the code of its kind with the
    reader's [io.EOF] or, for an integer, the error of [ParseInt] for a
    cause; for a constant the same code without a cause, for a scanning
    instruction the code of the limit without a cause. *)
Definition isNumError (c : option cause) : Prop := ∃ num e, c = Some (NumError num e).

Definition raisedBy (inst : instruction) (e : Error) : Prop :=
  match inst with
  | InstConst _ _ =>
      Code e = ErrConstNotMuch ∧ (Cause e = None ∨ Cause e = Some EOF)
  | InstVarWithSize _ _ _ => Code e = ErrVarNotMuch ∧ Cause e = Some EOF
  | InstVarWithoutSize _ _ _ max =>
      (Code e = ErrVarNotMuch ∧ Cause e = Some EOF)
      ∨ (Code e = ErrVarExceedMaxSize max ∧ Cause e = None)
  | InstIntWithSize _ _ _ =>
      Code e = ErrIntVarNotMuch ∧ (Cause e = Some EOF ∨ isNumError (Cause e))
  | InstIntWithoutSize _ _ _ max =>
      (Code e = ErrIntVarNotMuch ∧ (Cause e = Some EOF ∨ isNumError (Cause e)))
      ∨ (Code e = ErrVarExceedMaxSize max ∧ Cause e = None)
  end.

(** The reader after a call, when the call returns one. *)
Definition readerAfter (o : Outcome) : option Reader :=
  match o with
  | Ret _ _ r | Raise _ _ r => Some r
  | Panic | Spin => None
  end.

(** The limit the options leave: the one of the last option, 4096 when
    that is zero or there is no option. *)
Definition limitOfOptions (opts : list Option) : Z :=
  match last opts with
  | Some (WithMaxVariableSize max) =>
      if bool_decide (max = 0%Z) then defaultMaxVarSize else max
  | None => defaultMaxVarSize
  end.

(** The scanning instructions all carry the limit [max]. *)
Definition limitedBy (max : Z) (insts : list instruction) : Prop :=
  Forall (λ inst, ∀ m, limitOf inst = Some m → m = max) insts.

(** *** Scanning a reader that delivers bytes *)

(** The capacities the scanning buffer goes through: 16 bytes, doubled
    [k] times. *)
Definition cap (k : nat) : nat := 16 * 2 ^ k.

(** A reader that delivers at least one byte at every [Read] before the
    end of the input. *)
Definition readsBytes (r : Reader) : Prop := Forall (λ c, c ≠ []) (chunks r).

(** The suffix stands at offset [i] of the input. *)
Definition occursAt (sfx input : list ascii) (i : nat) : Prop :=
  take (length sfx) (drop i input) = sfx.

(** The scanning loop after [j] turns on [input]: the [j] bytes read are
    in the buffer, no window that ends among them holds the suffix, the
    window of the next turn ends at the next byte, and the buffer has one
    of the capacities, within the limit if it was ever doubled. *)
Definition scanned (sfx input : list ascii) (max : Z) (j : nat)
    (st : scanState) (r : Reader) : Prop :=
  idx st = j ∧ midx st = S j - length sfx
  ∧ (∃ m, bs st = Z.of_nat (cap m) ∧ j < cap m
          ∧ (m = 0 ∨ (Z.of_nat (cap m) ≤ max)%Z))
  ∧ length (buf st) = Z.to_nat (bs st)
  ∧ take j (buf st) = take j input
  ∧ remaining r = drop j input ∧ readsBytes r
  ∧ j ≤ length input
  ∧ ∀ i, i + length sfx ≤ j → ¬ occursAt sfx input i.

(** A scan of [t] bytes fits: one of the capacities holds them, and it
    is within the limit unless it is the 16 bytes the buffer starts
    with. *)
Definition fits (max : Z) (t : nat) : Prop :=
  ∃ k, t ≤ cap k ∧ (k = 0 ∨ (Z.of_nat (cap k) ≤ max)%Z).

(** The cell [p] points at is inside an array of the heap. *)
Definition allocated (h : list (list Z)) (p : ptr) : Prop :=
  ∃ a, h !! parr p = Some a ∧ pidx p < length a.

(** The codes [Compile] returns. *)
Definition parseCode (c : ErrorCode) : bool :=
  match c with
  | ErrParseColonExpected | ErrParseVariableNotDefined _ | ErrParseSuffixExpected
  | ErrParseInvalidSlash | ErrParseInvalidType => true
  | ErrConstNotMuch | ErrVarNotMuch | ErrVarExceedMaxSize _ | ErrIntVarNotMuch => false
  end.

(** The slice header describes an array of the heap: its capacity is
    the length of the array, and its length is within the capacity. The
    nil slice has no array. *)
Definition sliceOk (h : list (list Z)) (s : slice) : Prop :=
  slen s ≤ scap s
  ∧ (0 < scap s → ∃ a, h !! sarr s = Some a ∧ length a = scap s).

(** The cells of the instructions are all inside the heap. *)
Definition cellsAllocated (h : list (list Z)) (insts : list instruction) : Prop :=
  Forall (λ inst, ∀ p, sizePtr inst = Some p ∨ outPtr inst = Some p → allocated h p)
    insts.

Definition heapOk (st : cstate) : Prop :=
  sliceOk (heap st) (intBinds (matcher st))
  ∧ cellsAllocated (heap st) (instSlice (matcher st)).

(** The reader that delivers a zero byte where [r] delivers nothing, and
    what [r] delivers everywhere else. *)
Definition padChunk (c : list ascii) : list ascii :=
  match c with [] => [zero] | _ => c end.

Definition padReads (r : Reader) : Reader :=
  mkReader (padChunk <$> chunks r) (calls r).

(** The same outcome, left with another reader. *)
Definition withReader (f : Reader → Reader) (o : Outcome) : Outcome :=
  match o with
  | Ret b h r => Ret b h (f r)
  | Raise e h r => Raise e h (f r)
  | Panic => Panic
  | Spin => Spin
  end.

Definition scanWithReader (f : Reader → Reader) (res : scanResult) : scanResult :=
  match res with
  | Next st r => Next st (f r)
  | Found st r => Found st (f r)
  | Failed e r => Failed e (f r)
  | Crashed => Crashed
  end.

(** The bytes of the buffer the loop has not written yet are the zeros
    they were made with. *)
Definition zerosFrom (st : scanState) : Prop :=
  ∀ i, idx st ≤ i → i < length (buf st) → buf st !! i = Some zero.

(** A field that is a constant wherever it stands after a field that is
    no directive: not empty, not starting with an underscore, without a
    slash and without a comma. *)
Definition plainField (f : string) : bool :=
  match f with
  | EmptyString => false
  | String c _ =>
      negb (Ascii.eqb c "_"%char) && negb (Contains f "/"%char)
      && negb (Contains f comma)
  end.

(** The fields with commas between them. *)
Fixpoint joinComma (f : string) (fs : list string) : string :=
  match fs with
  | [] => f
  | g :: fs' => f +:+ String comma (joinComma g fs')
  end.

(** The constant instructions of the fields, the first at [pos], each at
    the offset of its field. *)
Fixpoint constsAt (pos : Z) (fields : list string) : list instruction :=
  match fields with
  | [] => []
  | f :: fs => InstConst pos (bytesOf f) :: constsAt (pos + Z.of_nat (len f) + 1) fs
  end.

(** [cmpByteSliceSlice] of the tests; its loop from index [i] on. [None]
    is the panic of [b[i]] out of range. *)
Fixpoint cmpFrom (a b : list (list ascii)) (i : nat) : option bool :=
  match a with
  | [] => Some true
  | ae :: a' =>
      match b !! i with
      | None => None
      | Some be => if bytesEqual ae be then cmpFrom a' b (S i) else Some false
      end
  end.

Definition cmpByteSliceSlice (a b : list (list ascii)) : option bool :=
  if bool_decide (length a ≠ length b) then Some false else cmpFrom a b 0.

(** * Properties *)

(** ** The tests of the repository

    The tables of the test file, run on the embedding. *)

Example TestGenInstConst :
  returned (genInstConst 0 (bytesOf "foo") [] (NewReader (bytesOf "foo")))
    = Some (inl None)
  ∧ returned (genInstConst 1 (bytesOf "bar") [] (NewReader (bytesOf "foo")))
    = Some (inr (mkError ErrConstNotMuch 1 None))
  ∧ returned (genInstConst 2 (bytesOf "buzz") [] (NewReader (bytesOf "foo")))
    = Some (inr (mkError ErrConstNotMuch 2 (Some EOF))).
Proof. repeat split; vm_compute; reflexivity. Qed.

Example TestGenInstVarWithSize :
  returned (genInstVarWithSize 0 (mkPtr 0 0) true [[3%Z]] (NewReader (bytesOf "foo")))
    = Some (inl (Some "foo"))
  ∧ returned (genInstVarWithSize 1 (mkPtr 0 0) false [[3%Z]] (NewReader (bytesOf "foo")))
    = Some (inl None)
  ∧ returned (genInstVarWithSize 2 (mkPtr 0 0) true [[4%Z]] (NewReader (bytesOf "foo")))
    = Some (inr (mkError ErrVarNotMuch 2 (Some EOF))).
Proof. repeat split; vm_compute; reflexivity. Qed.

Example TestGenInstVarWithoutSize :
  returned (genInstVarWithoutSize 0 (bytesOf "bar") true 1024 []
              (NewReader (bytesOf "foobar")))
    = Some (inl (Some "foo"))
  ∧ returned (genInstVarWithoutSize 1 (bytesOf "bar") false 1024 []
                (NewReader (bytesOf "foobar")))
    = Some (inl None)
  ∧ returned (genInstVarWithoutSize 2 (bytesOf "buzz") true 1024 []
                (NewReader (bytesOf "foobar")))
    = Some (inr (mkError ErrVarNotMuch 2 (Some EOF)))
  ∧ returned (genInstVarWithoutSize 3 (bytesOf "buzz") true 1024 []
                (NewReader (bytesOf "foobarfoobarfoobarbuzz")))
    = Some (inl (Some "foobarfoobarfoobar"))
  ∧ returned (genInstVarWithoutSize 4 (bytesOf "buzz") true 16 []
                (NewReader (bytesOf "foobarfoobarfoobarbuzz")))
    = Some (inr (mkError (ErrVarExceedMaxSize 16) 4 None)).
Proof. repeat split; vm_compute; reflexivity. Qed.

Example TestGenInstIntWithSize :
  genInstIntWithSize 0 (mkPtr 0 0) (mkPtr 0 1) [[3; 0]%Z] (NewReader (bytesOf "123"))
    = Ret (Some (bytesOf "123")) [[3; 123]%Z] (mkReader [] 1)
  ∧ returned (genInstIntWithSize 1 (mkPtr 0 0) (mkPtr 0 1) [[3; 0]%Z]
                (NewReader (bytesOf "foo")))
    = Some (inr (mkError ErrIntVarNotMuch 1 (Some (NumError "foo" ErrSyntax))))
  ∧ returned (genInstIntWithSize 2 (mkPtr 0 0) (mkPtr 0 1) [[4; 0]%Z]
                (NewReader (bytesOf "foo")))
    = Some (inr (mkError ErrIntVarNotMuch 2 (Some EOF))).
Proof. repeat split; vm_compute; reflexivity. Qed.

Example TestGenInstIntWithoutSize :
  genInstIntWithoutSize 0 (bytesOf "bar") (mkPtr 0 0) 1024 [[0%Z]]
    (NewReader (bytesOf "789bar"))
    = Ret (Some (bytesOf "789")) [[789%Z]] (mkReader [] 6)
  ∧ returned (genInstIntWithoutSize 1 (bytesOf "bar") (mkPtr 0 0) 1024 [[0%Z]]
                (NewReader (bytesOf "foobar")))
    = Some (inr (mkError ErrIntVarNotMuch 1 (Some (NumError "foo" ErrSyntax))))
  ∧ returned (genInstIntWithoutSize 2 (bytesOf "buzz") (mkPtr 0 0) 1024 [[0%Z]]
                (NewReader (bytesOf "foobar")))
    = Some (inr (mkError ErrIntVarNotMuch 2 (Some EOF)))
  ∧ returned (genInstIntWithoutSize 3 (bytesOf "foobarbuzz") (mkPtr 0 0) 1024 [[0%Z]]
                (NewReader (bytesOf "1234567890foobarbuzz")))
    = Some (inl (Some "1234567890"))
  ∧ returned (genInstIntWithoutSize 4 (bytesOf "foobarbuzz") (mkPtr 0 0) 16 [[0%Z]]
                (NewReader (bytesOf "1234567890foobarbuzz")))
    = Some (inr (mkError (ErrVarExceedMaxSize 16) 4 None)).
Proof. repeat split; vm_compute; reflexivity. Qed.

Example TestCompileAndMatch_matches :
  verdict (compileAndMatch (cat ["N/int,"; CRLF]) [] (cat ["123"; CRLF]))
    = inl (inl ["123"])
  ∧ verdict (compileAndMatch (cat ["_,"; CRLF]) [] (cat ["deadbeaf"; CRLF]))
    = inl (inl [])
  ∧ verdict (compileAndMatch "_:4" [] "dead") = inl (inl [])
  ∧ verdict (compileAndMatch (cat ["N/int,"; CRLF; ",_:N"]) [] (cat ["4"; CRLF; "beaf"]))
    = inl (inl ["4"])
  ∧ verdict (compileAndMatch (cat ["Number/int,"; CRLF; ",_:Number"]) []
               (cat ["4"; CRLF; "bea"]))
    = inl (inr (mkError ErrVarNotMuch 15 (Some EOF)))
  ∧ verdict (compileAndMatch (cat ["V/bin,"; CRLF; ",N/int:2,v2/bin:N,"; CRLF])
               [WithMaxVariableSize 32]
               (cat ["foobarbuzz"; CRLF; "16abcdef0123456789"; CRLF]))
    = inl (inl ["foobarbuzz"; "16"; "abcdef0123456789"])
  ∧ verdict (compileAndMatch
               (cat ["V/bin:3,N/int:1,"; String TAB ""; ",N2/int:N,var/bin:N2"]) []
               (cat ["abc1"; String TAB ""; "8deadbeaf"]))
    = inl (inl ["abc"; "1"; "8"; "deadbeaf"]).
Proof. repeat split; vm_compute; reflexivity. Qed.

Example TestCompileAndMatch_errors :
  Compile growslice (cat ["N/int,"; CRLF; ",_:N:0"]) []
    = CompileError (mkError ErrParseColonExpected 10 None)
  ∧ Compile growslice (cat ["N/int,"; CRLF; ",_:M"]) []
    = CompileError (mkError (ErrParseVariableNotDefined "M") 10 None)
  ∧ Compile growslice "N/int" []
    = CompileError (mkError ErrParseSuffixExpected 1 None)
  ∧ Compile growslice "N/int/bin" []
    = CompileError (mkError ErrParseInvalidSlash 1 None)
  ∧ Compile growslice "hoge,N/bi" []
    = CompileError (mkError ErrParseInvalidType 6 None)
  ∧ Compile growslice "foo,N/inte" []
    = CompileError (mkError ErrParseInvalidType 5 None)
  ∧ Compile growslice "foo,N/binary" []
    = CompileError (mkError ErrParseInvalidType 5 None)
  ∧ Compile growslice "foo,N/foo" []
    = CompileError (mkError ErrParseInvalidType 5 None)
  ∧ Compile growslice (cat ["N/int,"; CRLF; ",foo/int:M"]) []
    = CompileError (mkError (ErrParseVariableNotDefined "M") 10 None)
  ∧ Compile growslice (cat ["N/int,"; CRLF; ",foo/bin:Num"]) []
    = CompileError (mkError (ErrParseVariableNotDefined "Num") 10 None).
Proof. repeat split; vm_compute; reflexivity. Qed.

(** ** The reader *)

Lemma Read_length r k data err r' :
  Read r k = (data, err, r') → length data ≤ k.
Proof.
  unfold Read. destruct (chunks r) as [|c rest]; [|case_bool_decide];
    intros [= <- <- <-]; simpl; rewrite ?length_take; lia.
Qed.

Lemma Read_calls r k data err r' :
  Read r k = (data, err, r') → calls r' = S (calls r).
Proof.
  unfold Read. destruct (chunks r) as [|c rest]; [|case_bool_decide];
    by intros [= <- <- <-].
Qed.

(** A read that succeeds splits what was left into what it delivers and
    what it leaves. *)
Lemma Read_remaining r k data r' :
  Read r k = (data, None, r') → remaining r = data ++ remaining r'.
Proof.
  unfold Read, remaining. destruct (chunks r) as [|c rest]; [done|].
  case_bool_decide; intros [= <- <-]; simpl; [done|].
  by rewrite (assoc (++)), take_drop.
Qed.

(** It fails exactly at the end of the input, with [io.EOF]. *)
Lemma Read_error r k data e r' :
  Read r k = (data, Some e, r') → e = EOF ∧ chunks r = [] ∧ chunks r' = [].
Proof.
  unfold Read. destruct (chunks r) as [|c rest]; [|case_bool_decide];
    by intros [= <- <- <-].
Qed.

(** ** The filling loop *)

Lemma writeAt_length buf i data :
  i + length data ≤ length buf → length (writeAt buf i data) = length buf.
Proof.
  intros. unfold writeAt. rewrite !length_app, length_take, length_drop. lia.
Qed.

Lemma writeAt_nil buf i : writeAt buf i [] = buf.
Proof. unfold writeAt. simpl. by rewrite Nat.add_0_r, take_drop. Qed.

Lemma writeAt_writeAt buf i a b :
  i ≤ length buf →
  writeAt (writeAt buf i a) (i + length a) b = writeAt buf i (a ++ b).
Proof.
  intros Hi. unfold writeAt.
  assert (Hl : length (take i buf ++ a) = i + length a)
    by (rewrite length_app, length_take; lia).
  rewrite (assoc (++) (take i buf) a), take_app_length' by done.
  rewrite drop_app_ge by lia. rewrite Hl, drop_drop, length_app.
  rewrite <- !(assoc (++)). do 4 f_equal. lia.
Qed.

Lemma fill_done fuel l buf i r :
  l ≤ i → fill (S fuel) l buf i r = Some (inl buf, r).
Proof. intros. simpl. by rewrite bool_decide_eq_false_2 by lia. Qed.

Lemma fill_chunks cs : ∀ fuel l buf i n,
  length cs < fuel → i ≤ length buf →
  ∃ r', fill fuel l buf i (mkReader cs n) = Some (filled l buf i (concat cs), r')
        ∧ remaining r' = unread l i (concat cs).
Proof.
  induction cs as [|c rest IH]; intros [|fuel] l buf i n Hfuel Hi;
    simpl in Hfuel; try lia.
  - unfold filled, unread. simpl. case_bool_decide.
    + rewrite bool_decide_eq_false_2 by lia. eauto.
    + rewrite bool_decide_eq_true_2 by lia.
      replace (l - i) with 0 by lia. rewrite writeAt_nil. eauto.
  - destruct (decide (i < l)) as [Hlt|Hge].
    2:{ rewrite fill_done by lia. unfold filled, unread.
        replace (l - i) with 0 by lia. rewrite !bool_decide_eq_true_2 by lia.
        rewrite writeAt_nil. eauto. }
    cbn [fill]. rewrite bool_decide_eq_true_2 by done.
    unfold Read. cbn [chunks calls]. case_bool_decide as Hc.
    + destruct (IH fuel l (writeAt buf i c) (i + length c) (S n)) as (r' & -> & Hr').
      { lia. }
      { unfold writeAt. rewrite !length_app, length_take. lia. }
      exists r'. split.
      * f_equal. f_equal. unfold filled. cbn [concat]. rewrite length_app.
        case_bool_decide; case_bool_decide; try lia; [|done].
        rewrite writeAt_writeAt by done. do 2 f_equal.
        rewrite take_app_ge by lia. do 2 f_equal. lia.
      * rewrite Hr'. unfold unread. cbn [concat]. rewrite length_app.
        case_bool_decide; case_bool_decide; try lia; [|done].
        rewrite drop_app_ge by lia. f_equal. lia.
    + destruct fuel as [|fuel]; [lia|]. rewrite fill_done.
      2:{ rewrite length_take. lia. }
      eexists. split.
      * f_equal. f_equal. unfold filled. cbn [concat]. rewrite length_app.
        rewrite bool_decide_eq_true_2 by lia. by rewrite take_app_le by lia.
      * unfold remaining, unread. cbn [chunks concat]. rewrite length_app.
        rewrite bool_decide_eq_true_2 by lia. by rewrite drop_app_le by lia.
Qed.

(** The loop ends within its budget, whatever the reader. *)
Lemma fill_budget l buf i r :
  i ≤ length buf →
  ∃ r', fill (budget r) l buf i r = Some (filled l buf i (remaining r), r')
        ∧ remaining r' = unread l i (remaining r).
Proof.
  intros Hi. destruct r as [cs n]. apply fill_chunks; [|done].
  unfold budget. simpl. lia.
Qed.

(** ** The scanning loop ends *)

Lemma Read_weight r k data r' :
  0 < k → Read r k = (data, None, r') → weight r' < weight r.
Proof.
  unfold Read, weight, remaining. intros Hk.
  destruct (chunks r) as [|c rest]; [done|].
  case_bool_decide; intros [= <- <-]; simpl; rewrite !length_app; [lia|].
  rewrite length_drop. lia.
Qed.

Lemma scanGrow_reader pos max st r st' r' :
  scanGrow pos max st r = Next st' r' → r' = r.
Proof.
  unfold scanGrow. repeat case_bool_decide; congruence.
Qed.

Lemma scanStep_weight code pos suffix max st r st' r' :
  scanStep code pos suffix max st r = Next st' r' → weight r' < weight r.
Proof.
  unfold scanStep. case_bool_decide; [|done].
  destruct (Read r 1) as [[data [e|]] r1] eqn:HR; [done|].
  apply Read_weight in HR; [|lia].
  repeat case_match; try done; intros ->%scanGrow_reader; done.
Qed.

Lemma scanLoop_ends fuel : ∀ code pos suffix max st r,
  weight r < fuel →
  ∃ res, scanLoop fuel code pos suffix max st r = Some res
         ∧ ∀ st' r', res ≠ Next st' r'.
Proof.
  induction fuel as [|fuel IH]; intros code pos suffix max st r Hw; [lia|].
  simpl. destruct (scanStep code pos suffix max st r) as [st' r'| | |] eqn:Hs;
    [|eauto..].
  apply IH. apply scanStep_weight in Hs. lia.
Qed.

(** No call of an instruction is left spinning: on every input each one
    returns a buffer, returns an error, or panics. *)
Lemma call_returns inst h r : call inst h r ≠ Spin.
Proof.
  destruct inst as [pos mtch|pos size capture|pos sfx capture max|pos size outSize|pos sfx outSize max]; simpl;
    unfold genInstConst, genInstVarWithSize, genInstIntWithSize,
      genInstVarWithoutSize, genInstIntWithoutSize.
  - destruct (fill_budget (length mtch) (replicate (length mtch) zero) 0 r)
      as (r' & -> & _); [lia|].
    by repeat case_match.
  - case_bool_decide; [done|].
    destruct (fill_budget (Z.to_nat (load h size))
                (replicate (Z.to_nat (load h size)) zero) 0 r)
      as (r' & -> & _); [lia|].
    by repeat case_match.
  - destruct (scanLoop_ends (budget r) ErrVarNotMuch pos sfx max scanInit r)
      as (res & -> & Hres); [unfold budget, weight; lia|].
    destruct res; naive_solver.
  - case_bool_decide; [done|].
    destruct (fill_budget (Z.to_nat (load h size))
                (replicate (Z.to_nat (load h size)) zero) 0 r)
      as (r' & -> & _); [lia|].
    by repeat case_match.
  - destruct (scanLoop_ends (budget r) ErrIntVarNotMuch pos sfx max scanInit r)
      as (res & -> & Hres); [unfold budget, weight; lia|].
    destruct res; try naive_solver. by repeat case_match.
Qed.

(** ** Sized instructions *)

Lemma NewReader_remaining input : remaining (NewReader input) = input.
Proof.
  unfold remaining, NewReader. destruct input; simpl; [done|].
  by rewrite app_nil_r.
Qed.

(** A sized instruction sees the input that is left and nothing of how
    the reader cuts it up. *)
Lemma call_fixed_remaining inst h r1 r2 :
  fixedSize inst = true → remaining r1 = remaining r2 →
  sameOutcome (call inst h r1) (call inst h r2).
Proof.
  assert (Hfill : ∀ l, ∃ r1' r2',
    fill (budget r1) l (replicate l zero) 0 r1
      = Some (filled l (replicate l zero) 0 (remaining r1), r1') ∧
    (remaining r1 = remaining r2 →
     fill (budget r2) l (replicate l zero) 0 r2
       = Some (filled l (replicate l zero) 0 (remaining r1), r2') ∧
     remaining r1' = remaining r2')).
  { intros l.
    destruct (fill_budget l (replicate l zero) 0 r1) as (r1' & E1 & R1); [lia|].
    destruct (fill_budget l (replicate l zero) 0 r2) as (r2' & E2 & R2); [lia|].
    exists r1', r2'. split; [done|]. intros Heq. rewrite Heq. split; [done|].
    by rewrite R1, R2, Heq. }
  destruct inst as [pos mtch|pos size capture|pos sfx capture max|pos size outSize|pos sfx outSize max]; try done; intros _ Hrem; simpl;
    unfold genInstConst, genInstVarWithSize, genInstIntWithSize.
  - destruct (Hfill (length mtch)) as (r1' & r2' & -> & H2).
    destruct (H2 Hrem) as [-> Hr].
    destruct (filled _ _ _ _); [case_match|]; simpl; done.
  - case_bool_decide; [done|].
    destruct (Hfill (Z.to_nat (load h size))) as (r1' & r2' & -> & H2).
    destruct (H2 Hrem) as [-> Hr].
    destruct (filled _ _ _ _); simpl; done.
  - case_bool_decide; [done|].
    destruct (Hfill (Z.to_nat (load h size))) as (r1' & r2' & -> & H2).
    destruct (H2 Hrem) as [-> Hr].
    destruct (filled _ _ _ _); [case_match|]; simpl; done.
Qed.

(** C7. Short-read tolerance: a sized instruction (Const, VarSized,
    IntSized) run against a reader that delivers the input in any chunks
    whatever (one byte at a time, with empty reads in between, ...) and
    signals the end of the input as an error once the bytes are used up,
    comes to the same buffer or the same error, with the same cells and
    the same input left, as run against the reader of the tests, which
    delivers all that is asked for in one read. *)
Theorem short_read_tolerance inst h input cs n :
  fixedSize inst = true →
  concat cs = input →
  sameOutcome (call inst h (mkReader cs n)) (call inst h (NewReader input)).
Proof.
  intros Hfixed Hcs. apply call_fixed_remaining; [done|].
  by rewrite NewReader_remaining.
Qed.

Lemma short_read_tolerance_witness :
  sameOutcome
    (call (InstConst 1 (bytesOf "foo")) []
       (mkReader [bytesOf "f"; []; bytesOf "o"; bytesOf "ob"] 0))
    (call (InstConst 1 (bytesOf "foo")) [] (NewReader (bytesOf "foob"))).
Proof.
  apply (short_read_tolerance (InstConst 1 (bytesOf "foo")) []
           (bytesOf "foob") [bytesOf "f"; []; bytesOf "o"; bytesOf "ob"] 0);
    reflexivity.
Defined.

(** C8. A VarSized instruction whose size cell holds 0 succeeds on any
    reader without a single [Read]: the reader is left as it was, call
    count included. It returns the empty (not nil) buffer when it
    captures and nil when it does not. *)
Theorem var_with_size_zero pos size capture h r :
  load h size = 0%Z →
  genInstVarWithSize pos size capture h r
    = Ret (if capture then Some [] else None) h r.
Proof.
  intros Hz. unfold genInstVarWithSize. rewrite Hz. by destruct capture.
Qed.

Lemma var_with_size_zero_witness :
  genInstVarWithSize 3 (mkPtr 0 1) true [[7; 0]%Z] (NewReader (bytesOf "dead"))
    = Ret (Some []) [[7; 0]%Z] (NewReader (bytesOf "dead")).
Proof.
  apply (var_with_size_zero 3 (mkPtr 0 1) true [[7; 0]%Z] (NewReader (bytesOf "dead"))).
  reflexivity.
Defined.

(** With a negative size cell both sized instructions panic in [make],
    before any read. *)
Lemma sized_negative_panics pos size outSize capture h r :
  (load h size < 0)%Z →
  genInstVarWithSize pos size capture h r = Panic
  ∧ genInstIntWithSize pos size outSize h r = Panic.
Proof.
  intros Hneg. unfold genInstVarWithSize, genInstIntWithSize.
  by rewrite bool_decide_eq_true_2 by (by left).
Qed.

(** With a size cell beyond [maxAlloc] they panic in [make] as well: the
    size 2^63 - 1, written in the pattern or read from the input. *)
Example sized_beyond_maxAlloc_panics :
  genInstVarWithSize 1 (mkPtr 0 0) true [[(2 ^ 63 - 1)%Z]] (NewReader (bytesOf "dead"))
    = Panic
  ∧ genInstIntWithSize 1 (mkPtr 0 0) (mkPtr 0 1) [[(2 ^ 63 - 1)%Z; 0%Z]]
      (NewReader (bytesOf "dead"))
    = Panic
  ∧ compileAndMatch "_:9223372036854775807" [] "dead" = inr MatchPanic
  ∧ compileAndMatch (cat ["N/int,"; CRLF; ",V/bin:N"]) []
      (cat ["9223372036854775807"; CRLF; "dead"])
    = inr MatchPanic.
Proof. repeat split; vm_compute; reflexivity. Qed.

(** ** The bound on the scanning buffer *)

Lemma wrapInt_small z : (- 2 ^ 63 ≤ z < 2 ^ 63)%Z → wrapInt z = z.
Proof. intros. unfold wrapInt. rewrite Z.mod_small; lia. Qed.

Lemma scanGrow_turn code pos sfx max st0 st r :
  (16 ≤ max < 2 ^ 62)%Z →
  (Z.of_nat (idx st) ≤ bs st ≤ max)%Z →
  Z.of_nat (length (buf st)) = bs st →
  midx st = 0 ∨ midx st + length sfx ≤ S (idx st) →
  idx st = S (idx st0) → bs st = bs st0 →
  scanTurn code pos sfx max st0 (scanGrow pos max st r).
Proof.
  intros Hmax Hidx Hlen Hm Ei Eb. unfold scanGrow.
  case_bool_decide as Hfull.
  - rewrite wrapInt_small by lia. repeat case_bool_decide; simpl.
    + right. repeat split; lia.
    + lia.
    + unfold scanInv. simpl. rewrite length_take, length_app, length_replicate.
      repeat split; lia.
  - simpl. unfold scanInv. repeat split; lia.
Qed.

Lemma scanStep_turn code pos sfx max st r :
  (16 ≤ max < 2 ^ 62)%Z →
  scanInv sfx max st →
  scanTurn code pos sfx max st (scanStep code pos sfx max st r).
Proof.
  intros Hmax (Hidx & Hbs & Hlen & Hm). unfold scanStep.
  rewrite bool_decide_eq_true_2 by lia.
  destruct (Read r 1) as [[data [e|]] r1] eqn:HR; [simpl; eauto|].
  apply Read_length in HR.
  assert (Hw : length (writeAt (buf st) (idx st) data) = length (buf st))
    by (apply writeAt_length; lia).
  case_bool_decide as HL.
  - rewrite bool_decide_eq_true_2 by lia.
    case_match.
    + simpl. lia.
    + apply scanGrow_turn; simpl; try done; lia.
  - apply scanGrow_turn; simpl; try done; lia.
Qed.

Lemma scanInit_inv sfx max : (16 ≤ max)%Z → scanInv sfx max scanInit.
Proof. intros. unfold scanInv, scanInit. simpl. repeat split; auto with lia. Qed.

Lemma scanReach_inv code pos sfx max r0 st r :
  (16 ≤ max < 2 ^ 62)%Z →
  scanReach code pos sfx max r0 st r → scanInv sfx max st.
Proof.
  intros Hmax. induction 1 as [|st r st' r' _ IH Hstep].
  - apply scanInit_inv. lia.
  - pose proof (scanStep_turn code pos sfx max st r Hmax IH) as Ht.
    by rewrite Hstep in Ht.
Qed.

(** The loop only goes through states of [scanReach], and ends in the
    result of a turn taken from one of them. *)
Lemma scanLoop_reach code pos sfx max r0 fuel : ∀ st r res,
  scanReach code pos sfx max r0 st r →
  scanLoop fuel code pos sfx max st r = Some res →
  ∃ st1 r1, scanReach code pos sfx max r0 st1 r1
            ∧ scanStep code pos sfx max st1 r1 = res.
Proof.
  induction fuel as [|fuel IH]; intros st r res Hreach; [done|].
  simpl. destruct (scanStep code pos sfx max st r) as [st' r'| | |] eqn:Hs.
  - apply IH. by eapply reach_next.
  - intros [= <-]. eauto.
  - intros [= <-]. eauto.
  - intros [= <-]. eauto.
Qed.

Lemma scanIter_reach code pos sfx max r0 n : ∀ st r st' r',
  scanReach code pos sfx max r0 st r →
  scanIter n code pos sfx max st r = Some (st', r') →
  scanReach code pos sfx max r0 st' r'.
Proof.
  induction n as [|n IH]; intros st r st' r' Hreach; simpl.
  - by intros [= <- <-].
  - destruct (scanStep code pos sfx max st r) as [st1 r1| | |] eqn:Hs; try done.
    apply IH. by eapply reach_next.
Qed.

(** When a turn taken from a reachable state finds the suffix, the buffer
    it leaves is within the limit. *)
Lemma scan_buffer_bound_aux code pos sfx max r0 st r :
  (16 ≤ max < 2 ^ 62)%Z →
  scanReach code pos sfx max r0 st r →
  ∀ st' r', scanStep code pos sfx max st r = Found st' r' →
    (Z.of_nat (idx st') ≤ bs st' ≤ max)%Z ∧ Z.of_nat (length (buf st')) = bs st'.
Proof.
  intros Hmax Hreach st' r' E.
  pose proof (scanReach_inv _ _ _ _ _ _ _ Hmax Hreach) as Hinv.
  pose proof (scanStep_turn code pos sfx max st r Hmax Hinv) as Hturn.
  rewrite E in Hturn. simpl in Hturn. lia.
Qed.

(** The bound on the buffer, for limits from the initial 16 bytes up (and
    below 2^62, so that doubling does not wrap). Through every turn of a
    scanning instruction (VarSuffix with [code = ErrVarNotMuch], IntSuffix
    with [code = ErrIntVarNotMuch]), on every reader: the buffer is [bs]
    bytes with [bs] no more than the limit, and holds fewer bytes than
    that at the head of the loop; the turn does not panic; when it finds
    the suffix the bytes held are still no more than the limit; an error
    without a cause is VarExceedsMaxSize(max) at the position of the
    instruction; and if the read of this turn fills the buffer, doubling
    would pass the limit and the suffix is not there, that error is what
    the turn returns. *)
Theorem scan_buffer_bound code pos sfx max r0 st r :
  (16 ≤ max < 2 ^ 62)%Z →
  scanReach code pos sfx max r0 st r →
  ((Z.of_nat (idx st) < bs st ≤ max)%Z ∧ Z.of_nat (length (buf st)) = bs st)
  ∧ scanStep code pos sfx max st r ≠ Crashed
  ∧ (∀ st' r', scanStep code pos sfx max st r = Found st' r' →
       (Z.of_nat (idx st') ≤ bs st' ≤ max)%Z
       ∧ Z.of_nat (length (buf st')) = bs st')
  ∧ (∀ e r', scanStep code pos sfx max st r = Failed e r' → Cause e = None →
       e = mkError (ErrVarExceedMaxSize max) pos None)
  ∧ (Z.of_nat (S (idx st)) = bs st → (max < 2 * bs st)%Z →
     ∀ data r', Read r 1 = (data, None, r') →
       (∀ st', scanStep code pos sfx max st r ≠ Found st' r') →
       scanStep code pos sfx max st r
         = Failed (mkError (ErrVarExceedMaxSize max) pos None) r').
Proof.
  intros Hmax Hreach.
  pose proof (scanReach_inv _ _ _ _ _ _ _ Hmax Hreach) as Hinv.
  pose proof (scanStep_turn code pos sfx max st r Hmax Hinv) as Hturn.
  destruct Hinv as (Hidx & Hbs & Hlen & Hm).
  split; [repeat split; lia|]. split; [|split; [|split]].
  - intros E. by rewrite E in Hturn.
  - intros st' r' E. rewrite E in Hturn. simpl in Hturn. lia.
  - intros e r' E Hc. rewrite E in Hturn. simpl in Hturn.
    destruct Hturn as [[c ->]|[-> _]]; done.
  - intros Hfull Hover data r' HR Hnf. revert Hturn Hnf. unfold scanStep.
    rewrite bool_decide_eq_true_2 by lia. rewrite HR.
    assert (Hg : ∀ m b, scanGrow pos max (mkScan (S (idx st)) m (bs st) b) r'
                        = Failed (mkError (ErrVarExceedMaxSize max) pos None) r').
    { intros m b. unfold scanGrow. simpl.
      rewrite bool_decide_eq_true_2 by lia.
      rewrite wrapInt_small by lia. by rewrite bool_decide_eq_true_2 by lia. }
    repeat case_match; try done; intros _ Hnf; by edestruct Hnf.
Qed.

Lemma scan_buffer_bound_witness :
  ∃ st r,
    scanIter 15 ErrVarNotMuch 4 (bytesOf "buzz") 16 scanInit
      (NewReader (bytesOf "foobarfoobarfoobarbuzz")) = Some (st, r)
    ∧ ((Z.of_nat (idx st) < bs st ≤ 16)%Z ∧ Z.of_nat (length (buf st)) = bs st)
    ∧ scanStep ErrVarNotMuch 4 (bytesOf "buzz") 16 st r
      = Failed (mkError (ErrVarExceedMaxSize 16) 4 None)
          (mkReader [bytesOf "arbuzz"] 16).
Proof.
  eexists _, _. split; [vm_compute; reflexivity|].
  destruct (scan_buffer_bound ErrVarNotMuch 4 (bytesOf "buzz") 16
              (NewReader (bytesOf "foobarfoobarfoobarbuzz"))
              (mkScan 15 12 16 (bytesOf "foobarfoobarfoo" ++ [zero]))
              (mkReader [bytesOf "barbuzz"] 15))
    as (Hbound & _ & _ & _ & Hfail).
  - lia.
  - eapply (scanIter_reach _ _ _ _ _ 15); [apply reach_init|].
    vm_compute; reflexivity.
  - split; [exact Hbound|].
    eapply Hfail; [reflexivity|simpl; lia|vm_compute; reflexivity|].
    intros st'. vm_compute. discriminate.
Defined.

(** What a scanning instruction returns is cut from a buffer within the
    limit: a capture is never longer than [max]. *)
Lemma scan_capture_bound inst pos sfx max h r b h' r' :
  (16 ≤ max < 2 ^ 62)%Z →
  (∃ capture, inst = InstVarWithoutSize pos sfx capture max)
  ∨ (∃ outSize, inst = InstIntWithoutSize pos sfx outSize max) →
  call inst h r = Ret (Some b) h' r' →
  (Z.of_nat (length b) ≤ max)%Z.
Proof.
  intros Hmax Hinst.
  assert (Hfound : ∀ code st r1,
    scanLoop (budget r) code pos sfx max scanInit r = Some (Found st r1) →
    (Z.of_nat (length (take (midx st) (buf st))) ≤ max)%Z).
  { intros code st r1 Hloop.
    destruct (scanLoop_reach code pos sfx max r (budget r) scanInit r _
                (reach_init _ _ _ _ _) Hloop) as (st1 & r2 & Hreach & Hstep).
    destruct (scan_buffer_bound_aux code pos sfx max r st1 r2 Hmax Hreach st r1 Hstep)
      as [Hle Hlen].
    rewrite length_take. lia. }
  destruct Hinst as [[capture ->]|[outSize ->]]; simpl;
    unfold genInstVarWithoutSize, genInstIntWithoutSize.
  - destruct (scanLoop _ _ _ _ _ _ _) as [[| st r1 | |]|] eqn:Hloop; try done.
    destruct capture; [|done]. intros [= <- _ _]. by eapply Hfound.
  - destruct (scanLoop _ _ _ _ _ _ _) as [[| st r1 | |]|] eqn:Hloop; try done.
    case_match; [|done]. intros [= <- _ _]. by eapply Hfound.
Qed.

(** C4, as the code has it. The buffer of a scanning instruction starts
    at 16 bytes whatever the limit, and the limit is looked at only when
    the buffer is doubled: with a limit below 16 the scan holds more bytes
    than the limit and returns a capture longer than the limit, where the
    claim has it fail with VarExceedsMaxSize. With [max = 4] the loop
    holds 9 bytes before its tenth turn and VarSuffix returns a capture of
    8 bytes; IntSuffix returns 8 digits and stores their number; and the
    matcher compiled from [V/bin,CRLF] with [WithMaxVariableSize(4)]
    matches [abcdefgh CRLF] and captures the 8 bytes. *)
Theorem scan_limit_below_initial_capacity :
  let r0 := NewReader (bytesOf (cat ["abcdefgh"; CRLF])) in
  (∃ st r, scanReach ErrVarNotMuch 1 (bytesOf CRLF) 4 r0 st r
           ∧ (4 < Z.of_nat (idx st))%Z)
  ∧ genInstVarWithoutSize 1 (bytesOf CRLF) true 4 [] r0
    = Ret (Some (bytesOf "abcdefgh")) [] (mkReader [] 10)
  ∧ genInstIntWithoutSize 1 (bytesOf CRLF) (mkPtr 0 0) 4 [[0%Z]]
      (NewReader (bytesOf (cat ["12345678"; CRLF])))
    = Ret (Some (bytesOf "12345678")) [[12345678%Z]] (mkReader [] 10)
  ∧ verdict (compileAndMatch (cat ["V/bin,"; CRLF]) [WithMaxVariableSize 4]
               (cat ["abcdefgh"; CRLF]))
    = inl (inl ["abcdefgh"]).
Proof.
  intros r0. split; [|repeat split; vm_compute; reflexivity].
  eexists _, _. split.
  - eapply (scanIter_reach _ _ _ _ _ 9); [apply reach_init|].
    vm_compute; reflexivity.
  - vm_compute; reflexivity.
Qed.

(** ** Reading the pattern *)

(** [splitRaw] is the sequence of [ReadString] calls of the loop. *)
Lemma splitRaw_ReadString buf :
  splitRaw buf =
    match ReadString buf comma with
    | (rawLine, true, _) => ([], rawLine)
    | (rawLine, false, rest) =>
        let '(raws, final) := splitRaw rest in (rawLine :: raws, final)
    end.
Proof.
  induction buf as [|c buf IH]; [done|].
  cbn [splitRaw ReadString]. destruct (Ascii.eqb c comma) eqn:Hc.
  - by destruct (splitRaw buf).
  - rewrite IH. destruct (ReadString buf comma) as [[l [|]] rest']; [done|].
    by destruct (splitRaw rest').
Qed.

(** The lines read make up the pattern. *)
Lemma rawFields_concat pattern : cat (rawFields pattern) = pattern.
Proof.
  unfold rawFields. induction pattern as [|c p IH]; [done|].
  cbn [splitRaw]. destruct (splitRaw p) as [raws final].
  destruct (Ascii.eqb_spec c comma) as [->|Hc].
  - simpl in *. rewrite <- IH. reflexivity.
  - destruct raws as [|l raws]; simpl in *; rewrite <- IH; reflexivity.
Qed.

Lemma lastByte_None raw : lastByte raw = None ↔ raw = EmptyString.
Proof.
  split; [|by intros ->]. induction raw as [|c [|c' raw'] IH]; try done.
  intros H. by specialize (IH H).
Qed.

Lemma trimLine_None raw : trimLine raw = None ↔ raw = EmptyString.
Proof.
  unfold trimLine. rewrite <- lastByte_None. by destruct (lastByte raw).
Qed.

Lemma dropLast_empty raw : dropLast raw = EmptyString → len raw ≤ 1.
Proof. destruct raw as [|c [|c' raw']]; simpl; [lia|lia|done]. Qed.

(** A raw line leaves an empty field when it is a lone comma. *)
Lemma trimLine_empty raw :
  trimLine raw = Some EmptyString ↔ raw = String comma EmptyString.
Proof.
  unfold trimLine. split.
  - destruct (lastByte raw) as [c|] eqn:Hl; [|done].
    destruct (Ascii.eqb_spec c comma) as [->|Hc]; intros [= E].
    + apply dropLast_empty in E. destruct raw as [|c [|c' raw']]; simpl in *;
        [done| |lia]. by injection Hl as ->.
    + by subst raw.
  - by intros ->.
Qed.

(** The lines of a pattern with a comma in it: those before the comma,
    the comma closing the last of them, then those after. *)
Lemma splitRaw_comma p q :
  splitRaw (p +:+ String comma q)
  = ((splitRaw p).1 ++ ((splitRaw p).2 +:+ String comma EmptyString) :: (splitRaw q).1,
     (splitRaw q).2).
Proof.
  induction p as [|c p IH].
  - simpl. by destruct (splitRaw q).
  - change (String c p +:+ String comma q) with (String c (p +:+ String comma q)).
    cbn [splitRaw]. rewrite IH. destruct (splitRaw p) as [[|l ls] f]; simpl;
      by destruct (Ascii.eqb c comma).
Qed.

Lemma rawFields_comma p q :
  rawFields (p +:+ String comma q)
  = (splitRaw p).1 ++ ((splitRaw p).2 +:+ String comma EmptyString) :: rawFields q.
Proof.
  unfold rawFields. rewrite splitRaw_comma. destruct (splitRaw q) as [ls f]. simpl.
  by rewrite <- (assoc (++)).
Qed.

(** ** Positions of compile errors *)

Lemma withCell_err st i k e :
  withCell st i k = StepErr e → ∃ p, k p = StepErr e.
Proof. unfold withCell. destruct (addr _ _); [eauto|done]. Qed.

Section CompilerFacts.

Variable growcap : nat → nat → nat.

Lemma compileSized_err_pos pos tok capture st e :
  compileSized growcap pos tok capture st = StepErr e → Pos e = pos.
Proof.
  unfold compileSized. repeat case_match;
    first [intros (p & Hp)%withCell_err | intros ?]; by simplify_eq.
Qed.

Lemma compileSizedInt_err_pos pos var tok st e :
  compileSizedInt growcap pos var tok st = StepErr e → Pos e = pos.
Proof.
  unfold compileSizedInt. repeat case_match;
    first [intros (p & (q & Hq)%withCell_err)%withCell_err | intros ?];
    by simplify_eq.
Qed.

(** An error raised on a field carries the position the loop has for
    that field. *)
Lemma compileLine_err_pos pos line st e :
  compileLine growcap pos line st = StepErr e → Pos e = pos.
Proof.
  unfold compileLine.
  repeat case_match; try done;
    try (by intros [= <-]);
    try (by apply compileSized_err_pos);
    try (by apply compileSizedInt_err_pos).
  by intros (p & Hp)%withCell_err.
Qed.

Lemma compileRaw_err_pos pos raw st e :
  compileRaw growcap pos raw st = StepErr e → Pos e = pos.
Proof.
  unfold compileRaw. destruct (trimLine raw); [|done]. apply compileLine_err_pos.
Qed.

(** Where the loop stops with an error: on one of its lines, having gone
    through the lines before it, at the position it has counted up to. *)
Lemma compileLoop_error raws : ∀ final st pos e,
  compileLoop growcap raws final st pos = CompileError e →
  ∃ pre raw post st1,
    raws ++ [final] = pre ++ raw :: post
    ∧ runFields growcap pre st pos = Some st1
    ∧ Pos e = (pos + totalLen pre)%Z
    ∧ (compileRaw growcap (Pos e) raw st1 = StepErr e
       ∨ (post = [] ∧ Code e = ErrParseSuffixExpected
          ∧ ∃ st', compileRaw growcap (Pos e) raw st1 = StepOk st'
                   ∧ state st' ≠ nonParseState)).
Proof.
  induction raws as [|raw0 raws IH]; intros final st pos e; cbn [compileLoop].
  - destruct (compileRaw growcap pos final st) as [st'|e'|] eqn:Hraw; [| |done].
    + case_bool_decide as Hst; [done|]. intros [= <-].
      exists [], final, [], st. simpl. rewrite Z.add_0_r.
      repeat split; [done..|]. right. eauto.
    + intros [= ->]. exists [], final, [], st.
      pose proof (compileRaw_err_pos _ _ _ _ Hraw) as Hpos.
      simpl. rewrite Hpos, Z.add_0_r. repeat split; eauto.
  - destruct (compileRaw growcap pos raw0 st) as [st'|e'|] eqn:Hraw; [| |done].
    + intros (pre & raw & post & st1 & Hsplit & Hrun & Hpos & Hfail)%IH.
      exists (raw0 :: pre), raw, post, st1. simpl. rewrite Hraw, Hsplit.
      repeat split; [done|lia|done].
    + intros [= ->]. exists [], raw0, (raws ++ [final]), st.
      pose proof (compileRaw_err_pos _ _ _ _ Hraw) as Hpos.
      simpl. rewrite Hpos, Z.add_0_r. repeat split; eauto.
Qed.

End CompilerFacts.

(** C5. Whatever the pattern, when [Compile] returns an error the
    position in it is 1 plus the lengths, commas included, of the raw
    fields before the offending one: the field on which the loop, having
    gone through all the fields before it, raises that very error, or the
    last field when a directive is left waiting for its suffix. For the
    first field the sum is empty and the position is 1. *)
Theorem error_position growcap pattern opts e :
  Compile growcap pattern opts = CompileError e →
  ∃ pre raw post st,
    rawFields pattern = pre ++ raw :: post
    ∧ Pos e = (1 + totalLen pre)%Z
    ∧ runFields growcap pre (startState opts) 1 = Some st
    ∧ (compileRaw growcap (Pos e) raw st = StepErr e
       ∨ (post = [] ∧ Code e = ErrParseSuffixExpected
          ∧ ∃ st', compileRaw growcap (Pos e) raw st = StepOk st'
                   ∧ state st' ≠ nonParseState)).
Proof.
  unfold Compile, rawFields. destruct (splitRaw pattern) as [raws final].
  intros (pre & raw & post & st1 & Hsplit & Hrun & Hpos & Hfail)%compileLoop_error.
  by exists pre, raw, post, st1.
Qed.

Lemma error_position_witness :
  let pattern := cat ["N/int,"; CRLF; ",_:N:0"] in
  let e := mkError ErrParseColonExpected 10 None in
  ∃ pre raw post st,
    rawFields pattern = pre ++ raw :: post
    ∧ Pos e = (1 + totalLen pre)%Z
    ∧ runFields growslice pre (startState []) 1 = Some st
    ∧ (compileRaw growslice (Pos e) raw st = StepErr e
       ∨ (post = [] ∧ Code e = ErrParseSuffixExpected
          ∧ ∃ st', compileRaw growslice (Pos e) raw st = StepOk st'
                   ∧ state st' ≠ nonParseState)).
Proof.
  intros pattern e. apply (error_position growslice pattern [] e).
  vm_compute. reflexivity.
Defined.

(** ** The cells of the compiler *)

Section CellFacts.

Variable growcap : nat → nat → nat.

Lemma appendInt_slen h sl v :
  slen (appendInt growcap h sl v).2 = S (slen sl).
Proof. unfold appendInt. by case_bool_decide. Qed.

Lemma pushCell_slen v st :
  slen (intBinds (matcher (pushCell growcap v st))) = S (slen (intBinds (matcher st))).
Proof.
  unfold pushCell.
  pose proof (appendInt_slen (heap st) (intBinds (matcher st)) v) as Hs.
  by destruct (appendInt _ _ _ _).
Qed.

Lemma pushCell_map v st : intBindsMap (pushCell growcap v st) = intBindsMap st.
Proof. unfold pushCell. by destruct (appendInt _ _ _ _). Qed.

Lemma pushCell_insts v st :
  instSlice (matcher (pushCell growcap v st)) = instSlice (matcher st).
Proof. unfold pushCell. by destruct (appendInt _ _ _ _). Qed.

Lemma pushCell_max v st :
  maxVarSize (matcher (pushCell growcap v st)) = maxVarSize (matcher st).
Proof. unfold pushCell. by destruct (appendInt _ _ _ _). Qed.

Lemma pushCell_state v st : state (pushCell growcap v st) = state st.
Proof. unfold pushCell. by destruct (appendInt _ _ _ _). Qed.

Lemma pushCell_cellsOk v st : cellsOk st → cellsOk (pushCell growcap v st).
Proof.
  unfold cellsOk. rewrite pushCell_map, pushCell_slen. intros Hok.
  eapply map_Forall_impl; [exact Hok|]. intros; simpl in *; lia.
Qed.

Lemma bindLast_cellsOk var st :
  0 < slen (intBinds (matcher st)) → cellsOk st → cellsOk (bindLast var st).
Proof.
  unfold cellsOk, bindLast. simpl. intros Hpos Hok.
  apply map_Forall_insert_2; [lia|done].
Qed.

Lemma withCell_in_range st i k :
  i < slen (intBinds (matcher st)) →
  withCell st i k = k (mkPtr (sarr (intBinds (matcher st))) i).
Proof. intros Hi. unfold withCell, addr. by rewrite bool_decide_eq_true_2. Qed.

Lemma compileSized_safe pos tok capture st :
  cellsOk st →
  sizedSafe pos st (λ inst, ∃ p, inst = InstVarWithSize pos p capture)
    (compileSized growcap pos tok capture st).
Proof.
  intros Hok. unfold compileSized. destruct (ParseInt tok) as [n|_].
  - rewrite withCell_in_range by (unfold lastCell; rewrite pushCell_slen; lia).
    split; [by apply pushCell_cellsOk|]. unfold emit; simpl.
    rewrite pushCell_max, pushCell_insts, pushCell_state.
    split; [done|]. split; [done|]. eexists. split; [done|]. eauto.
  - destruct (intBindsMap st !! tok) as [i|] eqn:Hi; [|done].
    rewrite withCell_in_range by (by apply Hok in Hi).
    split; [done|]. unfold emit; simpl.
    split; [done|]. split; [done|]. eexists. split; [done|]. eauto.
Qed.

Lemma compileSizedInt_safe pos var tok st :
  cellsOk st →
  sizedSafe pos st (λ inst, ∃ p q, inst = InstIntWithSize pos p q)
    (compileSizedInt growcap pos var tok st).
Proof.
  intros Hok. unfold compileSizedInt. destruct (ParseInt tok) as [n|_].
  - rewrite !withCell_in_range
      by (unfold lastCell, bindLast; simpl; rewrite !pushCell_slen; lia).
    split.
    { apply (bindLast_cellsOk var (pushCell growcap 0 (pushCell growcap n st)));
        [rewrite pushCell_slen; lia|].
      by do 2 apply pushCell_cellsOk. }
    unfold emit, bindLast; simpl.
    rewrite !pushCell_max, !pushCell_insts, !pushCell_state.
    split; [done|]. split; [done|]. eexists. split; [done|]. eauto.
  - destruct (intBindsMap st !! tok) as [i|] eqn:Hi; [|done].
    apply Hok in Hi.
    rewrite !withCell_in_range
      by (unfold lastCell, bindLast; simpl; rewrite !pushCell_slen; lia).
    split.
    { apply (bindLast_cellsOk var (pushCell growcap 0 st));
        [rewrite pushCell_slen; lia|].
      by apply pushCell_cellsOk. }
    unfold emit, bindLast; simpl.
    rewrite !pushCell_max, !pushCell_insts, !pushCell_state.
    split; [done|]. split; [done|]. eexists. split; [done|]. eauto.
Qed.

Lemma captureCount_snoc insts inst :
  captureCount (insts ++ [inst])
  = captureCount insts + (if capturing inst then 1 else 0).
Proof.
  unfold captureCount. rewrite filter_app, length_app. f_equal.
  rewrite filter_cons, filter_nil. destruct (capturing inst); by case_decide.
Qed.

Lemma sizedSafe_stepSafe pos line st ok res :
  sizedSafe pos st ok res →
  (∀ inst, ok inst → instPos inst = pos ∧ emittedBy line inst
                     ∧ capturing inst = bindingShaped line) →
  stepSafe pos line st res.
Proof.
  destruct res as [st'| |]; simpl; [|done..].
  intros (Hok & Hmax & Hstate & inst & Hinst & Hi) Himp.
  destruct (Himp inst Hi) as (Hpos & Hemit & Hcap).
  split; [done|]. split; [done|]. split; [right; by exists inst|].
  intros _. rewrite Hinst, Hstate, captureCount_snoc, Hcap.
  unfold bindingCount. lia.
Qed.

(** A directive without a size only changes what waits. *)
Lemma stepped_waiting pos line st st' :
  cellsOk st →
  matcher st' = matcher st → intBindsMap st' = intBindsMap st →
  directiveShaped line = true →
  pendingCapture (state st') = bindingCount line →
  stepped pos line st st'.
Proof.
  intros Hok Hm Hmap Hshape Hpend. unfold stepped, cellsOk in *.
  rewrite Hm, Hmap. repeat split; [done|by left|].
  intros [Hnon|Hplain]; [|congruence]. rewrite Hnon. simpl. lia.
Qed.

Lemma Split_not_nil str sep : Split str sep ≠ [].
Proof.
  induction str as [|c str IH]; [done|]. simpl. by repeat case_match.
Qed.

(** On a field that is not empty the body of the loop does not panic:
    every [&matcher.intBinds[...]] it takes is in range. *)
Lemma compileLine_safe pos line st :
  cellsOk st → line ≠ EmptyString →
  stepSafe pos line st (compileLine growcap pos line st).
Proof.
  intros Hok Hline. unfold compileLine.
  destruct line as [|c0 line']; [done|].
  destruct (Ascii.eqb c0 "_") eqn:Hblind.
  { assert (Hshape : directiveShaped (String c0 line') = true)
      by (unfold directiveShaped; simpl; by rewrite Hblind).
    assert (Hbind : bindingShaped (String c0 line') = false)
      by (unfold bindingShaped; simpl; by rewrite Hblind).
    repeat case_match; try done.
    - apply stepped_waiting; try done. unfold bindingCount. by rewrite Hbind.
    - eapply sizedSafe_stepSafe; [by apply compileSized_safe|].
      intros inst [p ->]. unfold emittedBy. simpl. by rewrite Hblind. }
  destruct (Contains (String c0 line') "/") eqn:Hslash.
  { assert (Hshape : directiveShaped (String c0 line') = true)
      by (unfold directiveShaped; rewrite Hslash; apply orb_true_r).
    assert (Hbind : bindingShaped (String c0 line') = true)
      by (unfold bindingShaped; rewrite Hslash; simpl; by rewrite Hblind).
    repeat case_match; try done;
      try (by eapply Split_not_nil);
      try (apply stepped_waiting; try done; unfold bindingCount;
           by rewrite Hbind).
    - eapply sizedSafe_stepSafe; [by apply compileSized_safe|].
      intros inst [p ->]. unfold emittedBy. simpl. by rewrite Hblind.
    - eapply sizedSafe_stepSafe; [by apply compileSizedInt_safe|].
      intros inst (p & q & ->). unfold emittedBy. simpl. by rewrite Hblind. }
  assert (Hplain : directiveShaped (String c0 line') = false)
    by (unfold directiveShaped; rewrite Hslash; simpl; by rewrite Hblind).
  assert (Hbind : bindingCount (String c0 line') = 0)
    by (unfold bindingCount, bindingShaped; by rewrite Hslash, andb_false_r).
  destruct (state st) eqn:Hst;
    try (split; [done|]; unfold emit; simpl; split; [done|];
         split; [right; eexists; by repeat split|];
         intros _; rewrite captureCount_snoc, Hbind, Hst; simpl; lia).
  rewrite withCell_in_range
    by (unfold lastCell, bindLast; simpl; rewrite !pushCell_slen; lia).
  split.
  { apply (bindLast_cellsOk (name st) (pushCell growcap 0 st));
      [rewrite pushCell_slen; lia|]. by apply pushCell_cellsOk. }
  unfold emit, bindLast; simpl. rewrite !pushCell_max, !pushCell_insts.
  split; [done|]. split; [right; eexists; by repeat split|].
  intros _. rewrite captureCount_snoc, Hbind, Hst. simpl. lia.
Qed.

(** The loop panics on a line exactly when the line is empty or leaves an
    empty field. *)
Lemma compileRaw_panic pos raw st :
  cellsOk st →
  compileRaw growcap pos raw st = StepPanic
  ↔ raw = EmptyString ∨ raw = String comma EmptyString.
Proof.
  intros Hok. unfold compileRaw. split.
  - destruct (trimLine raw) as [line|] eqn:Ht.
    + destruct line as [|c0 line']; [apply trimLine_empty in Ht; auto|].
      intros Hp. pose proof (compileLine_safe pos (String c0 line') st Hok) as Hs.
      rewrite Hp in Hs. exfalso. by apply Hs.
    + apply trimLine_None in Ht. auto.
  - by intros [->| ->].
Qed.

Lemma compileRaw_safe pos raw st st' :
  cellsOk st → compileRaw growcap pos raw st = StepOk st' →
  ∃ line, trimLine raw = Some line ∧ stepped pos line st st' ∧ 0 < len raw.
Proof.
  intros Hok. unfold compileRaw. destruct (trimLine raw) as [line|] eqn:Ht; [|done].
  destruct line as [|c0 line']; [done|]. intros Hs.
  pose proof (compileLine_safe pos (String c0 line') st Hok) as Hsafe.
  rewrite Hs in Hsafe. exists (String c0 line'). split; [done|].
  split; [by apply Hsafe|].
  destruct raw; [done|]. simpl. lia.
Qed.

Lemma compileRaw_cellsOk pos raw st st' :
  cellsOk st → compileRaw growcap pos raw st = StepOk st' → cellsOk st'.
Proof.
  intros Hok Hraw.
  destruct (compileRaw_safe _ _ _ _ Hok Hraw) as (line & _ & Hs & _). apply Hs.
Qed.

Lemma runFields_cellsOk raws : ∀ st pos st',
  cellsOk st → runFields growcap raws st pos = Some st' → cellsOk st'.
Proof.
  induction raws as [|raw raws IH]; intros st pos st' Hok; simpl.
  - by intros [= <-].
  - destruct (compileRaw growcap pos raw st) as [st1| |] eqn:Hraw; try done.
    apply IH. by apply (compileRaw_cellsOk _ _ _ _ Hok Hraw).
Qed.

(** Where the loop panics: on an empty line it has got to. *)
Lemma compileLoop_panic raws : ∀ final st pos,
  cellsOk st →
  compileLoop growcap raws final st pos = CompilePanic
  ↔ ∃ pre raw post st1,
      raws ++ [final] = pre ++ raw :: post
      ∧ runFields growcap pre st pos = Some st1
      ∧ (raw = EmptyString ∨ raw = String comma EmptyString).
Proof.
  induction raws as [|raw0 raws IH]; intros final st pos Hok; cbn [compileLoop].
  - pose proof (compileRaw_panic pos final st Hok) as Hp.
    destruct (compileRaw growcap pos final st) as [st'|e'|] eqn:Hraw.
    + split; [by case_bool_decide|].
      intros (pre & raw & post & st1 & Hsplit & Hrun & Hraw1).
      destruct pre as [|x [|y pre]]; simplify_eq/=.
      by apply Hp in Hraw1.
    + split; [done|].
      intros (pre & raw & post & st1 & Hsplit & Hrun & Hraw1).
      destruct pre as [|x [|y pre]]; simplify_eq/=.
      by apply Hp in Hraw1.
    + split; [|done]. intros _. exists [], final, [], st.
      split; [done|]. split; [done|]. by apply Hp.
  - pose proof (compileRaw_panic pos raw0 st Hok) as Hp.
    destruct (compileRaw growcap pos raw0 st) as [st'|e'|] eqn:Hraw.
    + rewrite IH by (by apply (compileRaw_cellsOk _ _ _ _ Hok Hraw)).
      split; intros (pre & raw & post & st1 & Hsplit & Hrun & Hraw1).
      * exists (raw0 :: pre), raw, post, st1. simpl. rewrite Hraw, Hsplit. done.
      * destruct pre as [|x pre]; simplify_eq/=; [by apply Hp in Hraw1|].
        rewrite Hraw in Hrun. by exists pre, raw, post, st1.
    + split; [done|].
      intros (pre & raw & post & st1 & Hsplit & Hrun & Hraw1).
      destruct pre as [|x pre]; simplify_eq/=; [by apply Hp in Hraw1|].
      by rewrite Hraw in Hrun.
    + split; [|done]. intros _. exists [], raw0, (raws ++ [final]), st.
      split; [done|]. split; [done|]. by apply Hp.
Qed.

End CellFacts.

Lemma startState_cellsOk opts : cellsOk (startState opts).
Proof. unfold cellsOk, startState. simpl. apply map_Forall_empty. Qed.

(** C10, as the code has it. [Compile] panics, on [rawLine[len(rawLine)-1]]
    or on [line[0]], exactly when its loop gets to an empty field: when the
    pattern has a raw line that is empty or a lone comma, and none of the
    fields before it has stopped the loop with a compile error; so a
    pattern without an empty field never makes it panic. The empty pattern
    has such a line, and so has every pattern that ends in a comma (its
    last line is empty) and every pattern with two commas in a row (the
    line between them is a lone comma). *)
Theorem compile_panics_at_empty_field growcap pattern opts :
  (Compile growcap pattern opts = CompilePanic
   ↔ ∃ pre raw post st,
       rawFields pattern = pre ++ raw :: post
       ∧ runFields growcap pre (startState opts) 1 = Some st
       ∧ (raw = EmptyString ∨ raw = String comma EmptyString))
  ∧ rawFields EmptyString = [EmptyString]
  ∧ (∀ p, ∃ pre, rawFields (p +:+ ",") = pre ++ [EmptyString])
  ∧ (∀ p q, ∃ pre post,
       rawFields (p +:+ ",," +:+ q) = pre ++ String comma EmptyString :: post).
Proof.
  split; [|split; [done|split]].
  - unfold Compile, rawFields. destruct (splitRaw pattern) as [raws final].
    apply compileLoop_panic, startState_cellsOk.
  - intros p. change (p +:+ ",") with (p +:+ String comma EmptyString).
    rewrite (rawFields_comma p EmptyString). eexists.
    by rewrite (cons_middle _ (splitRaw p).1), (assoc (++)).
  - intros p q.
    change (p +:+ ",," +:+ q) with (p +:+ String comma (EmptyString +:+ String comma q)).
    rewrite (rawFields_comma p (EmptyString +:+ String comma q)).
    rewrite (rawFields_comma EmptyString q). simpl. eexists _, _.
    by rewrite (cons_middle _ (splitRaw p).1), (assoc (++)).
Qed.

(** A pattern that ends in a comma, and has two commas in a row, for which
    [Compile] returns a compile error and does not panic: the error of an
    earlier field comes first. *)
Lemma compile_error_before_empty_field :
  Compile growslice "N/int/bin,,x," []
    = CompileError (mkError ErrParseInvalidSlash 1 None).
Proof. vm_compute. reflexivity. Qed.

(** ** Fields that follow a directive without a size *)

Section SuffixFacts.

Variable growcap : nat → nat → nat.

Lemma compileSized_sized pos tok capture st st' :
  compileSized growcap pos tok capture st = StepOk st' →
  ∃ inst, instSlice (matcher st') = instSlice (matcher st) ++ [inst]
          ∧ fixedSize inst = true ∧ state st' = state st.
Proof.
  unfold compileSized, withCell. repeat case_match; try done;
    intros [= <-]; unfold emit; simpl;
    rewrite ?pushCell_insts, ?pushCell_state; eauto.
Qed.

Lemma compileSizedInt_sized pos var tok st st' :
  compileSizedInt growcap pos var tok st = StepOk st' →
  ∃ inst, instSlice (matcher st') = instSlice (matcher st) ++ [inst]
          ∧ fixedSize inst = true ∧ state st' = state st.
Proof.
  unfold compileSizedInt, withCell. repeat case_match; try done;
    intros [= <-]; unfold emit, bindLast; simpl;
    rewrite ?pushCell_insts, ?pushCell_state; eauto.
Qed.

(** C2, as the code has it. With a directive without [:SIZE_REF] waiting
    for its suffix, the next field is taken as that suffix, byte for
    byte, when it has not itself the shape of a directive: it does not
    start with an underscore and has no slash. The loop then appends the
    suffix instruction of the waiting directive and nothing waits any
    more. A field that has the shape of a directive is compiled as one
    all the same: no suffix instruction is made of it; either it is a
    directive without a size, and becomes the one that waits, or it
    appends its sized instruction and leaves the other waiting. *)
Theorem suffix_of_pending_directive pos line st :
  state st ≠ nonParseState → line ≠ EmptyString →
  (directiveShaped line = false →
   ∃ st' inst,
     compileLine growcap pos line st = StepOk st'
     ∧ state st' = nonParseState
     ∧ instSlice (matcher st') = instSlice (matcher st) ++ [inst]
     ∧ suffixInst (state st) pos line (maxVarSize (matcher st)) inst)
  ∧ (directiveShaped line = true →
     ∀ st', compileLine growcap pos line st = StepOk st' →
       (instSlice (matcher st') = instSlice (matcher st)
        ∧ state st' ≠ nonParseState)
       ∨ (∃ inst, instSlice (matcher st') = instSlice (matcher st) ++ [inst]
                  ∧ fixedSize inst = true ∧ state st' = state st)).
Proof.
  intros Hpending Hline. destruct line as [|c0 line']; [done|].
  unfold directiveShaped, compileLine. cbn [startsBlind].
  destruct (Ascii.eqb c0 "_") eqn:Hblind; cbn [orb].
  { split; [done|]. intros _ st'.
    repeat case_match; try done.
    - intros [= <-]. by left.
    - intros ?%compileSized_sized. by right. }
  destruct (Contains (String c0 line') "/") eqn:Hslash.
  { split; [done|]. intros _ st'.
    repeat case_match; try done;
      try (intros [= <-]; by left);
      try (intros ?%compileSized_sized; by right);
      try (intros ?%compileSizedInt_sized; by right). }
  split; [|done]. intros _.
  destruct (state st) eqn:Hst; [done|..].
  - eexists _, _. by repeat split.
  - eexists _, _. by repeat split.
  - rewrite withCell_in_range
      by (unfold lastCell, bindLast; simpl; rewrite !pushCell_slen; lia).
    eexists _, _. split; [done|]. unfold emit, bindLast; simpl.
    rewrite pushCell_insts. repeat split; eauto.
Qed.

End SuffixFacts.

Lemma suffix_of_pending_directive_witness :
  let st := setState blindParseState (startState []) in
  (directiveShaped CRLF = false →
   ∃ st' inst,
     compileLine growslice 3 CRLF st = StepOk st'
     ∧ state st' = nonParseState
     ∧ instSlice (matcher st') = instSlice (matcher st) ++ [inst]
     ∧ suffixInst (state st) 3 CRLF (maxVarSize (matcher st)) inst)
  ∧ (directiveShaped CRLF = true →
     ∀ st', compileLine growslice 3 CRLF st = StepOk st' →
       (instSlice (matcher st') = instSlice (matcher st)
        ∧ state st' ≠ nonParseState)
       ∨ (∃ inst, instSlice (matcher st') = instSlice (matcher st) ++ [inst]
                  ∧ fixedSize inst = true ∧ state st' = state st)).
Proof.
  intros st.
  apply (suffix_of_pending_directive growslice 3 CRLF st); simpl; discriminate.
Defined.

(** In [_,N/int,CRLF] the field [N/int] is not the suffix of the blind
    directive: it is compiled as the integer directive it looks like, with
    [CRLF] for its suffix, and takes the place of the blind directive,
    for which no instruction is left. *)
Lemma directive_after_blind_is_directive :
  ∃ tpm h,
    Compile growslice (cat ["_,N/int,"; CRLF]) [] = Compiled tpm h
    ∧ instSlice tpm = [InstIntWithoutSize 9 (bytesOf CRLF) (mkPtr 0 0) 4096]
    ∧ ¬ ∃ pos capture max,
          InstVarWithoutSize pos (bytesOf "N/int") capture max ∈ instSlice tpm.
Proof.
  eexists _, _. split; [vm_compute; reflexivity|]. split; [reflexivity|].
  intros (pos & capture & max & Hin). simpl in Hin.
  apply list_elem_of_singleton in Hin. discriminate.
Qed.

(** ** Colons in directives *)

(** The blind branch checks its colons: a blind field longer than the
    underscore that does not split into two at the colon is an error. *)
Lemma blind_colon_expected growcap pos line st :
  startsBlind line = true → len line ≠ 1 →
  length (Split line ":"%char) ≠ 2 →
  compileLine growcap pos line st
    = StepErr (mkError ErrParseColonExpected pos None).
Proof.
  destruct line as [|c0 line']; [done|]. cbn [startsBlind]. intros Hb Hlen Hsplit.
  unfold compileLine. rewrite Hb. rewrite bool_decide_eq_false_2 by done.
  destruct (Split (String c0 line') ":") as [|t0 [|t1 [|t2 ts]]]; done.
Qed.

(** C3 fails on the binding branches. [V/bin:1:2] and [N/int:1:2] have two
    colons after the type, and [Compile] raises no ColonExpected: it takes
    them for [V/bin] and [N/int], directives without a size, and the next
    field for their suffix. The blind branch does check, see
    [blind_colon_expected]. *)
Theorem binding_colons_unchecked :
  Compile growslice "V/bin:1:2,x" []
    = Compiled (mkMatcher [InstVarWithoutSize 11 (bytesOf "x") true 4096]
                  nilSlice 4096) []
  ∧ Compile growslice "N/int:1:2,x" []
    = Compiled (mkMatcher [InstIntWithoutSize 11 (bytesOf "x") (mkPtr 0 0) 4096]
                  (mkSlice 0 1 1) 4096) [[0%Z]]
  ∧ Compile growslice "_:1:2,x" []
    = CompileError (mkError ErrParseColonExpected 1 None).
Proof. repeat split; vm_compute; reflexivity. Qed.

(** ** Cells and back-references *)

(** C1 fails when [matcher.intBinds] grows between the two [&] of a
    back-reference. In [N/int,CRLF,M/int:N] the instruction of [N] writes the
    cell 0 of the first array; the [append] that makes the cell of [M]
    moves the slice to a second array, and only then is the address of the
    size taken, [&matcher.intBinds[idx]]: the cell 0 of the second array,
    which nothing writes to. On the input [2 CRLF 12] the producer cell ends
    up holding 2, the size cell [M] reads holds 0, no byte is read and the
    empty buffer does not parse. In [N/int,CRLF,_:1,_:N] it is the [append]
    for [_:1] that moves the slice, and [_:N] consumes none of the two
    bytes [ab]. *)
Theorem backref_reads_stale_cell :
  (∃ tpm h h' r',
    Compile growslice (cat ["N/int,"; CRLF; ",M/int:N"]) [] = Compiled tpm h
    ∧ instSlice tpm
      = [InstIntWithoutSize 7 (bytesOf CRLF) (mkPtr 0 0) 4096;
         InstIntWithSize 10 (mkPtr 1 0) (mkPtr 1 1)]
    ∧ MatchReader tpm h (NewReader (bytesOf (cat ["2"; CRLF; "12"])))
      = MatchError (mkError ErrIntVarNotMuch 10 (Some (NumError "" ErrSyntax))) h' r'
    ∧ load h' (mkPtr 0 0) = 2%Z
    ∧ load h' (mkPtr 1 0) = 0%Z
    ∧ remaining r' = bytesOf "12")
  ∧ (∃ tpm h h' r',
    Compile growslice (cat ["N/int,"; CRLF; ",_:1,_:N"]) [] = Compiled tpm h
    ∧ instSlice tpm
      = [InstIntWithoutSize 7 (bytesOf CRLF) (mkPtr 0 0) 4096;
         InstVarWithSize 10 (mkPtr 1 1) false;
         InstVarWithSize 14 (mkPtr 1 0) false]
    ∧ MatchReader tpm h (NewReader (bytesOf (cat ["2"; CRLF; "Xab"])))
      = Matched [bytesOf "2"] h' r'
    ∧ load h' (mkPtr 0 0) = 2%Z
    ∧ load h' (mkPtr 1 0) = 0%Z
    ∧ remaining r' = bytesOf "ab").
Proof.
  split.
  - eexists _, _, _, _. split; [vm_compute; reflexivity|].
    split; [reflexivity|]. split; [vm_compute; reflexivity|].
    repeat split; vm_compute; reflexivity.
  - eexists _, _, _, _. split; [vm_compute; reflexivity|].
    split; [reflexivity|]. split; [vm_compute; reflexivity|].
    repeat split; vm_compute; reflexivity.
Qed.

(** Without an [append] in between, the back-reference reads the cell the
    integer instruction wrote: the same pattern without [_:1]. *)
Lemma backref_reads_fresh_cell :
  ∃ tpm h h' r',
    Compile growslice (cat ["N/int,"; CRLF; ",_:N"]) [] = Compiled tpm h
    ∧ instSlice tpm
      = [InstIntWithoutSize 7 (bytesOf CRLF) (mkPtr 0 0) 4096;
         InstVarWithSize 10 (mkPtr 0 0) false]
    ∧ MatchReader tpm h (NewReader (bytesOf (cat ["2"; CRLF; "abc"])))
      = Matched [bytesOf "2"] h' r'
    ∧ load h' (mkPtr 0 0) = 2%Z
    ∧ remaining r' = bytesOf "c".
Proof.
  eexists _, _, _, _. split; [vm_compute; reflexivity|].
  split; [reflexivity|]. split; [vm_compute; reflexivity|].
  repeat split; vm_compute; reflexivity.
Qed.

(** C9 fails: a negative size is not turned into an error. The integer
    [-5] parses, the back-reference [_:N] then asks [make] for a buffer of
    -5 bytes, and the match panics; so it does for [M/int:N] when its size
    cell is the one [N] wrote, and for the sizes [-3] written in the
    pattern. *)
Theorem negative_size_panics :
  compileAndMatch (cat ["N/int,"; CRLF; ",_:N"]) [] (cat ["-5"; CRLF; "beaf"])
    = inr MatchPanic
  ∧ compileAndMatch (cat ["_:1,_:1,N/int,"; CRLF; ",M/int:N"]) []
      (cat ["ab-5"; CRLF; "1234"])
    = inr MatchPanic
  ∧ compileAndMatch "_:-3" [] "dead" = inr MatchPanic
  ∧ compileAndMatch "M/int:-3" [] "123" = inr MatchPanic.
Proof. repeat split; vm_compute; reflexivity. Qed.

(** ** Captures *)

(** A call that returns hands back a buffer exactly when the instruction
    is a capturing one; the empty capture is a buffer too. *)
Lemma call_capture inst h r b h' r' :
  call inst h r = Ret b h' r' → (is_Some b ↔ capturing inst = true).
Proof.
  destruct inst as [pos mtch|pos size capture|pos sfx capture max
                    |pos size outSize|pos sfx outSize max]; simpl;
    unfold genInstConst, genInstVarWithSize, genInstIntWithSize,
      genInstVarWithoutSize, genInstIntWithoutSize;
    repeat case_match; try done; intros [= <- _ _];
    rewrite ?is_Some_alt; done.
Qed.

(** [MatchReader] returns without an error exactly when every instruction
    does, and then returns the buffers that are not nil, in the order of
    the instructions. *)
Lemma matchLoop_runs insts : ∀ binds h r binds' h' r',
  matchLoop insts binds h r = Matched binds' h' r'
  ↔ ∃ outs, runs insts h r outs h' r' ∧ binds' = binds ++ omap id outs.
Proof.
  induction insts as [|inst insts IH]; intros binds h r binds' h' r'; simpl.
  - split.
    + intros [= <- <- <-]. exists []. split; [constructor|]. by rewrite app_nil_r.
    + intros (outs & Hruns & ->). inversion Hruns; subst. simpl.
      by rewrite app_nil_r.
  - destruct (call inst h r) as [b h1 r1| | |] eqn:Hcall.
    + rewrite IH. split.
      * intros (outs & Hruns & ->). exists (b :: outs).
        split; [by econstructor|]. destruct b; simpl; [|done].
        by rewrite <- (assoc (++)).
      * intros (outs & Hruns & ->). inversion Hruns; subst.
        match goal with H : call inst h r = Ret _ _ _ |- _ =>
          rewrite Hcall in H; injection H as <- <- <- end.
        eexists. split; [done|]. destruct b; simpl; [|done].
        by rewrite <- (assoc (++)).
    + split; [done|]. intros (outs & Hruns & _). inversion Hruns; congruence.
    + split; [done|]. intros (outs & Hruns & _). inversion Hruns; congruence.
    + split; [done|]. intros (outs & Hruns & _). inversion Hruns; congruence.
Qed.

Lemma runs_captures insts h r outs h' r' :
  runs insts h r outs h' r' →
  Forall2 (λ inst out, is_Some out ↔ capturing inst = true) insts outs
  ∧ length (omap id outs) = length (filter (λ inst, capturing inst = true) insts).
Proof.
  induction 1 as [|inst rest h r b h1 r1 outs h2 r2 Hcall _ [IH1 IH2]];
    [by split; [constructor|]|].
  pose proof (call_capture _ _ _ _ _ _ Hcall) as Hcap.
  split; [by constructor|].
  rewrite filter_cons. destruct b as [b|].
  - rewrite decide_True by (apply Hcap; eauto). simpl. f_equal. exact IH2.
  - rewrite decide_False; [exact IH2|].
    intros Hc. apply Hcap in Hc. by destruct Hc.
Qed.

(** ** Instructions and fields *)

Lemma totalLen_app pre post : totalLen (pre ++ post) = (totalLen pre + totalLen post)%Z.
Proof. induction pre as [|x pre IH]; simpl; lia. Qed.

Lemma stepped_sorted pos pos' line st st' :
  stepped pos line st st' → (pos < pos')%Z →
  sortedBelow pos (instSlice (matcher st)) →
  sortedBelow pos' (instSlice (matcher st')).
Proof.
  intros (_ & _ & Hinsts & _) Hlt [Hsorted Hbelow].
  destruct Hinsts as [->|(inst & -> & Hpos & _)].
  - split; [done|]. rewrite Forall_forall in *.
    intros x Hx. specialize (Hbelow x Hx). simpl in *. lia.
  - split.
    + apply StronglySorted_app. repeat split; [|done|repeat constructor].
      intros x1 x2 Hx1 ->%list_elem_of_singleton.
      rewrite Forall_forall in Hbelow. apply Hbelow in Hx1. lia.
    + apply Forall_app. split; [|repeat constructor; lia].
      rewrite Forall_forall in *.
      intros x Hx. specialize (Hbelow x Hx). simpl in *. lia.
Qed.

Lemma stepped_placed pos line st st' fields pre raw post :
  stepped pos line st st' →
  fields = pre ++ raw :: post → trimLine raw = Some line →
  pos = (1 + totalLen pre)%Z →
  Forall (placed fields) (instSlice (matcher st)) →
  Forall (placed fields) (instSlice (matcher st')).
Proof.
  intros (_ & _ & Hinsts & _) Hfields Hline Hpos Hall.
  destruct Hinsts as [->|(inst & -> & Hipos & Hemit)]; [done|].
  apply Forall_app. split; [done|]. repeat constructor.
  exists pre, raw, post, line. repeat split; [done..|lia|done].
Qed.

Section LayoutFacts.

Variable growcap : nat → nat → nat.

(** Through the loop of [Compile] every instruction sits at a field, and
    the positions grow. *)
Lemma compileLoop_layout raws : ∀ final st pos pre tpm h,
  cellsOk st → pos = (1 + totalLen pre)%Z →
  Forall (placed (pre ++ raws ++ [final])) (instSlice (matcher st)) →
  sortedBelow pos (instSlice (matcher st)) →
  compileLoop growcap raws final st pos = Compiled tpm h →
  Forall (placed (pre ++ raws ++ [final])) (instSlice tpm)
  ∧ inFieldOrder (instSlice tpm).
Proof.
  induction raws as [|raw0 raws IH];
    intros final st pos pre tpm h Hok Hpos Hplaced Hsorted; cbn [compileLoop].
  - destruct (compileRaw growcap pos final st) as [st'| |] eqn:Hraw; [|done..].
    destruct (compileRaw_safe _ _ _ _ _ Hok Hraw) as (line & Hline & Hstep & Hlen).
    case_bool_decide; [|done]. intros [= <- <-]. split.
    + by eapply stepped_placed.
    + eapply (stepped_sorted pos (pos + 1)); [done|lia|done].
  - destruct (compileRaw growcap pos raw0 st) as [st'| |] eqn:Hraw; [|done..].
    destruct (compileRaw_safe _ _ _ _ _ Hok Hraw) as (line & Hline & Hstep & Hlen).
    intros Hloop.
    replace (pre ++ (raw0 :: raws) ++ [final])
      with ((pre ++ [raw0]) ++ raws ++ [final]) in *
      by (by rewrite <- (assoc (++))).
    eapply IH; [| | | |exact Hloop].
    + apply Hstep.
    + rewrite totalLen_app. simpl. lia.
    + eapply stepped_placed; [done| |done..].
      by rewrite <- (assoc (++)).
    + eapply stepped_sorted; [done| |done]. lia.
Qed.

(** When every directive without a size is followed by its suffix, the
    loop makes one capturing instruction for each field of the shape of a
    binding directive. *)
Lemma compileLoop_count raws : ∀ final st pos tpm h,
  cellsOk st →
  suffixesFollow growcap (raws ++ [final]) st pos →
  compileLoop growcap raws final st pos = Compiled tpm h →
  captureCount (instSlice tpm)
  = captureCount (instSlice (matcher st)) + pendingCapture (state st)
    + length (filter (λ line, bindingShaped line = true)
                (omap trimLine (raws ++ [final]))).
Proof.
  induction raws as [|raw0 raws IH]; intros final st pos tpm h Hok Hfollow;
    cbn [compileLoop].
  - destruct (compileRaw growcap pos final st) as [st'| |] eqn:Hraw; [|done..].
    destruct (compileRaw_safe _ _ _ _ _ Hok Hraw) as (line & Hline & Hstep & _).
    case_bool_decide as Hnon; [|done]. intros [= <- <-].
    destruct Hstep as (_ & _ & _ & Hdelta).
    rewrite Hnon in Hdelta. simpl in Hdelta. rewrite Nat.add_0_r in Hdelta.
    rewrite Hdelta.
    2:{ destruct (decide (state st = nonParseState)) as [|Hwait]; [by left|].
        right. by eapply (Hfollow [] final [] st line). }
    simpl. rewrite Hline. simpl. rewrite filter_cons, filter_nil.
    unfold bindingCount. destruct (bindingShaped line); by case_decide.
  - destruct (compileRaw growcap pos raw0 st) as [st'| |] eqn:Hraw; [|done..].
    destruct (compileRaw_safe _ _ _ _ _ Hok Hraw) as (line & Hline & Hstep & _).
    intros Hloop.
    assert (Hfollow' : suffixesFollow growcap (raws ++ [final]) st'
                         (pos + Z.of_nat (len raw0))).
    { intros pre raw post st1 line1 Hsplit Hrun.
      apply (Hfollow (raw0 :: pre) raw post st1 line1).
      - simpl. by rewrite Hsplit.
      - simpl. by rewrite Hraw. }
    rewrite (IH _ _ _ _ _ (proj1 Hstep) Hfollow' Hloop).
    destruct Hstep as (_ & _ & _ & Hdelta). rewrite Hdelta.
    2:{ destruct (decide (state st = nonParseState)) as [|Hwait]; [by left|].
        right. by eapply (Hfollow [] raw0 (raws ++ [final]) st line). }
    change (omap trimLine ((raw0 :: raws) ++ [final]))
      with (match trimLine raw0 with
            | Some line0 => line0 :: omap trimLine (raws ++ [final])
            | None => omap trimLine (raws ++ [final])
            end).
    rewrite Hline, filter_cons.
    unfold bindingCount. destruct (bindingShaped line); case_decide;
      simpl; try done; lia.
Qed.

End LayoutFacts.

Lemma newMatcher_insts opts : instSlice (newMatcher opts) = [].
Proof.
  unfold newMatcher.
  assert (Hnil : ∀ tpm0, instSlice tpm0 = [] →
            instSlice (foldl applyOption tpm0 opts) = []).
  { induction opts as [|[m] opts IHo]; intros tpm0 H0; [done|].
    simpl. apply IHo. exact H0. }
  case_bool_decide; simpl; by rewrite Hnil.
Qed.

(** The instructions of a compiled matcher sit at the fields of its
    pattern, in their order. *)
Lemma Compile_layout growcap pattern opts tpm h0 :
  Compile growcap pattern opts = Compiled tpm h0 →
  Forall (placed (rawFields pattern)) (instSlice tpm)
  ∧ inFieldOrder (instSlice tpm).
Proof.
  unfold Compile, rawFields. destruct (splitRaw pattern) as [raws final].
  intros Hloop.
  eapply (compileLoop_layout growcap raws final _ 1 []); [| | | |exact Hloop].
  - apply startState_cellsOk.
  - done.
  - unfold startState. simpl. rewrite newMatcher_insts. constructor.
  - unfold startState. simpl. rewrite newMatcher_insts. split; constructor.
Qed.

Lemma Compile_count growcap pattern opts tpm h0 :
  Compile growcap pattern opts = Compiled tpm h0 →
  suffixesFollow growcap (rawFields pattern) (startState opts) 1 →
  captureCount (instSlice tpm) = length (bindingFields pattern).
Proof.
  unfold Compile, bindingFields, rawFields.
  destruct (splitRaw pattern) as [raws final]. intros Hloop Hfollow.
  rewrite (compileLoop_count growcap raws final _ 1 tpm h0
             (startState_cellsOk opts) Hfollow Hloop).
  unfold startState. simpl. rewrite newMatcher_insts. done.
Qed.

Lemma suffixesFollowB_sound growcap fields : ∀ st pos,
  suffixesFollowB growcap fields st pos = true →
  suffixesFollow growcap fields st pos.
Proof.
  induction fields as [|raw0 fields IH]; intros st pos Htest pre raw post st1 line
    Hsplit Hrun Hline Hwait.
  - by destruct pre.
  - simpl in Htest. apply andb_true_iff in Htest as [Hhere Hrest].
    destruct pre as [|x pre]; simplify_eq/=.
    + rewrite Hline in Hhere. apply orb_true_iff in Hhere as [Hnon|Hneg].
      * by apply bool_decide_eq_true in Hnon.
      * by apply negb_true_iff in Hneg.
    + destruct (compileRaw growcap pos x st) as [st'| |]; [|done..].
      by eapply (IH st' _ Hrest pre raw post st1 line).
Qed.

(** C6, as the code has it. When a pattern compiles and the matcher
    returns captures without an error, every instruction has returned in
    turn, and the capture list is what the capturing instructions returned,
    one entry for each and none for the others, in the order of the
    instructions. The instructions are in the order of the fields: each
    sits at a field of the pattern, whose position it reports, and the
    positions grow along the matcher. The capturing instructions are the
    sized ones of the fields [name/bin:X] and [name/int:X], and the suffix
    instructions made, of a field that is no directive, for a [name/bin]
    or [name/int] left waiting; blind fields and constants give none. When
    every directive without a size is followed by its suffix, that is one
    capture for every field [name/bin...] and [name/int...]. *)
Theorem captures_follow_instructions growcap pattern opts tpm h0 h r binds h' r' :
  Compile growcap pattern opts = Compiled tpm h0 →
  MatchReader tpm h r = Matched binds h' r' →
  ∃ outs,
    runs (instSlice tpm) h r outs h' r'
    ∧ Forall2 (λ inst out, is_Some out ↔ capturing inst = true) (instSlice tpm) outs
    ∧ binds = omap id outs
    ∧ length binds = length (filter (λ inst, capturing inst = true) (instSlice tpm))
    ∧ inFieldOrder (instSlice tpm)
    ∧ Forall (placed (rawFields pattern)) (instSlice tpm)
    ∧ (suffixesFollow growcap (rawFields pattern) (startState opts) 1 →
       length binds = length (bindingFields pattern)).
Proof.
  intros Hcompile Hmatch.
  apply matchLoop_runs in Hmatch as (outs & Hruns & ->).
  destruct (runs_captures _ _ _ _ _ _ Hruns) as [Hcap Hlen].
  destruct (Compile_layout _ _ _ _ _ Hcompile) as [Hplaced Hsorted].
  exists outs. repeat split; try done.
  intros Hfollow. simpl. rewrite Hlen.
  by apply (Compile_count growcap pattern opts tpm h0).
Qed.

Lemma captures_follow_instructions_witness :
  let pattern := cat ["V/bin,"; CRLF; ",N/int:2,v2/bin:N,"; CRLF] in
  let input := cat ["foobarbuzz"; CRLF; "16abcdef0123456789"; CRLF] in
  let tpm :=
    mkMatcher
      [InstVarWithoutSize 7 (bytesOf CRLF) true 32;
       InstIntWithSize 10 (mkPtr 1 0) (mkPtr 1 1);
       InstVarWithSize 18 (mkPtr 1 1) true;
       InstConst 27 (bytesOf CRLF)]
      (mkSlice 1 2 2) 32 in
  let binds := [bytesOf "foobarbuzz"; bytesOf "16"; bytesOf "abcdef0123456789"] in
  Compile growslice pattern [WithMaxVariableSize 32] = Compiled tpm [[2]; [2; 0]]%Z
  ∧ MatchReader tpm [[2]; [2; 0]]%Z (NewReader (bytesOf input))
    = Matched binds [[2]; [2; 16]]%Z (mkReader [] 15)
  ∧ bindingFields pattern = ["V/bin"; "N/int:2"; "v2/bin:N"]
  ∧ length binds = length (bindingFields pattern)
  ∧ inFieldOrder (instSlice tpm).
Proof.
  intros pattern input tpm binds.
  assert (Hcompile : Compile growslice pattern [WithMaxVariableSize 32]
                     = Compiled tpm [[2]; [2; 0]]%Z)
    by (vm_compute; reflexivity).
  assert (Hmatch : MatchReader tpm [[2]; [2; 0]]%Z (NewReader (bytesOf input))
                   = Matched binds [[2]; [2; 16]]%Z (mkReader [] 15))
    by (vm_compute; reflexivity).
  split; [exact Hcompile|]. split; [exact Hmatch|].
  split; [vm_compute; reflexivity|].
  destruct (captures_follow_instructions growslice pattern [WithMaxVariableSize 32]
              tpm [[2]; [2; 0]]%Z [[2]; [2; 0]]%Z (NewReader (bytesOf input))
              binds [[2]; [2; 16]]%Z (mkReader [] 15) Hcompile Hmatch)
    as (outs & _ & _ & _ & _ & Horder & _ & Hcount).
  split; [|exact Horder].
  apply Hcount, suffixesFollowB_sound. vm_compute. reflexivity.
Defined.

(** Captures are not one for each field of the shape [name/bin...] or
    [name/int...], nor in the order of those fields. In [V/bin,W/bin,x] the
    second directive takes the place of the first while it waits: two such
    fields, one suffix instruction, one capture. In [V/bin,N/int:1,x] the
    sized directive appends its instruction while [V/bin] waits for [x]:
    the capture of the second field comes before that of the first. *)
Lemma captures_not_per_binding_field :
  (∃ binds h r,
     compileAndMatch "V/bin,W/bin,x" [] "abx" = inr (Matched binds h r)
     ∧ binds = [bytesOf "ab"]
     ∧ bindingFields "V/bin,W/bin,x" = ["V/bin"; "W/bin"]
     ∧ length binds ≠ length (bindingFields "V/bin,W/bin,x"))
  ∧ (∃ binds h r,
       compileAndMatch "V/bin,N/int:1,x" [] "5abx" = inr (Matched binds h r)
       ∧ bindingFields "V/bin,N/int:1,x" = ["V/bin"; "N/int:1"]
       ∧ binds = [bytesOf "5"; bytesOf "ab"]).
Proof.
  split.
  - eexists _, _, _. split; [vm_compute; reflexivity|].
    split; [reflexivity|]. split; [vm_compute; reflexivity|].
    vm_compute. discriminate.
  - eexists _, _, _. split; [vm_compute; reflexivity|].
    split; [vm_compute; reflexivity|]. reflexivity.
Qed.

(** * Further properties of the engine and the compiler *)

(** ** What the sized instructions consume *)

Lemma writeAt_fresh l data :
  length data = l → writeAt (replicate l zero) 0 data = data.
Proof.
  intros Hl. unfold writeAt. rewrite take_0. simpl.
  rewrite drop_ge by (rewrite length_replicate; lia). apply app_nil_r.
Qed.

(** The filling loop on a fresh buffer of [l] bytes: the next [l] bytes of
    the input, or [io.EOF] with all of the input used up. *)
Lemma fill_fresh l r :
  ∃ r',
    fill (budget r) l (replicate l zero) 0 r
    = Some (if bool_decide (l ≤ length (remaining r))
            then inl (take l (remaining r)) else inr EOF, r')
    ∧ remaining r'
      = if bool_decide (l ≤ length (remaining r))
        then drop l (remaining r) else [].
Proof.
  destruct (fill_budget l (replicate l zero) 0 r) as (r' & Hfill & Hrem); [lia|].
  exists r'. rewrite Hfill, Hrem. unfold filled, unread. rewrite Nat.sub_0_r.
  split; [|done]. case_bool_decide; [|done].
  rewrite writeAt_fresh; [done|]. rewrite length_take. lia.
Qed.

(** X1. The constant instruction looks at exactly the next [len(match)]
    bytes of the input. When they are the constant it returns nil and
    leaves what follows them; when they are other bytes it fails without a
    cause, and has consumed them all the same; when the input is shorter it
    fails with [io.EOF] for a cause and nothing is left. It never touches
    a cell. *)
Theorem const_consumes pos mtch h r :
  (∀ rest, remaining r = mtch ++ rest →
     ∃ r', genInstConst pos mtch h r = Ret None h r' ∧ remaining r' = rest)
  ∧ (length mtch ≤ length (remaining r) →
     take (length mtch) (remaining r) ≠ mtch →
     ∃ r', genInstConst pos mtch h r = Raise (mkError ErrConstNotMuch pos None) h r'
           ∧ remaining r' = drop (length mtch) (remaining r))
  ∧ (length (remaining r) < length mtch →
     ∃ r', genInstConst pos mtch h r
           = Raise (mkError ErrConstNotMuch pos (Some EOF)) h r'
           ∧ remaining r' = []).
Proof.
  unfold genInstConst.
  destruct (fill_fresh (length mtch) r) as (r' & -> & Hrem).
  repeat split.
  - intros rest Hrest. exists r'. rewrite Hrem, Hrest.
    rewrite bool_decide_eq_true_2 by (rewrite length_app; lia).
    rewrite take_app_length, drop_app_length.
    unfold bytesEqual. by rewrite bool_decide_eq_true_2.
  - intros Hlen Hne. exists r'. rewrite Hrem.
    rewrite bool_decide_eq_true_2 by done.
    unfold bytesEqual. by rewrite bool_decide_eq_false_2.
  - intros Hlen. exists r'. rewrite Hrem.
    by rewrite bool_decide_eq_false_2 by lia.
Qed.

(** X2. With [n] in its size cell, [n] not negative and not beyond
    [maxAlloc], the length [make] takes, the VarSized instruction consumes
    exactly the next [n] bytes of the input and returns them when it
    captures, nil when it does not; when fewer than [n] bytes are left it
    fails with VarNotMatched caused by [io.EOF], and nothing is left. It
    never touches a cell. *)
Theorem var_with_size_consumes pos size capture h r :
  (0 ≤ load h size ≤ maxAlloc)%Z →
  let n := Z.to_nat (load h size) in
  (n ≤ length (remaining r) →
   ∃ r', genInstVarWithSize pos size capture h r
         = Ret (if capture then Some (take n (remaining r)) else None) h r'
         ∧ remaining r' = drop n (remaining r))
  ∧ (length (remaining r) < n →
     ∃ r', genInstVarWithSize pos size capture h r
           = Raise (mkError ErrVarNotMuch pos (Some EOF)) h r'
           ∧ remaining r' = []).
Proof.
  intros Hsize n. unfold genInstVarWithSize.
  rewrite bool_decide_eq_false_2 by lia. fold n.
  destruct (fill_fresh n r) as (r' & -> & Hrem). split.
  - intros Hlen. exists r'. rewrite Hrem. by rewrite bool_decide_eq_true_2.
  - intros Hlen. exists r'. rewrite Hrem. by rewrite bool_decide_eq_false_2 by lia.
Qed.

Lemma var_with_size_consumes_witness :
  let r := NewReader (bytesOf "deadbeaf") in
  ∃ r', genInstVarWithSize 3 (mkPtr 0 0) true [[4%Z]] r
        = Ret (Some (take 4 (remaining r))) [[4%Z]] r'
        ∧ remaining r' = drop 4 (remaining r).
Proof.
  intros r.
  refine (proj1 (var_with_size_consumes 3 (mkPtr 0 0) true [[4%Z]] r _) _).
  - split; vm_compute; discriminate.
  - vm_compute. lia.
Defined.

(** X3. With [n] in its size cell, [n] not negative and not beyond
    [maxAlloc], the length [make] takes, the IntSized instruction consumes
    exactly the next [n] bytes. When they parse as a
    64 bit decimal it returns them and writes the number into its out
    cell; when they do not, it fails with the error of [ParseInt] for a
    cause, having consumed them, and writes nothing; when fewer than [n]
    bytes are left it fails with [io.EOF] and writes nothing. *)
Theorem int_with_size_consumes pos size outSize h r :
  (0 ≤ load h size ≤ maxAlloc)%Z →
  let n := Z.to_nat (load h size) in
  let digits := take n (remaining r) in
  (n ≤ length (remaining r) →
   ∃ r', remaining r' = drop n (remaining r)
         ∧ genInstIntWithSize pos size outSize h r
           = match ParseInt (stringOf digits) with
             | inl v => Ret (Some digits) (store h outSize v) r'
             | inr e =>
                 Raise (mkError ErrIntVarNotMuch pos
                          (Some (NumError (stringOf digits) e))) h r'
             end)
  ∧ (length (remaining r) < n →
     ∃ r', genInstIntWithSize pos size outSize h r
           = Raise (mkError ErrIntVarNotMuch pos (Some EOF)) h r'
           ∧ remaining r' = []).
Proof.
  intros Hsize n digits. unfold genInstIntWithSize.
  rewrite bool_decide_eq_false_2 by lia. fold n.
  destruct (fill_fresh n r) as (r' & -> & Hrem). split.
  - intros Hlen. exists r'. rewrite Hrem. rewrite !bool_decide_eq_true_2 by done.
    split; [done|]. fold digits. by destruct (ParseInt (stringOf digits)).
  - intros Hlen. exists r'. rewrite Hrem. by rewrite bool_decide_eq_false_2 by lia.
Qed.

Lemma int_with_size_consumes_witness :
  let r := NewReader (bytesOf "16abcdef") in
  ∃ r', remaining r' = drop 2 (remaining r)
        ∧ genInstIntWithSize 9 (mkPtr 0 0) (mkPtr 0 1) [[2; 0]%Z] r
          = Ret (Some (bytesOf "16")) [[2; 16]%Z] r'.
Proof.
  intros r.
  refine (proj1 (int_with_size_consumes 9 (mkPtr 0 0) (mkPtr 0 1) [[2; 0]%Z] r _) _).
  - split; vm_compute; discriminate.
  - vm_compute. lia.
Defined.

(** ** Errors, writes and reads of an instruction *)

Lemma scanGrow_failed pos max st r e r' :
  scanGrow pos max st r = Failed e r' →
  e = mkError (ErrVarExceedMaxSize max) pos None ∧ r' = r.
Proof. unfold scanGrow. repeat case_bool_decide; by intros [= <- <-]. Qed.

Lemma scanStep_failed code pos sfx max st r e r' :
  scanStep code pos sfx max st r = Failed e r' →
  e = mkError code pos (Some EOF) ∨ e = mkError (ErrVarExceedMaxSize max) pos None.
Proof.
  unfold scanStep. case_bool_decide; [|done].
  destruct (Read r 1) as [[data [c|]] r1] eqn:HR.
  - apply Read_error in HR as (-> & _). intros [= <- _]. by left.
  - repeat case_match; try done; intros [-> _]%scanGrow_failed; by right.
Qed.

Lemma scanLoop_failed fuel : ∀ code pos sfx max st r e r',
  scanLoop fuel code pos sfx max st r = Some (Failed e r') →
  e = mkError code pos (Some EOF) ∨ e = mkError (ErrVarExceedMaxSize max) pos None.
Proof.
  induction fuel as [|fuel IH]; intros code pos sfx max st r e r'; [done|].
  simpl. destruct (scanStep code pos sfx max st r) as [st1 r1| | |] eqn:Hs;
    try done.
  - apply IH.
  - intros [= <- <-]. by eapply scanStep_failed.
Qed.

(** X4. An instruction that fails reports the position it was compiled
    with, leaves every cell as it was, and returns an error of its own
    kind: ConstNotMatched, VarNotMatched or IntVarNotMatched with the
    reader's [io.EOF] for a cause (or none for a constant that reads other
    bytes, or the error of [ParseInt] for an integer), or, for a scanning
    instruction, VarExceedsMaxSize of its limit without a cause. *)
Theorem failure_is_own inst h r e h' r' :
  call inst h r = Raise e h' r' →
  h' = h ∧ Pos e = instPos inst ∧ raisedBy inst e.
Proof.
  destruct inst as [pos mtch|pos size capture|pos sfx capture max
                    |pos size outSize|pos sfx outSize max]; simpl;
    unfold genInstConst, genInstVarWithSize, genInstIntWithSize,
      genInstVarWithoutSize, genInstIntWithoutSize.
  - destruct (fill_fresh (length mtch) r) as (r1 & -> & _).
    repeat case_match; try done; intros [= <- <- _]; simplify_eq; simpl; repeat split; by auto.
  - case_bool_decide; [done|].
    destruct (fill_fresh (Z.to_nat (load h size)) r) as (r1 & -> & _).
    repeat case_match; try done; intros [= <- <- _]; simplify_eq; simpl; repeat split; by auto.
  - destruct (scanLoop _ _ _ _ _ _ _) as [[| | e1 r1|]|] eqn:Hloop; try done.
    intros [= <- <- _]. apply scanLoop_failed in Hloop as [-> | ->]; simpl;
      repeat split; by auto.
  - case_bool_decide; [done|].
    destruct (fill_fresh (Z.to_nat (load h size)) r) as (r1 & -> & _).
    repeat case_match; try done; intros [= <- <- _]; simplify_eq; simpl;
      unfold isNumError; repeat split; by eauto.
  - destruct (scanLoop _ _ _ _ _ _ _) as [[|st1 r1| e1 r1|]|] eqn:Hloop; try done.
    + case_match; [done|]. intros [= <- <- _]. simpl.
      split; [done|]. split; [done|]. left. split; [done|]. right.
      unfold isNumError. eauto.
    + intros [= <- <- _].
      apply scanLoop_failed in Hloop as [-> | ->]; simpl;
      repeat split; by auto.
Qed.

Lemma failure_is_own_witness :
  let inst := InstVarWithSize 15 (mkPtr 0 0) false in
  let e := mkError ErrVarNotMuch 15 (Some EOF) in
  [[4%Z]] = [[4%Z]] ∧ Pos e = instPos inst ∧ raisedBy inst e.
Proof.
  intros inst e.
  apply (failure_is_own inst [[4%Z]] (NewReader (bytesOf "bea")) e [[4%Z]]
           (mkReader [] 2)).
  vm_compute. reflexivity.
Defined.

(** X5. An instruction that returns writes at most one cell: an integer
    instruction stores into its out cell the number that the buffer it
    returns spells for [ParseInt], and the other instructions leave every
    cell as it was. *)
Theorem success_writes_out_cell inst h r b h' r' :
  call inst h r = Ret b h' r' →
  match outPtr inst with
  | Some outSize =>
      ∃ digits v, b = Some digits ∧ ParseInt (stringOf digits) = inl v
                  ∧ h' = store h outSize v
  | None => h' = h
  end.
Proof.
  destruct inst as [pos mtch|pos size capture|pos sfx capture max
                    |pos size outSize|pos sfx outSize max]; simpl;
    unfold genInstConst, genInstVarWithSize, genInstIntWithSize,
      genInstVarWithoutSize, genInstIntWithoutSize;
    repeat case_match; try done; intros [= <- <- _]; eauto.
Qed.

Lemma success_writes_out_cell_witness :
  ∃ digits v, Some (bytesOf "789") = Some digits
              ∧ ParseInt (stringOf digits) = inl v
              ∧ [[789%Z]] = store [[0%Z]] (mkPtr 0 0) v.
Proof.
  apply (success_writes_out_cell (InstIntWithoutSize 0 (bytesOf "bar") (mkPtr 0 0) 1024)
           [[0%Z]] (NewReader (bytesOf "789bar")) (Some (bytesOf "789")) [[789%Z]]
           (mkReader [] 6)).
  vm_compute. reflexivity.
Defined.

Lemma scanGrow_same_reader pos max st r res :
  scanGrow pos max st r = res →
  match res with
  | Next _ r' | Found _ r' | Failed _ r' => r' = r
  | Crashed => True
  end.
Proof. unfold scanGrow. repeat case_bool_decide; by intros <-. Qed.

(** The scanning loop only reads forward. *)
Lemma scanStep_forward code pos sfx max st r :
  match scanStep code pos sfx max st r with
  | Next _ r' | Found _ r' | Failed _ r' =>
      ∃ consumed, remaining r = consumed ++ remaining r'
  | Crashed => True
  end.
Proof.
  unfold scanStep. case_bool_decide; [|done].
  destruct (Read r 1) as [[data [c|]] r1] eqn:HR.
  - apply Read_error in HR as (_ & H0 & H1). exists []. unfold remaining.
    by rewrite H0, H1.
  - apply Read_remaining in HR.
    repeat case_match; try done;
      try (match goal with
           | H : scanGrow _ _ _ _ = _ |- _ =>
               apply scanGrow_same_reader in H; simpl in H; subst
           end);
      simplify_eq; by eauto.
Qed.

Lemma scanLoop_forward fuel : ∀ code pos sfx max st r res,
  scanLoop fuel code pos sfx max st r = Some res →
  match res with
  | Next _ r' | Found _ r' | Failed _ r' =>
      ∃ consumed, remaining r = consumed ++ remaining r'
  | Crashed => True
  end.
Proof.
  induction fuel as [|fuel IH]; intros code pos sfx max st r res; [done|].
  simpl. pose proof (scanStep_forward code pos sfx max st r) as Hstep.
  destruct (scanStep code pos sfx max st r) as [st1 r1| | |] eqn:Hs.
  - intros Hloop. apply IH in Hloop. destruct Hstep as [c1 Hc1].
    destruct res as [? r2|? r2|? r2|]; try done;
      destruct Hloop as [c2 Hc2]; exists (c1 ++ c2);
      by rewrite Hc1, Hc2, (assoc (++)).
  - by intros [= <-].
  - by intros [= <-].
  - by intros [= <-].
Qed.

Lemma call_forward inst h r r' :
  readerAfter (call inst h r) = Some r' →
  ∃ consumed, remaining r = consumed ++ remaining r'.
Proof.
  assert (Hfill : ∀ l r1 x,
    fill (budget r) l (replicate l zero) 0 r = Some (x, r1) →
    ∃ consumed, remaining r = consumed ++ remaining r1).
  { intros l r1 x Hf. destruct (fill_fresh l r) as (r2 & Hf2 & Hrem).
    rewrite Hf in Hf2. injection Hf2 as _ <-. rewrite Hrem.
    case_bool_decide.
    - exists (take l (remaining r)). by rewrite take_drop.
    - exists (remaining r). by rewrite app_nil_r. }
  assert (Hscan : ∀ code pos sfx max res,
    scanLoop (budget r) code pos sfx max scanInit r = Some res →
    match res with
    | Next _ r' | Found _ r' | Failed _ r' =>
        ∃ consumed, remaining r = consumed ++ remaining r'
    | Crashed => True
    end) by (intros; by eapply scanLoop_forward).
  destruct inst as [pos mtch|pos size capture|pos sfx capture max
                    |pos size outSize|pos sfx outSize max]; simpl;
    unfold genInstConst, genInstVarWithSize, genInstIntWithSize,
      genInstVarWithoutSize, genInstIntWithoutSize.
  - destruct (fill _ _ _ _ _) as [[x r1]|] eqn:Hf; [|done].
    apply Hfill in Hf. repeat case_match; simpl; try done; by intros [= <-].
  - case_bool_decide; [done|].
    destruct (fill _ _ _ _ _) as [[x r1]|] eqn:Hf; [|done].
    apply Hfill in Hf. repeat case_match; simpl; try done; by intros [= <-].
  - destruct (scanLoop _ _ _ _ _ _ _) as [res|] eqn:Hloop; [|done].
    apply Hscan in Hloop. destruct res; simpl; try done; by intros [= <-].
  - case_bool_decide; [done|].
    destruct (fill _ _ _ _ _) as [[x r1]|] eqn:Hf; [|done].
    apply Hfill in Hf. repeat case_match; simpl; try done; by intros [= <-].
  - destruct (scanLoop _ _ _ _ _ _ _) as [res|] eqn:Hloop; [|done].
    apply Hscan in Hloop. destruct res; simpl; try done;
      repeat case_match; simpl; try done; by intros [= <-].
Qed.

(** ** The loop of MatchReader *)

(** Running a matcher is running its first instructions, then the others
    from the captures, cells and reader the first ones leave; an error or
    a panic among the first ones is the result, and the others do not
    run. *)
Lemma matchLoop_app insts1 insts2 : ∀ binds h r,
  matchLoop (insts1 ++ insts2) binds h r
  = match matchLoop insts1 binds h r with
    | Matched binds' h' r' => matchLoop insts2 binds' h' r'
    | res => res
    end.
Proof.
  induction insts1 as [|inst insts1 IH]; intros binds h r; [done|].
  simpl. destruct (call inst h r); done.
Qed.

Lemma matchLoop_forward insts : ∀ binds h r,
  match matchLoop insts binds h r with
  | Matched _ _ r' | MatchError _ _ r' =>
      ∃ consumed, remaining r = consumed ++ remaining r'
  | MatchPanic | MatchSpin => True
  end.
Proof.
  induction insts as [|inst insts IH]; intros binds h r; simpl.
  - exists []. done.
  - pose proof (call_forward inst h r) as Hcall.
    destruct (call inst h r) as [b h1 r1|e h1 r1| |]; simpl in *; try done.
    + destruct (Hcall r1 eq_refl) as [c1 Hc1].
      specialize (IH (match b with Some b0 => binds ++ [b0] | None => binds end)
                    h1 r1).
      destruct (matchLoop _ _ _ _); try done; destruct IH as [c2 Hc2];
        exists (c1 ++ c2); by rewrite Hc1, Hc2, (assoc (++)).
    + by apply Hcall.
Qed.

(** X6. [MatchReader] only reads forward: whether it returns captures or
    an error, what it leaves in the reader is the end of what it found
    there. *)
Theorem match_reads_forward tpm h r :
  match MatchReader tpm h r with
  | Matched _ _ r' | MatchError _ _ r' =>
      ∃ consumed, remaining r = consumed ++ remaining r'
  | MatchPanic | MatchSpin => True
  end.
Proof. apply matchLoop_forward. Qed.

(** X7. Running the instructions [insts1 ++ insts2] is running [insts1],
    then [insts2] from the captures, cells and reader [insts1] leaves; an
    error or a panic of [insts1] is the result, and [insts2] does not
    run. *)
Theorem match_sequencing insts1 insts2 binds h r :
  matchLoop (insts1 ++ insts2) binds h r
  = match matchLoop insts1 binds h r with
    | Matched binds' h' r' => matchLoop insts2 binds' h' r'
    | res => res
    end.
Proof. apply matchLoop_app. Qed.

(** ** Panics at run time *)

(** One turn of the scan under any limit below 2^62: the buffer stays
    within the limit or the 16 bytes it starts with, and no slice is out of
    range. *)
Lemma scanStep_safe code pos sfx max st r :
  (max < 2 ^ 62)%Z →
  scanInv sfx (16 `max` max)%Z st →
  match scanStep code pos sfx max st r with
  | Next st' _ => scanInv sfx (16 `max` max)%Z st'
  | Crashed => False
  | Found _ _ | Failed _ _ => True
  end.
Proof.
  intros Hmax (Hidx & Hbs & Hlen & Hm). unfold scanStep.
  rewrite bool_decide_eq_true_2 by lia.
  destruct (Read r 1) as [[data [e|]] r1] eqn:HR; [done|].
  apply Read_length in HR.
  assert (Hw : length (writeAt (buf st) (idx st) data) = length (buf st))
    by (apply writeAt_length; lia).
  assert (Hg : ∀ m, (m = 0 ∨ m + length sfx ≤ S (S (idx st))) →
    match scanGrow pos max
            (mkScan (S (idx st)) m (bs st) (writeAt (buf st) (idx st) data)) r1 with
    | Next st' _ => scanInv sfx (16 `max` max)%Z st'
    | Crashed => False
    | Found _ _ | Failed _ _ => True
    end).
  { intros m Hm'. unfold scanGrow. simpl. case_bool_decide as Hfull.
    - rewrite wrapInt_small by lia. repeat case_bool_decide; simpl; [done|lia|].
      unfold scanInv. simpl. rewrite length_take, length_app, length_replicate.
      repeat split; lia.
    - unfold scanInv. simpl. repeat split; lia. }
  case_bool_decide as HL.
  - rewrite bool_decide_eq_true_2 by lia.
    destruct (bytesEqual _ _); [done|]. apply Hg. lia.
  - apply Hg. lia.
Qed.

Lemma scanLoop_safe fuel : ∀ code pos sfx max st r,
  (max < 2 ^ 62)%Z →
  scanInv sfx (16 `max` max)%Z st →
  scanLoop fuel code pos sfx max st r ≠ Some Crashed.
Proof.
  induction fuel as [|fuel IH]; intros code pos sfx max st r Hmax Hinv; [done|].
  simpl. pose proof (scanStep_safe code pos sfx max st r Hmax Hinv) as Hs.
  destruct (scanStep code pos sfx max st r); try done. by apply IH.
Qed.

Lemma call_panic inst h r :
  (∀ max, limitOf inst = Some max → (max < 2 ^ 62)%Z) →
  call inst h r = Panic
  ↔ ∃ size, sizePtr inst = Some size
            ∧ (load h size < 0 ∨ maxAlloc < load h size)%Z.
Proof.
  intros Hlimit.
  assert (Hscan : ∀ code pos sfx max, (max < 2 ^ 62)%Z →
    scanLoop (budget r) code pos sfx max scanInit r ≠ Some Crashed).
  { intros. apply scanLoop_safe; [done|]. apply scanInit_inv. lia. }
  destruct inst as [pos mtch|pos size capture|pos sfx capture max
                    |pos size outSize|pos sfx outSize max]; simpl;
    unfold genInstConst, genInstVarWithSize, genInstIntWithSize,
      genInstVarWithoutSize, genInstIntWithoutSize.
  - split; [|by intros (? & ? & _)].
    destruct (fill_fresh (length mtch) r) as (r1 & -> & _). by repeat case_match.
  - case_bool_decide as Hneg.
    + split; [eauto|done].
    + split; [|by intros (? & [= <-] & ?)].
      destruct (fill_fresh (Z.to_nat (load h size)) r) as (r1 & -> & _).
      by repeat case_match.
  - split; [|by intros (? & ? & _)].
    specialize (Hscan ErrVarNotMuch pos sfx max (Hlimit max eq_refl)).
    destruct (scanLoop _ _ _ _ _ _ _) as [[| | |]|]; done.
  - case_bool_decide as Hneg.
    + split; [eauto|done].
    + split; [|by intros (? & [= <-] & ?)].
      destruct (fill_fresh (Z.to_nat (load h size)) r) as (r1 & -> & _).
      by repeat case_match.
  - split; [|by intros (? & ? & _)].
    specialize (Hscan ErrIntVarNotMuch pos sfx max (Hlimit max eq_refl)).
    destruct (scanLoop _ _ _ _ _ _ _) as [[| | |]|]; try done.
    by case_match.
Qed.

(** X8. The one way an instruction panics is a size [make] does not
    take: with the limit of a scanning instruction no more than
    [maxAlloc], a call panics exactly when the instruction is a sized one
    and its size cell holds a negative number or a number beyond
    [maxAlloc]. Constants, scanning instructions and sized instructions
    with a size from 0 to [maxAlloc] always return a buffer or an error. *)
Theorem panic_is_size_out_of_range inst h r :
  (∀ max, limitOf inst = Some max → (max ≤ maxAlloc)%Z) →
  call inst h r = Panic
  ↔ ∃ size, sizePtr inst = Some size
            ∧ (load h size < 0 ∨ maxAlloc < load h size)%Z.
Proof.
  intros Hlimit. apply call_panic. intros max Hmax.
  specialize (Hlimit max Hmax). unfold maxAlloc in Hlimit. lia.
Qed.

Lemma panic_is_size_out_of_range_witness :
  let inst := InstVarWithSize 10 (mkPtr 0 0) false in
  let h := [[(2 ^ 63 - 1)%Z]] in
  call inst h (NewReader (bytesOf "dead")) = Panic
  ↔ ∃ size, sizePtr inst = Some size
            ∧ (load h size < 0 ∨ maxAlloc < load h size)%Z.
Proof.
  intros inst h.
  apply (panic_is_size_out_of_range inst h (NewReader (bytesOf "dead"))).
  intros max. simpl. discriminate.
Defined.

(** ** The limit of the scanning instructions *)

Lemma foldl_applyOption_max opts : ∀ tpm,
  maxVarSize (foldl applyOption tpm opts)
  = match last opts with
    | Some (WithMaxVariableSize max) => max
    | None => maxVarSize tpm
    end.
Proof.
  induction opts as [|[m] opts IH]; intros tpm; [done|].
  simpl. rewrite IH. destruct opts as [|o opts]; [done|].
  change (last (WithMaxVariableSize m :: o :: opts)) with (last (o :: opts)).
  destruct (last (o :: opts)) as [[m']|] eqn:Hl; [done|].
  by apply last_None in Hl.
Qed.

Lemma newMatcher_max opts : maxVarSize (newMatcher opts) = limitOfOptions opts.
Proof.
  unfold newMatcher, limitOfOptions.
  pose proof (foldl_applyOption_max opts (mkMatcher [] nilSlice 0)) as Hf.
  destruct (last opts) as [[m]|]; simpl in Hf.
  - case_bool_decide as H0; simpl.
    + rewrite Hf in H0. by rewrite bool_decide_eq_true_2.
    + rewrite Hf in H0. rewrite bool_decide_eq_false_2 by done. by rewrite Hf.
  - by rewrite bool_decide_eq_true_2.
Qed.

Section LimitFacts.

Variable growcap : nat → nat → nat.

Lemma compileLine_limit pos line st st' :
  compileLine growcap pos line st = StepOk st' →
  maxVarSize (matcher st') = maxVarSize (matcher st)
  ∧ (limitedBy (maxVarSize (matcher st)) (instSlice (matcher st)) →
     limitedBy (maxVarSize (matcher st)) (instSlice (matcher st'))).
Proof.
  assert (Hsized : ∀ st1, (∃ inst,
      instSlice (matcher st1) = instSlice (matcher st) ++ [inst]
      ∧ fixedSize inst = true ∧ state st1 = state st) →
    limitedBy (maxVarSize (matcher st)) (instSlice (matcher st)) →
    limitedBy (maxVarSize (matcher st)) (instSlice (matcher st1))).
  { intros st1 (inst & -> & Hfix & _) Hall. apply Forall_app. split; [done|].
    repeat constructor. intros m. by destruct inst. }
  assert (Hmax1 : ∀ tok capture st1,
    compileSized growcap pos tok capture st = StepOk st1 →
    maxVarSize (matcher st1) = maxVarSize (matcher st)).
  { intros tok capture st1. unfold compileSized, withCell.
    repeat case_match; try done; intros [= <-]; unfold emit; simpl;
      by rewrite ?pushCell_max. }
  assert (Hmax2 : ∀ var tok st1,
    compileSizedInt growcap pos var tok st = StepOk st1 →
    maxVarSize (matcher st1) = maxVarSize (matcher st)).
  { intros var tok st1. unfold compileSizedInt, withCell.
    repeat case_match; try done; intros [= <-]; unfold emit, bindLast; simpl;
      by rewrite ?pushCell_max. }
  intros Hline. destruct line as [|c0 line']; [done|].
  unfold compileLine in Hline.
  destruct (Ascii.eqb c0 "_").
  { revert Hline. repeat case_match; try done.
    - intros [= <-]. by split.
    - intros Hs. split; [by eapply Hmax1|].
      apply Hsized. by eapply compileSized_sized. }
  destruct (Contains (String c0 line') "/").
  { revert Hline. repeat case_match; try done;
      try (intros [= <-]; by split).
    - intros Hs. split; [by eapply Hmax1|].
      apply Hsized. by eapply compileSized_sized.
    - intros Hs. split; [by eapply Hmax2|].
      apply Hsized. by eapply compileSizedInt_sized. }
  revert Hline. unfold withCell.
  repeat case_match; try done; intros [= <-]; unfold emit, bindLast; simpl;
    rewrite ?pushCell_max, ?pushCell_insts; (split; [done|]);
    intros Hall; apply Forall_app; (split; [done|]); repeat constructor;
    simpl; try done; by intros m [= <-].
Qed.

Lemma compileLoop_limit raws : ∀ final st pos tpm h,
  limitedBy (maxVarSize (matcher st)) (instSlice (matcher st)) →
  compileLoop growcap raws final st pos = Compiled tpm h →
  maxVarSize tpm = maxVarSize (matcher st)
  ∧ limitedBy (maxVarSize tpm) (instSlice tpm).
Proof.
  assert (Hraw : ∀ pos raw st st', compileRaw growcap pos raw st = StepOk st' →
    maxVarSize (matcher st') = maxVarSize (matcher st)
    ∧ (limitedBy (maxVarSize (matcher st)) (instSlice (matcher st)) →
       limitedBy (maxVarSize (matcher st)) (instSlice (matcher st')))).
  { intros pos raw st st'. unfold compileRaw. destruct (trimLine raw); [|done].
    apply compileLine_limit. }
  induction raws as [|raw0 raws IH]; intros final st pos tpm h Hall;
    cbn [compileLoop].
  - destruct (compileRaw growcap pos final st) as [st'| |] eqn:Hr; [|done..].
    destruct (Hraw _ _ _ _ Hr) as [Hmax Hkeep].
    case_bool_decide; [|done]. intros [= <- <-]. split; [done|].
    rewrite Hmax. by apply Hkeep.
  - destruct (compileRaw growcap pos raw0 st) as [st'| |] eqn:Hr; [|done..].
    destruct (Hraw _ _ _ _ Hr) as [Hmax Hkeep]. intros Hloop.
    apply IH in Hloop; [by rewrite <- Hmax|]. rewrite Hmax. by apply Hkeep.
Qed.

End LimitFacts.

(** X9. The options set one limit for the whole matcher: the value of
    the last [WithMaxVariableSize], or 4096 when that value is zero or no
    option is given. The limit of a compiled matcher is never zero, and
    every scanning instruction in it carries that limit. *)
Theorem compiled_limit growcap pattern opts tpm h :
  Compile growcap pattern opts = Compiled tpm h →
  maxVarSize tpm = limitOfOptions opts
  ∧ maxVarSize tpm ≠ 0%Z
  ∧ limitedBy (limitOfOptions opts) (instSlice tpm).
Proof.
  unfold Compile. destruct (splitRaw pattern) as [raws final]. intros Hloop.
  apply compileLoop_limit in Hloop as [Hmax Hall].
  2:{ unfold startState. simpl. rewrite newMatcher_insts. constructor. }
  unfold startState in Hmax. simpl in Hmax. rewrite newMatcher_max in Hmax.
  rewrite <- Hmax. split; [done|]. split; [|done].
  rewrite Hmax. unfold limitOfOptions. destruct (last opts) as [[m]|]; [|done].
  by case_bool_decide.
Qed.

Lemma compiled_limit_witness :
  let tpm :=
    mkMatcher [InstVarWithoutSize 3 (bytesOf CRLF) false 32] nilSlice 32 in
  maxVarSize tpm = limitOfOptions [WithMaxVariableSize 8; WithMaxVariableSize 32]
  ∧ maxVarSize tpm ≠ 0%Z
  ∧ limitedBy (limitOfOptions [WithMaxVariableSize 8; WithMaxVariableSize 32])
      (instSlice tpm).
Proof.
  intros tpm.
  apply (compiled_limit growslice (cat ["_,"; CRLF])
           [WithMaxVariableSize 8; WithMaxVariableSize 32] tpm []).
  vm_compute. reflexivity.
Defined.

(** ** What the scanning instructions find *)

Lemma cap_S k : cap (S k) = 2 * cap k.
Proof. unfold cap. rewrite Nat.pow_succ_r'. lia. Qed.

Lemma cap_ge k : 16 ≤ cap k.
Proof.
  unfold cap. assert (0 < 2 ^ k) by (apply Nat.neq_0_lt_0, Nat.pow_nonzero; lia).
  lia.
Qed.

Lemma cap_mono m k : m ≤ k → cap m ≤ cap k.
Proof. intros. unfold cap. apply Nat.mul_le_mono_l, Nat.pow_le_mono_r; lia. Qed.

Lemma cap_lt m k : cap m < cap k → cap (S m) ≤ cap k.
Proof.
  intros Hlt. apply cap_mono. destruct (decide (S m ≤ k)) as [|Hn]; [done|].
  assert (cap k ≤ cap m) by (apply cap_mono; lia). lia.
Qed.

Lemma Read_one r b tl :
  readsBytes r → remaining r = b :: tl →
  ∃ r', Read r 1 = ([b], None, r') ∧ remaining r' = tl ∧ readsBytes r'.
Proof.
  unfold readsBytes, remaining, Read. destruct (chunks r) as [|c cs]; [done|].
  intros [Hc Hcs]%Forall_cons. destruct c as [|b' c']; [done|].
  simpl. intros [= -> <-]. case_bool_decide as Hl.
  - destruct c'; [|simpl in Hl; lia]. eexists. by repeat split.
  - eexists. split; [done|]. simpl. rewrite drop_0. split; [done|].
    apply Forall_cons. split; [|done].
    destruct c'; [simpl in Hl; lia|done].
Qed.

Lemma window_take {A} (X : list A) i L n :
  i + L ≤ n → take L (drop i (take n X)) = take L (drop i X).
Proof.
  intros. rewrite !take_drop_commute, take_take. f_equal. f_equal. lia.
Qed.

Lemma writeAt_next buf input j b :
  j < length buf → take j buf = take j input → input !! j = Some b →
  take (S j) (writeAt buf j [b]) = take (S j) input.
Proof.
  intros Hj Hpre Hb. unfold writeAt. simpl.
  rewrite (take_S_r input j b) by done. rewrite <- Hpre.
  rewrite take_app_ge by (rewrite length_take; lia).
  rewrite length_take. replace (S j - j `min` length buf) with 1 by lia.
  done.
Qed.

Section ScanFacts.

Variables (code : ErrorCode) (pos : Z) (sfx : list ascii) (max : Z).
Variable input : list ascii.
Hypothesis Hsfx : sfx ≠ [].
Hypothesis Hmax : (max < 2 ^ 62)%Z.

Lemma scanInit_scanned r :
  readsBytes r → remaining r = input → scanned sfx input max 0 scanInit r.
Proof.
  intros Hrb Hrem. assert (0 < length sfx) by (destruct sfx; [done|simpl; lia]).
  unfold scanned, scanInit. simpl.
  split; [done|]. split; [lia|]. split.
  { exists 0. unfold cap. simpl. split; [done|]. split; [lia|by left]. }
  repeat split; try done; lia.
Qed.

(** The end of a turn that has read byte [j1] without finding the
    suffix. *)
Lemma scanGrow_spec st1 r1 m :
  bs st1 = Z.of_nat (cap m) → idx st1 ≤ cap m →
  m = 0 ∨ (Z.of_nat (cap m) ≤ max)%Z →
  length (buf st1) = cap m →
  match scanGrow pos max st1 r1 with
  | Next st' r' =>
      r' = r1 ∧ idx st' = idx st1 ∧ midx st' = midx st1
      ∧ (∃ m', bs st' = Z.of_nat (cap m') ∧ idx st1 < cap m'
               ∧ (m' = 0 ∨ (Z.of_nat (cap m') ≤ max)%Z))
      ∧ length (buf st') = Z.to_nat (bs st')
      ∧ take (idx st1) (buf st') = take (idx st1) (buf st1)
  | Failed e r' =>
      r' = r1 ∧ e = mkError (ErrVarExceedMaxSize max) pos None
      ∧ idx st1 = cap m ∧ (max < 2 * Z.of_nat (cap m))%Z
  | Found _ _ | Crashed => False
  end.
Proof.
  intros Hbs Hidx Hm Hlen. unfold scanGrow. pose proof (cap_ge m) as Hge.
  assert (Hc : (Z.of_nat (cap m) < 2 ^ 62)%Z).
  { destruct Hm as [->|]; [unfold cap; simpl; lia|lia]. }
  case_bool_decide as Hfull.
  - rewrite Hbs, wrapInt_small by lia. case_bool_decide as Hover.
    + repeat split; lia.
    + rewrite bool_decide_eq_false_2 by lia. simpl.
      replace (Z.of_nat (cap m) * 2)%Z with (Z.of_nat (cap (S m)))
        by (rewrite cap_S; lia).
      rewrite Nat2Z.id. repeat split; try done.
      * exists (S m). split; [done|]. rewrite cap_S. split; [lia|right; lia].
      * rewrite length_take, length_app, length_replicate. lia.
      * rewrite take_take, Nat.min_l by (rewrite cap_S; lia).
        by rewrite take_app_le by lia.
  - simpl. repeat split; try done.
    + exists m. repeat split; [done|lia|done].
    + rewrite Hbs, Nat2Z.id. done.
Qed.

(** What one turn comes to after [j] turns without the suffix. *)
Lemma scanStep_spec j st r :
  scanned sfx input max j st r →
  match scanStep code pos sfx max st r with
  | Found st' r' =>
      j < length input ∧ length sfx ≤ S j
      ∧ occursAt sfx input (S j - length sfx)
      ∧ take (midx st') (buf st') = take (S j - length sfx) input
      ∧ remaining r' = drop (S j) input
  | Next st' r' => scanned sfx input max (S j) st' r'
  | Failed e r' =>
      (j = length input ∧ e = mkError code pos (Some EOF) ∧ remaining r' = [])
      ∨ (j < length input ∧ e = mkError (ErrVarExceedMaxSize max) pos None
         ∧ remaining r' = drop (S j) input
         ∧ (∀ i, i + length sfx ≤ S j → ¬ occursAt sfx input i)
         ∧ ∃ m, S j = cap m ∧ (m = 0 ∨ (Z.of_nat (cap m) ≤ max)%Z)
                ∧ (max < 2 * Z.of_nat (cap m))%Z)
  | Crashed => False
  end.
Proof.
  intros (Hidx & Hmidx & (m & Hbs & Hjm & Hm) & Hlen & Hpre & Hrem & Hrb & Hj & Hno).
  assert (HL : 0 < length sfx) by (destruct sfx; [done|simpl; lia]).
  rewrite Hbs, Nat2Z.id in Hlen.
  unfold scanStep. rewrite bool_decide_eq_true_2 by lia.
  destruct (decide (j < length input)) as [Hlt|Hge].
  2:{ assert (Hnil : chunks r = []).
      { rewrite drop_ge in Hrem by lia. unfold remaining, readsBytes in *.
        destruct (chunks r) as [|c cs]; [done|].
        apply Forall_cons in Hrb as [Hc _]. destruct c; [done|]. done. }
      unfold Read. rewrite Hnil. left. split; [lia|]. by split. }
  destruct (lookup_lt_is_Some_2 input j Hlt) as [b Hb].
  destruct (Read_one r b (drop (S j) input)) as (r' & HR & Hrem' & Hrb');
    [done|by rewrite Hrem; apply drop_S|].
  rewrite HR. cbv beta iota. rewrite Hidx.
  assert (Hl1 : length (writeAt (buf st) j [b]) = cap m)
    by (rewrite writeAt_length; simpl; lia).
  assert (Hp1 : take (S j) (writeAt (buf st) j [b]) = take (S j) input)
    by (apply writeAt_next; [lia|done..]).
  assert (Hwin : ∀ i, i + length sfx ≤ S j →
    take (length sfx) (drop i (writeAt (buf st) j [b]))
    = take (length sfx) (drop i input)).
  { intros i Hi. rewrite <- (window_take _ i _ (S j)) by done.
    rewrite Hp1. by apply window_take. }
  assert (Hgrow : ∀ mi, mi = S (S j) - length sfx →
    (∀ i, i + length sfx ≤ S j → ¬ occursAt sfx input i) →
    match scanGrow pos max (mkScan (S j) mi (bs st) (writeAt (buf st) j [b])) r' with
    | Next st' r'' => scanned sfx input max (S j) st' r''
    | Failed e r'' =>
        (j = length input ∧ e = mkError code pos (Some EOF) ∧ remaining r'' = [])
        ∨ (j < length input ∧ e = mkError (ErrVarExceedMaxSize max) pos None
           ∧ remaining r'' = drop (S j) input
           ∧ (∀ i, i + length sfx ≤ S j → ¬ occursAt sfx input i)
           ∧ ∃ m, S j = cap m ∧ (m = 0 ∨ (Z.of_nat (cap m) ≤ max)%Z)
                  ∧ (max < 2 * Z.of_nat (cap m))%Z)
    | Found _ _ | Crashed => False
    end).
  { intros mi Hmi Hno'.
    pose proof (scanGrow_spec (mkScan (S j) mi (bs st) (writeAt (buf st) j [b]))
                  r' m Hbs) as Hg. simpl in Hg.
    specialize (Hg ltac:(lia) Hm Hl1).
    destruct (scanGrow _ _ _ _) as [st' r''| |e r''|]; try done.
    - destruct Hg as (-> & Hi' & Hm' & Hcap & Hlen' & Hpre').
      unfold scanned. rewrite Hi', Hm', Hpre', Hp1. repeat split; try done; lia.
    - destruct Hg as (-> & -> & Hfull & Hover). right.
      repeat split; try done. exists m. by repeat split. }
  case_bool_decide as HLj.
  - rewrite bool_decide_eq_true_2 by lia. unfold bytesEqual.
    case_bool_decide as Heq.
    + simpl. rewrite Hmidx, Hwin in Heq by lia.
      repeat split; try done.
      assert (Hcut : ∀ X : list ascii,
        take (S j - length sfx) X = take (S j - length sfx) (take (S j) X))
        by (intros X; by rewrite take_take, Nat.min_l by lia).
      by rewrite Hmidx, Hcut, Hp1, <- Hcut.
    + assert (Hno' : ∀ i, i + length sfx ≤ S j → ¬ occursAt sfx input i).
      { intros i Hi Hocc.
        destruct (decide (i + length sfx ≤ j)) as [Hold|Hnew]; [by eapply Hno|].
        apply Heq. rewrite Hmidx, Hwin by lia.
        replace (S j - length sfx) with i by lia. done. }
      pose proof (Hgrow (S (midx st)) ltac:(lia) Hno') as Hg.
      by destruct (scanGrow _ _ _ _).
  - assert (Hno' : ∀ i, i + length sfx ≤ S j → ¬ occursAt sfx input i)
      by (intros i Hi; lia).
    pose proof (Hgrow (midx st) ltac:(lia) Hno') as Hg.
    by destruct (scanGrow _ _ _ _).
Qed.

(** Every state the loop goes through is one of these. *)
Lemma scanReach_scanned r0 st r :
  readsBytes r0 → remaining r0 = input →
  scanReach code pos sfx max r0 st r → ∃ j, scanned sfx input max j st r.
Proof.
  intros Hrb Hrem. induction 1 as [|st r st' r' _ [j IH] Hstep].
  - exists 0. by apply scanInit_scanned.
  - exists (S j). pose proof (scanStep_spec j st r IH) as Hs.
    by rewrite Hstep in Hs.
Qed.

End ScanFacts.

Lemma occursAt_here pre sfx rest : occursAt sfx (pre ++ sfx ++ rest) (length pre).
Proof. unfold occursAt. by rewrite drop_app_length, take_app_length. Qed.

Lemma fits_doubles max t m :
  fits max t → cap m < t → (2 * Z.of_nat (cap m) ≤ max)%Z.
Proof.
  intros (k & Ht & Hk) Hm. pose proof (cap_ge m). 
  assert (Hlt : cap m < cap k) by lia. apply cap_lt in Hlt as Hle.
  rewrite cap_S in Hle. destruct Hk as [->|Hk]; [unfold cap in Hlt at 2; simpl in Hlt; lia|lia].
Qed.

Lemma doubled_within max m j :
  j < cap m → m = 0 ∨ (Z.of_nat (cap m) ≤ max)%Z →
  ∀ k, cap k ≤ j → (2 * Z.of_nat (cap k) ≤ max)%Z.
Proof.
  intros Hj Hm k Hk. pose proof (cap_ge k).
  assert (Hlt : cap k < cap m) by lia. apply cap_lt in Hlt as Hle.
  rewrite cap_S in Hle. destruct Hm as [->|Hm]; [unfold cap in Hlt at 2; simpl in Hlt; lia|lia].
Qed.

(** The loop of a scanning instruction ends with the result of a turn
    taken after some number of turns without the suffix. *)
Lemma scanLoop_scanned code pos sfx max r :
  sfx ≠ [] → (max < 2 ^ 62)%Z → readsBytes r →
  ∃ res j st1 r1,
    scanLoop (budget r) code pos sfx max scanInit r = Some res
    ∧ scanned sfx (remaining r) max j st1 r1
    ∧ scanStep code pos sfx max st1 r1 = res
    ∧ ∀ st' r', res ≠ Next st' r'.
Proof.
  intros Hsfx Hmax Hrb.
  destruct (scanLoop_ends (budget r) code pos sfx max scanInit r)
    as (res & Hloop & Hres); [unfold budget, weight; lia|].
  destruct (scanLoop_reach code pos sfx max r (budget r) scanInit r res
              (reach_init _ _ _ _ _) Hloop) as (st1 & r1 & Hreach & Hstep).
  destruct (scanReach_scanned code pos sfx max (remaining r) Hsfx Hmax r st1 r1
              Hrb eq_refl Hreach) as [j Hj].
  by exists res, j, st1, r1.
Qed.

(** The suffix first stands after [pre], and the scan up to its end
    fits: the loop finds it there. *)
Lemma scanLoop_found code pos sfx max r pre rest :
  sfx ≠ [] → (max < 2 ^ 62)%Z → readsBytes r →
  remaining r = pre ++ sfx ++ rest →
  (∀ i, i < length pre → ¬ occursAt sfx (pre ++ sfx ++ rest) i) →
  fits max (length pre + length sfx) →
  ∃ st' r', scanLoop (budget r) code pos sfx max scanInit r = Some (Found st' r')
            ∧ take (midx st') (buf st') = pre ∧ remaining r' = rest.
Proof.
  intros Hsfx Hmax Hrb Hrem Hfirst Hfits.
  destruct (scanLoop_scanned code pos sfx max r Hsfx Hmax Hrb)
    as (res & j & st1 & r1 & Hloop & Hj & Hstep & Hres).
  pose proof (scanStep_spec code pos sfx max (remaining r) Hsfx Hmax j st1 r1 Hj) as Hs.
  rewrite Hstep in Hs. rewrite Hloop. rewrite Hrem in *.
  destruct Hj as (_ & _ & _ & _ & _ & _ & _ & Hjlen & Hno).
  pose proof (occursAt_here pre sfx rest) as Hhere.
  assert (Hlen : length (pre ++ sfx ++ rest) = length pre + length sfx + length rest)
    by (rewrite !length_app; lia).
  destruct res as [st' r'|st' r'|e r'|]; [by edestruct Hres| | |done].
  - destruct Hs as (Hlt & HL & Hocc & Htake & Hrest).
    assert (Hp : S j - length sfx = length pre).
    { destruct (decide (S j - length sfx < length pre)) as [Hb|Hb];
        [by apply Hfirst in Hocc|].
      destruct (decide (length pre + length sfx ≤ j)) as [Ha|Ha];
        [by apply Hno in Hhere|]. lia. }
    exists st', r'. split; [done|]. rewrite Htake, Hrest, Hp.
    replace (S j) with (length pre + length sfx) by lia.
    rewrite take_app_length. split; [done|].
    by rewrite <- drop_drop, drop_app_length, drop_app_length.
  - exfalso. destruct Hs as [(-> & _)|(Hlt & _ & _ & Hno' & m & Hfull & _ & Hover)].
    + apply (Hno (length pre)); [lia|done].
    + destruct (decide (length pre + length sfx ≤ S j)) as [Ha|Ha];
        [by apply Hno' in Hhere|].
      pose proof (fits_doubles max _ m Hfits). lia.
Qed.

(** The suffix stands nowhere in the input, and a scan of one byte more
    than the input fits: the loop ends at the end of the input. *)
Lemma scanLoop_eof code pos sfx max r :
  sfx ≠ [] → (max < 2 ^ 62)%Z → readsBytes r →
  (∀ i, ¬ occursAt sfx (remaining r) i) →
  fits max (S (length (remaining r))) →
  ∃ r', scanLoop (budget r) code pos sfx max scanInit r
        = Some (Failed (mkError code pos (Some EOF)) r')
        ∧ remaining r' = [].
Proof.
  intros Hsfx Hmax Hrb Hnone Hfits.
  destruct (scanLoop_scanned code pos sfx max r Hsfx Hmax Hrb)
    as (res & j & st1 & r1 & Hloop & Hj & Hstep & Hres).
  pose proof (scanStep_spec code pos sfx max (remaining r) Hsfx Hmax j st1 r1 Hj) as Hs.
  rewrite Hstep in Hs. rewrite Hloop.
  destruct res as [st' r'|st' r'|e r'|]; [by edestruct Hres| | |done].
  - destruct Hs as (_ & _ & Hocc & _). by apply Hnone in Hocc.
  - destruct Hs as [(_ & -> & Hrest)|(Hlt & _ & _ & _ & m & Hfull & _ & Hover)];
      [by exists r'|].
    pose proof (fits_doubles max _ m Hfits). lia.
Qed.

(** The buffer is full at [cap k] bytes without the suffix among them,
    and may not be doubled: the loop ends there. *)
Lemma scanLoop_exceed code pos sfx max r k :
  sfx ≠ [] → (max < 2 ^ 62)%Z → readsBytes r →
  cap k ≤ length (remaining r) →
  (∀ i, i + length sfx ≤ cap k → ¬ occursAt sfx (remaining r) i) →
  k = 0 ∨ (Z.of_nat (cap k) ≤ max)%Z → (max < 2 * Z.of_nat (cap k))%Z →
  ∃ r', scanLoop (budget r) code pos sfx max scanInit r
        = Some (Failed (mkError (ErrVarExceedMaxSize max) pos None) r')
        ∧ remaining r' = drop (cap k) (remaining r).
Proof.
  intros Hsfx Hmax Hrb Hlen Hnone Hk Hover.
  destruct (scanLoop_scanned code pos sfx max r Hsfx Hmax Hrb)
    as (res & j & st1 & r1 & Hloop & Hj & Hstep & Hres).
  pose proof (scanStep_spec code pos sfx max (remaining r) Hsfx Hmax j st1 r1 Hj) as Hs.
  rewrite Hstep in Hs. rewrite Hloop.
  destruct Hj as (_ & _ & (m & _ & Hjm & Hm) & _ & _ & _ & _ & Hjlen & Hno).
  pose proof (doubled_within max m j Hjm Hm k) as Hdbl.
  destruct res as [st' r'|st' r'|e r'|]; [by edestruct Hres| | |done].
  - exfalso. destruct Hs as (Hlt & HL & Hocc & _).
    destruct (decide (S j ≤ cap k)) as [Ha|Ha]; [|lia].
    apply Hnone in Hocc; [done|lia].
  - destruct Hs as [(-> & _)|(Hlt & -> & Hrest & _ & m' & Hfull & Hm' & Hover')];
      [lia|].
    exists r'. split; [done|]. rewrite Hrest. f_equal.
    destruct (decide (cap m' < cap k)) as [Ha|Ha].
    { apply cap_lt in Ha. rewrite cap_S in Ha. pose proof (cap_ge m').
      destruct Hk as [->|Hk]; [unfold cap in Ha at 2; simpl in Ha; lia|lia]. }
    destruct (decide (cap k < cap m')) as [Hb|Hb]; [|lia].
    apply cap_lt in Hb. rewrite cap_S in Hb. pose proof (cap_ge k).
    destruct Hm' as [->|Hm']; [unfold cap in Hb at 2; simpl in Hb; lia|lia].
Qed.

(** X10. On a reader that delivers at least a byte at every read, with
    a suffix that is not empty and a limit below 2^62, the
    VarSuffix instruction takes the input up to the first place the
    suffix stands at: with the input [pre ++ suffix ++ rest], the suffix
    nowhere earlier, and the [len(pre) + len(suffix)] bytes within the
    16 of the first buffer or within a doubled buffer that the limit
    allows, it returns [pre] when it captures and nil when it does not,
    consumes the suffix with it, leaves [rest], and touches no cell. *)
Theorem var_without_size_takes_first pos sfx capture max h r pre rest :
  sfx ≠ [] → (max < 2 ^ 62)%Z → readsBytes r →
  remaining r = pre ++ sfx ++ rest →
  (∀ i, i < length pre → ¬ occursAt sfx (pre ++ sfx ++ rest) i) →
  fits max (length pre + length sfx) →
  ∃ r', genInstVarWithoutSize pos sfx capture max h r
        = Ret (if capture then Some pre else None) h r'
        ∧ remaining r' = rest.
Proof.
  intros Hsfx Hmax Hrb Hrem Hfirst Hfits. unfold genInstVarWithoutSize.
  destruct (scanLoop_found ErrVarNotMuch pos sfx max r pre rest)
    as (st' & r' & -> & Hpre & Hrest); try done.
  exists r'. by rewrite Hpre.
Qed.

Lemma var_without_size_takes_first_witness :
  ∃ r', genInstVarWithoutSize 4 (bytesOf "buzz") true 16 []
          (mkReader [bytesOf "fo"; bytesOf "obuz"; bytesOf "zbar"] 0)
        = Ret (Some (bytesOf "foo")) [] r'
        ∧ remaining r' = bytesOf "bar".
Proof.
  apply (var_without_size_takes_first 4 (bytesOf "buzz") true 16 []
           (mkReader [bytesOf "fo"; bytesOf "obuz"; bytesOf "zbar"] 0)
           (bytesOf "foo") (bytesOf "bar")).
  - discriminate.
  - lia.
  - repeat constructor; discriminate.
  - reflexivity.
  - intros i Hi.
    destruct i as [|[|[|i]]]; [vm_compute; discriminate..|simpl in Hi; lia].
  - exists 0. split; [vm_compute; lia|by left].
Defined.

(** X11. On a reader that delivers at least a byte at every read, with
    a suffix that is not empty and a limit below 2^62, the
    IntSuffix instruction takes the input up to the first place the
    suffix stands at, when the bytes up to the end of the suffix are
    within the 16 of the first buffer or within a doubled buffer that the
    limit allows. When the bytes before the suffix parse as a 64 bit
    decimal it returns them and writes the number into its out cell; when
    they do not it fails with the error of [ParseInt] for a cause, with
    the suffix consumed as well, and writes nothing. *)
Theorem int_without_size_takes_first pos sfx outSize max h r pre rest :
  sfx ≠ [] → (max < 2 ^ 62)%Z → readsBytes r →
  remaining r = pre ++ sfx ++ rest →
  (∀ i, i < length pre → ¬ occursAt sfx (pre ++ sfx ++ rest) i) →
  fits max (length pre + length sfx) →
  ∃ r', remaining r' = rest
        ∧ genInstIntWithoutSize pos sfx outSize max h r
          = match ParseInt (stringOf pre) with
            | inl v => Ret (Some pre) (store h outSize v) r'
            | inr e =>
                Raise (mkError ErrIntVarNotMuch pos
                         (Some (NumError (stringOf pre) e))) h r'
            end.
Proof.
  intros Hsfx Hmax Hrb Hrem Hfirst Hfits. unfold genInstIntWithoutSize.
  destruct (scanLoop_found ErrIntVarNotMuch pos sfx max r pre rest)
    as (st' & r' & -> & Hpre & Hrest); try done.
  exists r'. by rewrite Hpre.
Qed.

Lemma int_without_size_takes_first_witness :
  ∃ r', remaining r' = bytesOf "beaf"
        ∧ genInstIntWithoutSize 7 (bytesOf CRLF) (mkPtr 0 0) 4096 [[0%Z]]
            (NewReader (bytesOf (cat ["42"; CRLF; "beaf"])))
          = Ret (Some (bytesOf "42")) [[42%Z]] r'.
Proof.
  apply (int_without_size_takes_first 7 (bytesOf CRLF) (mkPtr 0 0) 4096 [[0%Z]]
           (NewReader (bytesOf (cat ["42"; CRLF; "beaf"])))
           (bytesOf "42") (bytesOf "beaf")).
  - discriminate.
  - lia.
  - repeat constructor; discriminate.
  - reflexivity.
  - intros i Hi.
    destruct i as [|[|i]]; [vm_compute; discriminate..|simpl in Hi; lia].
  - exists 0. split; [vm_compute; lia|by left].
Defined.

(** X12. On a reader that delivers at least a byte at every read, with
    a suffix that is not empty and a limit below 2^62, when
    the suffix stands nowhere in the input and the buffer can take one
    byte more than the input, both scanning instructions read the whole
    input and fail with [io.EOF] for a cause: VarSuffix with
    VarNotMatched, IntSuffix with IntVarNotMatched. *)
Theorem scan_without_suffix_fails pos sfx capture outSize max h r :
  sfx ≠ [] → (max < 2 ^ 62)%Z → readsBytes r →
  (∀ i, ¬ occursAt sfx (remaining r) i) →
  fits max (S (length (remaining r))) →
  (∃ r', genInstVarWithoutSize pos sfx capture max h r
         = Raise (mkError ErrVarNotMuch pos (Some EOF)) h r'
         ∧ remaining r' = [])
  ∧ (∃ r', genInstIntWithoutSize pos sfx outSize max h r
           = Raise (mkError ErrIntVarNotMuch pos (Some EOF)) h r'
           ∧ remaining r' = []).
Proof.
  intros Hsfx Hmax Hrb Hnone Hfits.
  unfold genInstVarWithoutSize, genInstIntWithoutSize. split.
  - destruct (scanLoop_eof ErrVarNotMuch pos sfx max r) as (r' & -> & Hrest);
      try done. by exists r'.
  - destruct (scanLoop_eof ErrIntVarNotMuch pos sfx max r) as (r' & -> & Hrest);
      try done. by exists r'.
Qed.

(** X13. On a reader that delivers at least a byte at every read, with
    a suffix that is not empty and a limit below 2^62, when
    the buffer is full at one of its capacities [c] (16 bytes, or a
    doubled buffer the limit allowed) without the suffix among the [c]
    bytes read, and twice [c] is more than the limit, both scanning
    instructions fail with VarExceedsMaxSize(max) without a cause, having
    consumed exactly [c] bytes. *)
Theorem scan_exceeds_limit pos sfx capture outSize max h r k :
  sfx ≠ [] → (max < 2 ^ 62)%Z → readsBytes r →
  cap k ≤ length (remaining r) →
  (∀ i, i + length sfx ≤ cap k → ¬ occursAt sfx (remaining r) i) →
  k = 0 ∨ (Z.of_nat (cap k) ≤ max)%Z → (max < 2 * Z.of_nat (cap k))%Z →
  (∃ r', genInstVarWithoutSize pos sfx capture max h r
         = Raise (mkError (ErrVarExceedMaxSize max) pos None) h r'
         ∧ remaining r' = drop (cap k) (remaining r))
  ∧ (∃ r', genInstIntWithoutSize pos sfx outSize max h r
           = Raise (mkError (ErrVarExceedMaxSize max) pos None) h r'
           ∧ remaining r' = drop (cap k) (remaining r)).
Proof.
  intros Hsfx Hmax Hrb Hlen Hnone Hk Hover.
  unfold genInstVarWithoutSize, genInstIntWithoutSize. split.
  - destruct (scanLoop_exceed ErrVarNotMuch pos sfx max r k) as (r' & -> & Hrest);
      try done. by exists r'.
  - destruct (scanLoop_exceed ErrIntVarNotMuch pos sfx max r k) as (r' & -> & Hrest);
      try done. by exists r'.
Qed.

Lemma scan_without_suffix_fails_witness :
  let r := mkReader [bytesOf "foo"; bytesOf "bar"] 0 in
  (∃ r', genInstVarWithoutSize 4 (bytesOf "buzz") true 16 [] r
         = Raise (mkError ErrVarNotMuch 4 (Some EOF)) [] r'
         ∧ remaining r' = [])
  ∧ (∃ r', genInstIntWithoutSize 4 (bytesOf "buzz") (mkPtr 0 0) 16 [] r
           = Raise (mkError ErrIntVarNotMuch 4 (Some EOF)) [] r'
           ∧ remaining r' = []).
Proof.
  intros r.
  apply (scan_without_suffix_fails 4 (bytesOf "buzz") true (mkPtr 0 0) 16 [] r).
  - discriminate.
  - lia.
  - repeat constructor; discriminate.
  - intros i. unfold occursAt.
    do 7 (destruct i as [|i]; [vm_compute; discriminate|]).
    vm_compute. discriminate.
  - exists 0. split; [vm_compute; lia|by left].
Defined.

Lemma scan_exceeds_limit_witness :
  let r := NewReader (bytesOf "foobarfoobarfoobarbuzz") in
  (∃ r', genInstVarWithoutSize 4 (bytesOf "buzz") true 16 [] r
         = Raise (mkError (ErrVarExceedMaxSize 16) 4 None) [] r'
         ∧ remaining r' = drop (cap 0) (remaining r))
  ∧ (∃ r', genInstIntWithoutSize 4 (bytesOf "buzz") (mkPtr 0 0) 16 [] r
           = Raise (mkError (ErrVarExceedMaxSize 16) 4 None) [] r'
           ∧ remaining r' = drop (cap 0) (remaining r)).
Proof.
  intros r.
  apply (scan_exceeds_limit 4 (bytesOf "buzz") true (mkPtr 0 0) 16 [] r 0).
  - discriminate.
  - lia.
  - repeat constructor; discriminate.
  - vm_compute. lia.
  - intros i Hi. unfold occursAt.
    do 13 (destruct i as [|i]; [vm_compute; discriminate|]).
    unfold cap in Hi. simpl in Hi. lia.
  - by left.
  - vm_compute. reflexivity.
Defined.

(** ** A cell shared by two instructions *)

Lemma load_store h p v : allocated h p → load (store h p v) p = v.
Proof.
  intros (a & Ha & Hi). unfold load, store.
  rewrite list_lookup_alter_eq, Ha. simpl.
  by rewrite list_lookup_insert_eq by done.
Qed.

Lemma load_store_ne h p q v : p ≠ q → load (store h p v) q = load h q.
Proof.
  intros Hne. unfold load, store.
  destruct (decide (parr p = parr q)) as [Heq|Hq].
  - rewrite Heq, list_lookup_alter_eq. destruct (h !! parr q) as [a|]; [|done].
    simpl. rewrite list_lookup_insert_ne; [done|].
    intros Hi. apply Hne. destruct p, q; simpl in *; congruence.
  - by rewrite list_lookup_alter_ne.
Qed.

(** X14. A length-prefixed field. An IntSuffix instruction and a
    VarSized instruction that has the out cell of the first for its size
    cell, the cell being inside the heap, run in turn on a reader that
    delivers at least a byte at every read, the suffix not empty and the
    limit below 2^62: on the input [digits ++ suffix ++ payload ++ rest],
    with the suffix nowhere earlier, [digits] and the suffix within the 16
    bytes of the first buffer or within a doubled buffer that the limit
    allows, and [digits] the decimal of [len(payload)], the two capture
    [digits] and then [payload] ([digits] alone when the second does not
    capture), [rest] is left, and the cell holds the length; unless the
    payload is longer than [maxAlloc], the longest buffer [make] takes,
    and then the second instruction panics. *)
Theorem length_prefixed_field p1 p2 sfx out capture max binds h r digits payload rest :
  sfx ≠ [] → (max < 2 ^ 62)%Z → readsBytes r → allocated h out →
  remaining r = digits ++ sfx ++ payload ++ rest →
  (∀ i, i < length digits → ¬ occursAt sfx (digits ++ sfx ++ payload ++ rest) i) →
  fits max (length digits + length sfx) →
  ParseInt (stringOf digits) = inl (Z.of_nat (length payload)) →
  ((Z.of_nat (length payload) ≤ maxAlloc)%Z →
   ∃ h' r',
     matchLoop [InstIntWithoutSize p1 sfx out max; InstVarWithSize p2 out capture]
       binds h r
     = Matched (binds ++ digits :: (if capture then [payload] else [])) h' r'
     ∧ remaining r' = rest
     ∧ load h' out = Z.of_nat (length payload))
  ∧ ((maxAlloc < Z.of_nat (length payload))%Z →
     matchLoop [InstIntWithoutSize p1 sfx out max; InstVarWithSize p2 out capture]
       binds h r
     = MatchPanic).
Proof.
  intros Hsfx Hmax Hrb Hout Hrem Hfirst Hfits Hnum.
  destruct (scanLoop_found ErrIntVarNotMuch p1 sfx max r digits (payload ++ rest))
    as (st1 & r1 & Hloop & Hpre & Hrest); try done.
  cbn [matchLoop call]. unfold genInstIntWithoutSize.
  rewrite Hloop, Hpre, Hnum. unfold genInstVarWithSize.
  rewrite load_store by done. split; intros Hsize.
  - rewrite bool_decide_eq_false_2 by lia. rewrite Nat2Z.id.
    destruct (fill_fresh (length payload) r1) as (r2 & -> & Hrem2).
    rewrite Hrest in *.
    rewrite bool_decide_eq_true_2 in * by (rewrite length_app; lia).
    rewrite take_app_length. rewrite drop_app_length in Hrem2.
    eexists _, r2. split; [|split; [done|by apply load_store]].
    destruct capture; [|done]. by rewrite <- (assoc (++)).
  - by rewrite bool_decide_eq_true_2 by (by right).
Qed.

Lemma length_prefixed_field_witness :
  ∃ h' r',
    matchLoop [InstIntWithoutSize 7 (bytesOf CRLF) (mkPtr 0 0) 4096;
               InstVarWithSize 10 (mkPtr 0 0) true]
      [] [[0%Z]] (mkReader [bytesOf "4"; bytesOf CRLF; bytesOf "beafdead"] 0)
    = Matched ([] ++ [bytesOf "4"; bytesOf "beaf"]) h' r'
    ∧ remaining r' = bytesOf "dead"
    ∧ load h' (mkPtr 0 0) = Z.of_nat (length (bytesOf "beaf")).
Proof.
  refine (proj1 (length_prefixed_field 7 10 (bytesOf CRLF) (mkPtr 0 0) true 4096
                   [] [[0%Z]]
                   (mkReader [bytesOf "4"; bytesOf CRLF; bytesOf "beafdead"] 0)
                   (bytesOf "4") (bytesOf "beaf") (bytesOf "dead")
                   _ _ _ _ _ _ _ _) _).
  - discriminate.
  - lia.
  - repeat constructor; discriminate.
  - exists [0%Z]. split; [reflexivity|]. simpl. lia.
  - reflexivity.
  - intros i Hi. destruct i as [|i]; [vm_compute; discriminate|simpl in Hi; lia].
  - exists 0. split; [vm_compute; lia|by left].
  - reflexivity.
  - vm_compute. discriminate.
Defined.

(** ** The whole match *)

(** X15. [MatchReader] ends on every reader of a finite input, whatever
    the instructions and the cells: it returns captures or an error, or
    panics; no loop of an instruction goes on for ever. *)
Theorem match_returns insts binds h r :
  (∃ binds' h' r', matchLoop insts binds h r = Matched binds' h' r')
  ∨ (∃ e h' r', matchLoop insts binds h r = MatchError e h' r')
  ∨ matchLoop insts binds h r = MatchPanic.
Proof.
  revert binds h r. induction insts as [|inst insts IH]; intros binds h r.
  { left. by exists binds, h, r. }
  simpl. pose proof (call_returns inst h r) as Hcall.
  destruct (call inst h r) as [b h1 r1|e h1 r1| |]; [apply IH| | |done].
  - right. left. by exists e, h1, r1.
  - by right; right.
Qed.

Lemma matchLoop_panic insts : ∀ binds h r,
  Forall (λ inst, ∀ max, limitOf inst = Some max → (max < 2 ^ 62)%Z) insts →
  matchLoop insts binds h r = MatchPanic
  ↔ ∃ pre inst post outs h1 r1 size,
      insts = pre ++ inst :: post ∧ runs pre h r outs h1 r1
      ∧ sizePtr inst = Some size
      ∧ (load h1 size < 0 ∨ maxAlloc < load h1 size)%Z.
Proof.
  induction insts as [|inst insts IH]; intros binds h r Hlim.
  { split; [done|]. intros (pre & i & post & _ & _ & _ & _ & Heq & _).
    by destruct pre. }
  apply Forall_cons in Hlim as [Hinst Hlim]. simpl.
  pose proof (call_panic inst h r Hinst) as Hpanic.
  destruct (call inst h r) as [b h1 r1|e h1 r1| |] eqn:Hcall.
  - rewrite IH by done. split.
    + intros (pre & i & post & outs & h2 & r2 & size & -> & Hruns & Hsize & Hneg).
      exists (inst :: pre), i, post, (b :: outs), h2, r2, size.
      repeat split; try done. by eapply runs_cons.
    + intros (pre & i & post & outs & h2 & r2 & size & Heq & Hruns & Hsize & Hneg).
      destruct pre as [|i0 pre]; simplify_eq/=.
      * inversion Hruns; subst. destruct Hpanic as [_ Hp].
        exfalso. enough (Ret b h1 r1 = Panic) by done. apply Hp. eauto.
      * inversion Hruns as [|? ? ? ? ? ? ? ? ? ? Hc Hrest]; subst.
        rewrite Hcall in Hc. injection Hc as <- <- <-.
        by exists pre, i, post, outs0, h2, r2, size.
  - split; [done|].
    intros (pre & i & post & outs & h2 & r2 & size & Heq & Hruns & Hsize & Hneg).
    destruct pre as [|i0 pre]; simplify_eq/=.
    + inversion Hruns; subst. destruct Hpanic as [_ Hp].
      exfalso. enough (Raise e h1 r1 = Panic) by done. apply Hp. eauto.
    + inversion Hruns; subst. congruence.
  - split; [|done]. intros _. destruct Hpanic as [Hp _].
    destruct (Hp eq_refl) as (size & Hsize & Hneg).
    exists [], inst, insts, [], h, r, size. repeat split; try done. constructor.
  - by pose proof (call_returns inst h r).
Qed.

(** X16. For a matcher that [Compile] returns with a limit no more than
    [maxAlloc], the one way [MatchReader] panics is a size [make] does not
    take: it panics exactly when the instructions before some sized
    instruction all return and leave, in the size cell of that
    instruction, a negative number or a number beyond [maxAlloc]. *)
Theorem match_panic_is_size_out_of_range growcap pattern opts tpm h0 h r :
  Compile growcap pattern opts = Compiled tpm h0 →
  (limitOfOptions opts ≤ maxAlloc)%Z →
  MatchReader tpm h r = MatchPanic
  ↔ ∃ pre inst post outs h1 r1 size,
      instSlice tpm = pre ++ inst :: post ∧ runs pre h r outs h1 r1
      ∧ sizePtr inst = Some size
      ∧ (load h1 size < 0 ∨ maxAlloc < load h1 size)%Z.
Proof.
  intros Hc Hlim. apply matchLoop_panic.
  assert (Hall : limitedBy (limitOfOptions opts) (instSlice tpm)).
  { revert Hc. unfold Compile. destruct (splitRaw pattern) as [raws final].
    intros Hloop. apply compileLoop_limit in Hloop as [Hmax Hall].
    2:{ unfold startState. simpl. rewrite newMatcher_insts. constructor. }
    unfold startState in Hmax. simpl in Hmax. rewrite newMatcher_max in Hmax.
    by rewrite <- Hmax. }
  unfold limitedBy in Hall. rewrite Forall_forall in *.
  intros inst Hin max Hmax. rewrite (Hall inst Hin max Hmax).
  unfold maxAlloc in Hlim. lia.
Qed.

Lemma match_panic_is_size_out_of_range_witness :
  let tpm := mkMatcher [InstIntWithoutSize 7 (bytesOf CRLF) (mkPtr 0 0) 4096;
                        InstVarWithSize 10 (mkPtr 0 0) true]
               (mkSlice 0 1 1) 4096 in
  let r := NewReader (bytesOf (cat ["9223372036854775807"; CRLF; "dead"])) in
  MatchReader tpm [[0%Z]] r = MatchPanic
  ↔ ∃ pre inst post outs h1 r1 size,
      instSlice tpm = pre ++ inst :: post ∧ runs pre [[0%Z]] r outs h1 r1
      ∧ sizePtr inst = Some size
      ∧ (load h1 size < 0 ∨ maxAlloc < load h1 size)%Z.
Proof.
  intros tpm r.
  apply (match_panic_is_size_out_of_range growslice
           (cat ["N/int,"; CRLF; ",V/bin:N"]) [] tpm [[0%Z]] [[0%Z]] r).
  - vm_compute. reflexivity.
  - vm_compute. discriminate.
Defined.

(** ** The errors of Compile *)

Lemma len_append a b : len (a +:+ b) = len a + len b.
Proof. unfold len. induction a as [|c a IH]; simpl; [done|]. by rewrite IH. Qed.

Lemma totalLen_cat raws : totalLen raws = Z.of_nat (len (cat raws)).
Proof.
  induction raws as [|raw raws IH]; [done|].
  unfold cat in *. simpl. rewrite len_append, IH. lia.
Qed.

Lemma totalLen_nonneg raws : (0 ≤ totalLen raws)%Z.
Proof. rewrite totalLen_cat. lia. Qed.

Lemma compileLine_err_shape growcap pos line st e :
  compileLine growcap pos line st = StepErr e →
  parseCode (Code e) = true ∧ Cause e = None.
Proof.
  unfold compileLine, compileSized, compileSizedInt, withCell.
  repeat case_match; try done; by intros [= <-].
Qed.

Lemma compileLoop_err_shape growcap raws : ∀ final st pos e,
  compileLoop growcap raws final st pos = CompileError e →
  parseCode (Code e) = true ∧ Cause e = None.
Proof.
  assert (Hraw : ∀ pos raw st e, compileRaw growcap pos raw st = StepErr e →
    parseCode (Code e) = true ∧ Cause e = None).
  { intros pos raw st e. unfold compileRaw. destruct (trimLine raw); [|done].
    apply compileLine_err_shape. }
  induction raws as [|raw0 raws IH]; intros final st pos e; simpl.
  - destruct (compileRaw growcap pos final st) as [st'|e'|] eqn:Hr; [| |done].
    + case_bool_decide; [done|]. by intros [= <-].
    + intros [= <-]. by eapply Hraw.
  - destruct (compileRaw growcap pos raw0 st) as [st'|e'|] eqn:Hr; [| |done].
    + apply IH.
    + intros [= <-]. by eapply Hraw.
Qed.

(** X17. An error of [Compile] is a parse error: its code is one of the
    five parse codes, it has no cause, and its position is the 1-based
    offset of a byte of the pattern. *)
Theorem compile_error_shape growcap pattern opts e :
  Compile growcap pattern opts = CompileError e →
  parseCode (Code e) = true ∧ Cause e = None
  ∧ (1 ≤ Pos e ≤ Z.of_nat (len pattern))%Z.
Proof.
  unfold Compile. destruct (splitRaw pattern) as [raws final] eqn:Hsplit.
  intros Hloop.
  destruct (compileLoop_err_shape growcap raws final _ _ e Hloop) as [Hcode Hcause].
  destruct (compileLoop_error growcap raws final _ _ e Hloop)
    as (pre & raw & post & st1 & Hfields & _ & Hpos & Hraw).
  assert (Hlen : totalLen (pre ++ raw :: post) = Z.of_nat (len pattern)).
  { rewrite <- Hfields, totalLen_cat.
    pose proof (rawFields_concat pattern) as Hcat. unfold rawFields in Hcat.
    rewrite Hsplit in Hcat. by rewrite Hcat. }
  rewrite totalLen_app in Hlen. simpl in Hlen.
  pose proof (totalLen_nonneg pre). pose proof (totalLen_nonneg post).
  assert (Hne : raw ≠ EmptyString).
  { intros ->. by destruct Hraw as [Hr|(_ & _ & st' & Hr & _)]. }
  assert (0 < len raw) by (destruct raw; [done|simpl; lia]).
  repeat split; try done; lia.
Qed.

Lemma compile_error_shape_witness :
  let e := mkError (ErrParseVariableNotDefined "M") 10 None in
  parseCode (Code e) = true ∧ Cause e = None
  ∧ (1 ≤ Pos e ≤ Z.of_nat (len (cat ["N/int,"; CRLF; ",_:M"])))%Z.
Proof.
  intros e.
  apply (compile_error_shape growslice (cat ["N/int,"; CRLF; ",_:M"]) [] e).
  vm_compute. reflexivity.
Defined.

(** ** The cells of a compiled matcher *)

Lemma allocated_store h p v q : allocated h q → allocated (store h p v) q.
Proof.
  intros (a & Ha & Hi). unfold allocated, store.
  destruct (decide (parr p = parr q)) as [Heq|Hne].
  - rewrite Heq, list_lookup_alter_eq, Ha. simpl. eexists. split; [done|].
    by rewrite length_insert.
  - rewrite list_lookup_alter_ne by done. eauto.
Qed.

Lemma allocated_app h h' q : allocated h q → allocated (h ++ h') q.
Proof.
  intros (a & Ha & Hi). exists a. split; [|done].
  by apply lookup_app_l_Some.
Qed.

Lemma addr_allocated h s i p : sliceOk h s → addr s i = Some p → allocated h p.
Proof.
  intros [Hlen Harr]. unfold addr. case_bool_decide as Hi; [|done].
  intros [= <-]. destruct Harr as (a & Ha & Hl); [lia|].
  exists a. simpl. split; [done|lia].
Qed.

Section HeapFacts.

Variable growcap : nat → nat → nat.

Lemma appendInt_ok h s v :
  sliceOk h s →
  sliceOk (appendInt growcap h s v).1 (appendInt growcap h s v).2
  ∧ ∀ q, allocated h q → allocated (appendInt growcap h s v).1 q.
Proof.
  intros [Hlen Harr]. unfold appendInt. case_bool_decide as Hroom; simpl.
  - split; [|intros q; apply allocated_store]. split; simpl; [lia|].
    intros _. destruct Harr as (a & Ha & Hl); [lia|].
    unfold store. simpl. rewrite list_lookup_alter_eq, Ha. simpl.
    eexists. split; [done|]. by rewrite length_insert.
  - split; [|intros q; apply allocated_app]. split; simpl; [lia|].
    intros _. rewrite lookup_app_r, Nat.sub_diag by done. simpl.
    eexists. split; [done|].
    rewrite length_take, length_app. simpl. rewrite length_replicate. lia.
Qed.

Lemma pushCell_heapOk v st : heapOk st → heapOk (pushCell growcap v st).
Proof.
  intros [Hs Hc]. pose proof (appendInt_ok (heap st) (intBinds (matcher st)) v Hs)
    as [Hs' Hmono].
  unfold pushCell, heapOk. destruct (appendInt _ _ _ _) as [h' s']. simpl in *.
  split; [done|]. unfold cellsAllocated in *. rewrite Forall_forall in *.
  intros inst Hin p Hp. apply Hmono. by eapply Hc.
Qed.

Lemma emit_heapOk inst st :
  heapOk st →
  (∀ p, sizePtr inst = Some p ∨ outPtr inst = Some p → allocated (heap st) p) →
  heapOk (emit inst st).
Proof.
  intros [Hs Hc] Hinst. unfold heapOk, emit. simpl. split; [done|].
  apply Forall_app. split; [done|]. by repeat constructor.
Qed.

Lemma withCell_ok st i k st' :
  heapOk st → withCell st i k = StepOk st' →
  ∃ p, allocated (heap st) p ∧ k p = StepOk st'.
Proof.
  intros [Hs _]. unfold withCell.
  destruct (addr (intBinds (matcher st)) i) as [p|] eqn:Hp; [|done].
  intros Hk. exists p. split; [|done]. by eapply addr_allocated.
Qed.

Lemma compileSized_heapOk pos tok capture st st' :
  heapOk st → compileSized growcap pos tok capture st = StepOk st' → heapOk st'.
Proof.
  intros Hok. unfold compileSized. destruct (ParseInt tok) as [n|_].
  - intros (p & Hp & [= <-])%withCell_ok; [|by apply pushCell_heapOk].
    apply emit_heapOk; [by apply pushCell_heapOk|].
    by intros q [[= <-]|[=]].
  - destruct (intBindsMap st !! tok) as [i|]; [|done].
    intros (p & Hp & [= <-])%withCell_ok; [|done].
    apply emit_heapOk; [done|]. by intros q [[= <-]|[=]].
Qed.

Lemma bindLast_heapOk var st : heapOk st → heapOk (bindLast var st).
Proof. done. Qed.

Lemma compileSizedInt_heapOk pos var tok st st' :
  heapOk st → compileSizedInt growcap pos var tok st = StepOk st' → heapOk st'.
Proof.
  intros Hok. unfold compileSizedInt. destruct (ParseInt tok) as [n|_].
  - assert (Hok2 : heapOk (bindLast var (pushCell growcap 0 (pushCell growcap n st))))
      by (by apply bindLast_heapOk, pushCell_heapOk, pushCell_heapOk).
    intros (p & Hp & (q & Hq & [= <-])%withCell_ok)%withCell_ok; try done.
    apply emit_heapOk; [done|]. by intros q' [[= <-]|[= <-]].
  - destruct (intBindsMap st !! tok) as [i|]; [|done].
    assert (Hok2 : heapOk (bindLast var (pushCell growcap 0 st)))
      by (by apply bindLast_heapOk, pushCell_heapOk).
    intros (p & Hp & (q & Hq & [= <-])%withCell_ok)%withCell_ok; try done.
    apply emit_heapOk; [done|]. by intros q' [[= <-]|[= <-]].
Qed.

Lemma compileLine_heapOk pos line st st' :
  heapOk st → compileLine growcap pos line st = StepOk st' → heapOk st'.
Proof.
  intros Hok Hline. destruct line as [|c0 line']; [done|].
  unfold compileLine in Hline.
  destruct (Ascii.eqb c0 "_").
  { revert Hline. repeat case_match; try done.
    - by intros [= <-].
    - by apply compileSized_heapOk. }
  destruct (Contains (String c0 line') "/").
  { revert Hline. repeat case_match; try done; try (by intros [= <-]).
    - by apply compileSized_heapOk.
    - by apply compileSizedInt_heapOk. }
  revert Hline. destruct (state st).
  - intros [= <-]. apply emit_heapOk; [done|]. by intros q [[=]|[=]].
  - intros [= <-]. apply (emit_heapOk _ st); [done|]. by intros q [[=]|[=]].
  - intros [= <-]. apply (emit_heapOk _ st); [done|]. by intros q [[=]|[=]].
  - assert (Hok2 : heapOk (bindLast (name st) (pushCell growcap 0 st)))
      by (by apply bindLast_heapOk, pushCell_heapOk).
    intros (p & Hp & [= <-])%withCell_ok; [|done].
    apply (emit_heapOk _ (bindLast (name st) (pushCell growcap 0 st))); [done|].
    by intros q [[=]|[= <-]].
Qed.

Lemma compileLoop_heapOk raws : ∀ final st pos tpm h,
  heapOk st → compileLoop growcap raws final st pos = Compiled tpm h →
  sliceOk h (intBinds tpm) ∧ cellsAllocated h (instSlice tpm).
Proof.
  assert (Hraw : ∀ pos raw st st', heapOk st →
    compileRaw growcap pos raw st = StepOk st' → heapOk st').
  { intros pos raw st st' Hok. unfold compileRaw. destruct (trimLine raw); [|done].
    by apply compileLine_heapOk. }
  induction raws as [|raw0 raws IH]; intros final st pos tpm h Hok; simpl.
  - destruct (compileRaw growcap pos final st) as [st'| |] eqn:Hr; [|done..].
    case_bool_decide; [|done]. intros [= <- <-]. by eapply Hraw.
  - destruct (compileRaw growcap pos raw0 st) as [st'| |] eqn:Hr; [|done..].
    apply IH. by eapply Hraw.
Qed.

End HeapFacts.

(** X18. The cells of a compiled matcher are real cells: every pointer
    [Compile] hands to an instruction, for its size or for its number,
    points inside an array of the heap [Compile] leaves, whatever room
    [append] made when the array of [intBinds] was full; and the header
    of [intBinds] describes an array of that heap. *)
Theorem compiled_cells_allocated growcap pattern opts tpm h :
  Compile growcap pattern opts = Compiled tpm h →
  sliceOk h (intBinds tpm)
  ∧ ∀ inst p, inst ∈ instSlice tpm →
      sizePtr inst = Some p ∨ outPtr inst = Some p → allocated h p.
Proof.
  unfold Compile. destruct (splitRaw pattern) as [raws final]. intros Hloop.
  apply compileLoop_heapOk in Hloop as [Hs Hc].
  - split; [done|]. unfold cellsAllocated in Hc. rewrite Forall_forall in Hc.
    intros inst p Hin. by apply Hc.
  - unfold heapOk, startState. simpl.
    assert (Hb : intBinds (newMatcher opts) = nilSlice).
    { unfold newMatcher.
      assert (Hf : ∀ opts tpm, intBinds (foldl applyOption tpm opts) = intBinds tpm).
      { clear. induction opts as [|[m] opts IH]; intros tpm; [done|].
        simpl. by rewrite IH. }
      case_bool_decide; simpl; by rewrite Hf. }
    rewrite Hb, newMatcher_insts. split; [|constructor].
    split; simpl; [lia|]. lia.
Qed.

Lemma compiled_cells_allocated_witness :
  let tpm :=
    mkMatcher
      [InstVarWithoutSize 7 (bytesOf CRLF) true 32;
       InstIntWithSize 10 (mkPtr 1 0) (mkPtr 1 1);
       InstVarWithSize 18 (mkPtr 1 1) true;
       InstConst 27 (bytesOf CRLF)]
      (mkSlice 1 2 2) 32 in
  let h := [[2]; [2; 0]]%Z in
  sliceOk h (intBinds tpm)
  ∧ ∀ inst p, inst ∈ instSlice tpm →
      sizePtr inst = Some p ∨ outPtr inst = Some p → allocated h p.
Proof.
  intros tpm h.
  apply (compiled_cells_allocated growslice
           (cat ["V/bin,"; CRLF; ",N/int:2,v2/bin:N,"; CRLF])
           [WithMaxVariableSize 32] tpm h).
  vm_compute. reflexivity.
Defined.

(** ** Reads that deliver nothing *)

Lemma Read_padReads r :
  Read (padReads r) 1
  = match Read r 1 with
    | ([], None, r') => ([zero], None, padReads r')
    | (data, err, r') => (data, err, padReads r')
    end.
Proof.
  unfold Read, padReads. destruct (chunks r) as [|c cs]; simpl; [done|].
  destruct c as [|b [|b2 c]]; simpl; try done.
Qed.

Lemma writeAt_zero buf i :
  buf !! i = Some zero → writeAt buf i [zero] = writeAt buf i [].
Proof.
  intros Hi. rewrite writeAt_nil. unfold writeAt. simpl.
  rewrite Nat.add_1_r. rewrite <- (take_drop_middle buf i zero) at 3 by done.
  done.
Qed.

Lemma scanGrow_with f pos max st r :
  scanGrow pos max st (f r) = scanWithReader f (scanGrow pos max st r).
Proof. unfold scanGrow. by repeat case_bool_decide. Qed.

Lemma scanGrow_zerosFrom pos max st r st' r' :
  zerosFrom st → scanGrow pos max st r = Next st' r' → zerosFrom st'.
Proof.
  unfold scanGrow, zerosFrom. intros Hz.
  repeat case_bool_decide; try done; intros [= <- _]; [|done].
  simpl. intros i Hi Hlen. rewrite length_take in Hlen.
  rewrite lookup_take_lt by lia.
  destruct (decide (i < length (buf st))) as [Hlt|Hge].
  - rewrite lookup_app_l by done. by apply Hz.
  - rewrite lookup_app_r by lia. apply lookup_replicate_2.
    rewrite length_app, length_replicate in Hlen. lia.
Qed.

Lemma scanStep_padReads code pos sfx max st r :
  zerosFrom st →
  scanStep code pos sfx max st (padReads r)
  = scanWithReader padReads (scanStep code pos sfx max st r)
  ∧ ∀ st' r', scanStep code pos sfx max st r = Next st' r' → zerosFrom st'.
Proof.
  intros Hz. unfold scanStep. case_bool_decide as Hroom; [|done].
  rewrite Read_padReads.
  destruct (Read r 1) as [[data [e|]] r1] eqn:HR.
  { by destruct data. }
  apply Read_length in HR.
  assert (Hw : writeAt (buf st) (idx st) (match data with [] => [zero] | _ => data end)
               = writeAt (buf st) (idx st) data).
  { destruct data; [|done]. apply writeAt_zero, Hz; lia. }
  assert (Hzw : ∀ m, zerosFrom (mkScan (S (idx st)) m (bs st)
                                  (writeAt (buf st) (idx st) data))).
  { intros m i Hi Hlen. simpl in *.
    rewrite writeAt_length in Hlen by lia. unfold writeAt.
    rewrite lookup_app_r by (rewrite length_take; lia).
    rewrite length_take, Nat.min_l by lia.
    rewrite lookup_app_r by lia.
    rewrite lookup_drop. rewrite <- (Hz i) by lia. f_equal. lia. }
  destruct data as [|b data]; simpl in *; rewrite ?Hw;
    repeat case_bool_decide; try destruct (bytesEqual _ _);
    (split; [by rewrite ?scanGrow_with
            |intros st' r'; try done; by apply scanGrow_zerosFrom]).
Qed.

Lemma scanLoop_padReads fuel : ∀ code pos sfx max st r,
  zerosFrom st →
  scanLoop fuel code pos sfx max st (padReads r)
  = scanWithReader padReads <$> scanLoop fuel code pos sfx max st r.
Proof.
  induction fuel as [|fuel IH]; intros code pos sfx max st r Hz; [done|].
  simpl. destruct (scanStep_padReads code pos sfx max st r Hz) as [-> Hnext].
  destruct (scanStep code pos sfx max st r) as [st' r'| | |]; simpl; try done.
  apply IH. by eapply Hnext.
Qed.

(** More fuel than the loop needs changes nothing. *)
Lemma scanLoop_fuel fuel : ∀ code pos sfx max st r res k,
  scanLoop fuel code pos sfx max st r = Some res →
  scanLoop (fuel + k) code pos sfx max st r = Some res.
Proof.
  induction fuel as [|fuel IH]; intros code pos sfx max st r res k; [done|].
  simpl. destruct (scanStep code pos sfx max st r); try done. apply IH.
Qed.

Lemma scanInit_zerosFrom : zerosFrom scanInit.
Proof.
  intros i _ Hi. unfold scanInit in *. cbn [buf] in *.
  apply lookup_replicate_2. by rewrite length_replicate in Hi.
Qed.

Lemma scanLoop_budget_padReads code pos sfx max r :
  scanLoop (budget (padReads r)) code pos sfx max scanInit (padReads r)
  = scanWithReader padReads <$> scanLoop (budget r) code pos sfx max scanInit r.
Proof.
  destruct (scanLoop_ends (budget r) code pos sfx max scanInit r)
    as (res & Hloop & _); [unfold budget, weight; lia|].
  assert (Hle : budget r ≤ budget (padReads r)).
  { unfold budget, remaining, padReads. simpl. rewrite length_fmap.
    assert (length (concat (chunks r)) ≤ length (concat (padChunk <$> chunks r))).
    { induction (chunks r) as [|c cs IH]; [done|].
      rewrite fmap_cons. cbn [concat]. rewrite !length_app.
      destruct c; simpl in *; lia. }
    lia. }
  replace (budget (padReads r)) with (budget r + (budget (padReads r) - budget r))
    by lia.
  rewrite scanLoop_padReads by apply scanInit_zerosFrom.
  by rewrite Hloop, (scanLoop_fuel _ _ _ _ _ _ _ _ _ Hloop).
Qed.

(** X19. The scanning instructions drop the count [Read] returns: a read
    that delivers nothing with a nil error counts as one byte, the zero
    the buffer was made with. On every reader a VarSuffix or IntSuffix
    instruction returns what it returns on the reader that delivers a zero
    byte in place of every such read. *)
Theorem empty_read_is_zero_byte inst h r :
  fixedSize inst = false →
  call inst h (padReads r) = withReader padReads (call inst h r).
Proof.
  destruct inst as [pos mtch|pos size capture|pos sfx capture max
                    |pos size outSize|pos sfx outSize max]; try done; intros _;
    simpl; unfold genInstVarWithoutSize, genInstIntWithoutSize;
    rewrite scanLoop_budget_padReads;
    destruct (scanLoop (budget r) _ pos sfx max scanInit r) as [[| | |]|];
    simpl; try done.
  by destruct (ParseInt _).
Qed.

Lemma empty_read_is_zero_byte_witness :
  let r := mkReader [bytesOf "ab"; []; bytesOf "c"; bytesOf CRLF] 0 in
  call (InstVarWithoutSize 3 (bytesOf CRLF) true 4096) [] (padReads r)
  = withReader padReads
      (Ret (Some (bytesOf "ab" ++ [zero] ++ bytesOf "c")) [] (mkReader [] 6)).
Proof.
  intros r.
  apply (empty_read_is_zero_byte (InstVarWithoutSize 3 (bytesOf CRLF) true 4096) [] r).
  reflexivity.
Defined.

(** ** Patterns of constants *)

Lemma splitRaw_plain f : Contains f comma = false → splitRaw f = ([], f).
Proof.
  induction f as [|c f IH]; [done|]. simpl.
  destruct (Ascii.eqb c comma); [done|]. intros Hf. by rewrite IH.
Qed.

Lemma trimLine_plain f :
  f ≠ EmptyString → Contains f comma = false → trimLine f = Some f.
Proof.
  intros Hne Hc. unfold trimLine.
  assert (Hl : ∃ c, lastByte f = Some c ∧ Ascii.eqb c comma = false).
  { induction f as [|c f IH]; [done|]. simpl in Hc.
    destruct (Ascii.eqb c comma) eqn:Hcc; [done|].
    destruct f as [|c' f]; [by exists c|]. by apply IH. }
  by destruct Hl as (c & -> & ->).
Qed.

Lemma trimLine_comma f : trimLine (f +:+ String comma EmptyString) = Some f.
Proof.
  unfold trimLine.
  assert (Hl : lastByte (f +:+ String comma EmptyString) = Some comma
               ∧ dropLast (f +:+ String comma EmptyString) = f).
  { induction f as [|c f [IH1 IH2]]; [done|].
    change (String c f +:+ String comma EmptyString)
      with (String c (f +:+ String comma EmptyString)).
    destruct (f +:+ String comma EmptyString) as [|c' s] eqn:Hs;
      [by destruct f|].
    split.
    - by change (lastByte (String c (String c' s))) with (lastByte (String c' s)).
    - change (dropLast (String c (String c' s)))
        with (String c (dropLast (String c' s))).
      by rewrite IH2. }
  destruct Hl as [-> ->]. by rewrite Ascii.eqb_refl.
Qed.

Lemma plainField_inv f :
  plainField f = true →
  f ≠ EmptyString ∧ Contains f comma = false
  ∧ ∃ c f', f = String c f' ∧ Ascii.eqb c "_"%char = false
            ∧ Contains f "/"%char = false.
Proof.
  destruct f as [|c f']; [done|]. unfold plainField.
  rewrite !andb_true_iff, !negb_true_iff. intros [[H1 H2] H3].
  split; [done|]. split; [done|]. by exists c, f'.
Qed.

Lemma compileLine_plain growcap pos f st :
  plainField f = true → state st = nonParseState →
  compileLine growcap pos f st = StepOk (emit (InstConst pos (bytesOf f)) st).
Proof.
  intros (_ & _ & c & f' & -> & Hc & Hs)%plainField_inv Hst.
  unfold compileLine. by rewrite Hc, Hs, Hst.
Qed.

Lemma compileLoop_plain growcap fs : ∀ f st pos,
  Forall (λ g, plainField g = true) (f :: fs) → state st = nonParseState →
  compileLoop growcap (splitRaw (joinComma f fs)).1 (splitRaw (joinComma f fs)).2
    st pos
  = Compiled (mkMatcher (instSlice (matcher st) ++ constsAt pos (f :: fs))
                (intBinds (matcher st)) (maxVarSize (matcher st)))
      (heap st).
Proof.
  induction fs as [|g fs IH]; intros f st pos [Hf Hfs]%Forall_cons Hst.
  - pose proof (plainField_inv f Hf) as (Hne & Hc & _).
    cbn [joinComma]. rewrite splitRaw_plain by done. cbn [fst snd compileLoop].
    unfold compileRaw. rewrite trimLine_plain by done.
    rewrite compileLine_plain by done.
    rewrite bool_decide_eq_true_2 by done. done.
  - pose proof (plainField_inv f Hf) as (Hne & Hc & _).
    cbn [joinComma]. rewrite splitRaw_comma, splitRaw_plain by done.
    cbn [fst snd app compileLoop]. unfold compileRaw.
    rewrite trimLine_comma, compileLine_plain by done.
    rewrite IH by done. unfold emit. cbn [matcher instSlice intBinds maxVarSize heap].
    rewrite <- (assoc (++)). cbn [constsAt app].
    rewrite len_append. cbn [len String.length].
    replace (pos + Z.of_nat (len f + 1))%Z with (pos + Z.of_nat (len f) + 1)%Z
      by lia.
    done.
Qed.

Lemma genInstConst_ret pos mtch h r :
  (∀ rest, remaining r = mtch ++ rest →
     ∃ r', genInstConst pos mtch h r = Ret None h r' ∧ remaining r' = rest)
  ∧ (∀ b h' r', genInstConst pos mtch h r = Ret b h' r' →
       b = None ∧ h' = h ∧ remaining r = mtch ++ remaining r').
Proof.
  unfold genInstConst.
  destruct (fill_fresh (length mtch) r) as (r' & -> & Hrem). split.
  - intros rest Hrest. exists r'. rewrite Hrem, Hrest.
    rewrite bool_decide_eq_true_2 by (rewrite length_app; lia).
    rewrite take_app_length, drop_app_length.
    unfold bytesEqual. by rewrite bool_decide_eq_true_2.
  - intros b h' r''. case_bool_decide as Hl; [|done]. unfold bytesEqual.
    case_bool_decide as Heq; [|done]. intros [= <- <- <-].
    rewrite Hrem. repeat split.
    transitivity (take (length mtch) (remaining r) ++ drop (length mtch) (remaining r));
      [by rewrite take_drop|by rewrite <- Heq].
Qed.

Lemma matchLoop_consts fields : ∀ pos binds h r,
  (∀ rest, remaining r = concat (bytesOf <$> fields) ++ rest →
     ∃ r', matchLoop (constsAt pos fields) binds h r = Matched binds h r'
           ∧ remaining r' = rest)
  ∧ (∀ binds' h' r',
       matchLoop (constsAt pos fields) binds h r = Matched binds' h' r' →
       binds' = binds ∧ h' = h
       ∧ remaining r = concat (bytesOf <$> fields) ++ remaining r').
Proof.
  induction fields as [|f fields IH]; intros pos binds h r.
  { split; [intros rest Hrest; by exists r|]. by intros binds' h' r' [= <- <- <-]. }
  rewrite fmap_cons. cbn [concat constsAt matchLoop call].
  destruct (genInstConst_ret pos (bytesOf f) h r) as [Hto Hfrom]. split.
  - intros rest Hrest. rewrite <- (assoc (++)) in Hrest.
    destruct (Hto _ Hrest) as (r1 & -> & Hr1).
    by apply IH.
  - intros binds' h' r'.
    destruct (genInstConst pos (bytesOf f) h r) as [b h1 r1|e h1 r1| |] eqn:Hc;
      try done.
    destruct (Hfrom b h1 r1 eq_refl) as (-> & -> & Hr).
    intros (-> & -> & Hr1)%IH. rewrite Hr, Hr1. by rewrite <- (assoc (++)).
Qed.

(** X20. A pattern of constants. When every field is plain (not empty,
    without a comma or a slash, not starting with an underscore),
    [Compile] of the fields joined by commas gives one constant
    instruction for each field, at the 1-based offset of the field, and no
    cell; and [MatchReader] returns, without a capture, exactly on the
    inputs that start with the fields one after the other, the commas of
    the pattern standing for nothing in the input. It leaves what
    follows. *)
Theorem constant_pattern growcap f fs opts h r :
  Forall (λ g, plainField g = true) (f :: fs) →
  ∃ tpm,
    Compile growcap (joinComma f fs) opts = Compiled tpm []
    ∧ instSlice tpm = constsAt 1 (f :: fs)
    ∧ (∀ rest, remaining r = concat (bytesOf <$> f :: fs) ++ rest →
         ∃ r', MatchReader tpm h r = Matched [] h r' ∧ remaining r' = rest)
    ∧ (∀ binds h' r', MatchReader tpm h r = Matched binds h' r' →
         binds = [] ∧ h' = h
         ∧ remaining r = concat (bytesOf <$> f :: fs) ++ remaining r').
Proof.
  intros Hplain. unfold Compile, MatchReader.
  rewrite (surjective_pairing (splitRaw (joinComma f fs))).
  rewrite (compileLoop_plain growcap fs f (startState opts) 1 Hplain eq_refl).
  eexists. split; [done|].
  unfold startState. cbn [matcher instSlice heap]. rewrite newMatcher_insts.
  cbn [app]. split; [done|]. apply matchLoop_consts.
Qed.

Lemma constant_pattern_witness :
  let r := NewReader (bytesOf "GET /index") in
  ∃ tpm,
    Compile growslice (joinComma "GET" [" "]) [] = Compiled tpm []
    ∧ instSlice tpm = constsAt 1 ["GET"; " "]
    ∧ (∀ rest, remaining r = concat (bytesOf <$> ["GET"; " "]) ++ rest →
         ∃ r', MatchReader tpm [] r = Matched [] [] r' ∧ remaining r' = rest)
    ∧ (∀ binds h' r', MatchReader tpm [] r = Matched binds h' r' →
         binds = [] ∧ h' = []
         ∧ remaining r = concat (bytesOf <$> ["GET"; " "]) ++ remaining r').
Proof.
  intros r. apply (constant_pattern growslice "GET" [" "] [] [] r).
  repeat constructor.
Defined.

(** ** The comparison of the tests *)

Lemma cmpFrom_spec a : ∀ b i,
  length a + i = length b → cmpFrom a b i = Some (bool_decide (a = drop i b)).
Proof.
  induction a as [|ae a IH]; intros b i Hlen; simpl in *.
  - rewrite drop_ge by lia. by rewrite bool_decide_eq_true_2.
  - destruct (lookup_lt_is_Some_2 b i) as [be Hbe]; [lia|].
    rewrite Hbe, (drop_S _ _ _ Hbe). unfold bytesEqual.
    case_bool_decide as Heq.
    + rewrite IH by lia. f_equal. apply bool_decide_ext. naive_solver.
    + rewrite bool_decide_eq_false_2; [done|]. naive_solver.
Qed.

(** X21. [cmpByteSliceSlice], with which the tests compare the captures
    with what they expect, never runs off the end of its second argument,
    and returns true exactly when the two lists hold the same byte
    strings in the same order. *)
Theorem cmpByteSliceSlice_decides a b :
  cmpByteSliceSlice a b = Some (bool_decide (a = b)).
Proof.
  unfold cmpByteSliceSlice. case_bool_decide as Hlen.
  - rewrite bool_decide_eq_false_2; [done|]. by intros ->.
  - rewrite cmpFrom_spec by lia. by rewrite drop_0.
Qed.

(** ** The reads of a scan *)

Lemma scanStep_count code pos sfx max st r :
  match scanStep code pos sfx max st r with
  | Next st' r' =>
      idx st' = S (idx st) ∧ calls r' = S (calls r)
      ∧ midx st' = (if bool_decide (length sfx ≤ S (idx st))
                    then S (midx st) else midx st)
  | Found st' r' =>
      idx st' = S (idx st) ∧ calls r' = S (calls r) ∧ midx st' = midx st
      ∧ length sfx ≤ S (idx st) ∧ midx st + length sfx ≤ length (buf st')
  | Failed _ _ | Crashed => True
  end.
Proof.
  unfold scanStep. case_bool_decide as Hroom; [|done].
  destruct (Read r 1) as [[data [e|]] r1] eqn:HR; [done|].
  apply Read_calls in HR.
  assert (Hg : ∀ st1, match scanGrow pos max st1 r1 with
                      | Next st' r' => idx st' = idx st1 ∧ r' = r1 ∧ midx st' = midx st1
                      | Found _ _ => False
                      | Failed _ _ | Crashed => True
                      end).
  { intros st1. unfold scanGrow. by repeat case_bool_decide. }
  case_bool_decide as HL.
  - case_bool_decide as Hwin; [|done]. destruct (bytesEqual _ _); [done|].
    match goal with |- context [scanGrow pos max ?s r1] => specialize (Hg s) end.
    destruct (scanGrow _ _ _ _); try done. by destruct Hg as (-> & -> & ->).
  - match goal with |- context [scanGrow pos max ?s r1] => specialize (Hg s) end.
    destruct (scanGrow _ _ _ _); try done. by destruct Hg as (-> & -> & ->).
Qed.

Lemma scanReach_count code pos sfx max r0 st r :
  sfx ≠ [] → scanReach code pos sfx max r0 st r →
  calls r = calls r0 + idx st ∧ midx st = S (idx st) - length sfx.
Proof.
  intros Hsfx. assert (0 < length sfx) by (destruct sfx; [done|simpl; lia]).
  induction 1 as [|st r st' r' _ [IHc IHm] Hstep].
  - unfold scanInit. simpl. lia.
  - pose proof (scanStep_count code pos sfx max st r) as Hs.
    rewrite Hstep in Hs. destruct Hs as (-> & -> & ->).
    case_bool_decide; lia.
Qed.

Lemma scanLoop_count code pos sfx max r st' r' :
  sfx ≠ [] →
  scanLoop (budget r) code pos sfx max scanInit r = Some (Found st' r') →
  calls r' = calls r + length (take (midx st') (buf st')) + length sfx.
Proof.
  intros Hsfx Hloop.
  destruct (scanLoop_reach code pos sfx max r (budget r) scanInit r _
              (reach_init _ _ _ _ _) Hloop) as (st1 & r1 & Hreach & Hstep).
  destruct (scanReach_count _ _ _ _ _ _ _ Hsfx Hreach) as [Hc Hm].
  pose proof (scanStep_count code pos sfx max st1 r1) as Hs.
  rewrite Hstep in Hs. destruct Hs as (Hi & Hc' & Hm' & HL & Hwin).
  rewrite length_take. lia.
Qed.

(** X22. A scanning instruction reads one byte at a call: when it
    returns a buffer, the [Read] calls it has made are as many as the
    bytes of the buffer and of the suffix together, whatever the reader
    would have delivered to a longer read. *)
Theorem scan_reads_byte_by_byte inst pos sfx max h r b h' r' :
  sfx ≠ [] →
  (∃ capture, inst = InstVarWithoutSize pos sfx capture max)
  ∨ (∃ outSize, inst = InstIntWithoutSize pos sfx outSize max) →
  call inst h r = Ret (Some b) h' r' →
  calls r' = calls r + length b + length sfx.
Proof.
  intros Hsfx [[capture ->]|[outSize ->]]; simpl;
    unfold genInstVarWithoutSize, genInstIntWithoutSize.
  - destruct (scanLoop _ _ _ _ _ _ _) as [[| st r1 | |]|] eqn:Hloop; try done.
    destruct capture; [|done]. intros [= <- _ <-]. by eapply scanLoop_count.
  - destruct (scanLoop _ _ _ _ _ _ _) as [[| st r1 | |]|] eqn:Hloop; try done.
    case_match; [|done]. intros [= <- _ <-]. by eapply scanLoop_count.
Qed.

Lemma scan_reads_byte_by_byte_witness :
  calls (mkReader [bytesOf "rest"] 12)
  = calls (NewReader (bytesOf (cat ["foobarbuzz"; CRLF; "rest"])))
    + length (bytesOf "foobarbuzz") + length (bytesOf CRLF).
Proof.
  apply (scan_reads_byte_by_byte (InstVarWithoutSize 7 (bytesOf CRLF) true 32)
           7 (bytesOf CRLF) 32 [] _ (bytesOf "foobarbuzz") []
           (mkReader [bytesOf "rest"] 12)).
  - discriminate.
  - left. by exists true.
  - vm_compute. reflexivity.
Defined.

(** ** The last field *)

Lemma compileLine_closes growcap pos line st st' :
  compileLine growcap pos line st = StepOk st' → state st' = nonParseState →
  ∃ inst, instSlice (matcher st') = instSlice (matcher st) ++ [inst]
          ∧ instPos inst = pos.
Proof.
  unfold compileLine, compileSized, compileSizedInt, withCell.
  repeat case_match; try done; intros [= <-]; try done;
    unfold emit, bindLast; simpl; rewrite ?pushCell_insts; intros _;
    by eexists.
Qed.

Lemma compileLoop_closes growcap raws : ∀ final st pos tpm h,
  compileLoop growcap raws final st pos = Compiled tpm h →
  ∃ insts inst, instSlice tpm = insts ++ [inst]
                ∧ instPos inst = (pos + totalLen raws)%Z.
Proof.
  induction raws as [|raw0 raws IH]; intros final st pos tpm h; simpl.
  - unfold compileRaw. destruct (trimLine final) as [line|]; [|done].
    destruct (compileLine growcap pos line st) as [st'| |] eqn:Hl; [|done..].
    case_bool_decide as Hst; [|done]. intros [= <- <-].
    destruct (compileLine_closes _ _ _ _ _ Hl Hst) as (inst & -> & Hpos).
    exists (instSlice (matcher st)), inst. split; [done|lia].
  - destruct (compileRaw growcap pos raw0 st) as [st'| |]; [|done..].
    intros (insts & inst & -> & Hpos)%IH. exists insts, inst. split; [done|lia].
Qed.

(** X23. A compiled matcher is never empty: [Compile] succeeds only when
    the last field of the pattern gives rise to an instruction, and that
    instruction, the last of the matcher, reports the 1-based offset of
    the last field. *)
Theorem compiled_ends_with_last_field growcap pattern opts tpm h :
  Compile growcap pattern opts = Compiled tpm h →
  ∃ insts inst,
    instSlice tpm = insts ++ [inst]
    ∧ instPos inst = (1 + totalLen (splitRaw pattern).1)%Z.
Proof.
  unfold Compile. destruct (splitRaw pattern) as [raws final].
  apply compileLoop_closes.
Qed.

Lemma compiled_ends_with_last_field_witness :
  let tpm :=
    mkMatcher
      [InstVarWithoutSize 7 (bytesOf CRLF) true 32;
       InstIntWithSize 10 (mkPtr 1 0) (mkPtr 1 1);
       InstVarWithSize 18 (mkPtr 1 1) true;
       InstConst 27 (bytesOf CRLF)]
      (mkSlice 1 2 2) 32 in
  ∃ insts inst,
    instSlice tpm = insts ++ [inst]
    ∧ instPos inst
      = (1 + totalLen (splitRaw (cat ["V/bin,"; CRLF; ",N/int:2,v2/bin:N,"; CRLF])).1)%Z.
Proof.
  intros tpm.
  apply (compiled_ends_with_last_field growslice
           (cat ["V/bin,"; CRLF; ",N/int:2,v2/bin:N,"; CRLF])
           [WithMaxVariableSize 32] tpm [[2]; [2; 0]]%Z).
  vm_compute. reflexivity.
Defined.
